(** * PostgresDriver: a shallow embedding of src/driver/PostgresDriver.ts

    The development has two parts.  Part I embeds the driver: the JavaScript
    values it handles, the runtime and library functions it calls (string
    operations, [JSON], the date formatter, the regular-expression
    replacement), the mutable objects it shares with its callers, and every
    method the properties below talk about.  Part II states and proves the
    properties.

    Conventions of the embedding:
    - a JavaScript string is a [string] whose characters are the code units
      0..255; a JavaScript number is an integer [VNum z] or [VNaN]
      (fractional numbers are outside the embedding); a [Date] is [VDate]
      with the fields of its local civil time, months counted from 1;
    - an object literal is the list of its own properties in the order
      [Object.keys] enumerates them;
    - a [DatabaseConnection] is a mutable object: it lives in a heap and is
      named by a reference, so that the driver's pool array and the caller
      hold the same object;
    - the time zone and the clock of the host are a parameter, [Clock];
    - calls into the pg client, the pool and the logger are recorded in a
      trace, and what the client and the pool call back with is given by a
      [Transport], an arbitrary function of the trace so far;
    - [Throws e] stands for a synchronous throw as well as for a rejected
      promise; [Beyond] marks an input outside the embedded fragment. *)

From Stdlib Require Import Ascii String ZArith Lia.
From Stdlib Require Import DecimalString DecimalFacts DecimalPos DecimalNat DecimalZ.
From stdpp Require Import base numbers strings list.

Set Warnings "-register-all".

(* ===================================================================== *)
(** * Part I: the embedding                                               *)
(* ===================================================================== *)

(** ** Values and outcomes *)

Inductive value : Type :=
| VUndefined
| VNull
| VBool (b : bool)
| VNum (n : Z)
| VNaN
| VStr (s : string)
| VDate (y mo d h mi s ms : nat)
| VArr (l : list value)
| VObj (o : list (string * value)).

(** An object literal: own properties in [Object.keys] order. *)
Abbreviation ObjectLiteral := (list (string * value)).

Inductive error : Type :=
| ConnectionIsNotSetError
| TransactionAlreadyStartedError
| TransactionNotStartedError
| TypeError
| SyntaxError
| TransportError (e : value).

Inductive outcome (A : Type) : Type :=
| Returns (a : A)
| Throws (e : error)
| Beyond.
Arguments Returns {A} a.
Arguments Throws {A} e.
Arguments Beyond {A}.

Definition obind {A B} (m : outcome A) (f : A -> outcome B) : outcome B :=
  match m with
  | Returns a => f a
  | Throws e => Throws e
  | Beyond => Beyond
  end.

Definition of_option {A} (o : option A) : outcome A :=
  match o with
  | Some a => Returns a
  | None => Beyond
  end.

(** ** Strings and numbers of the runtime *)

Module Js.

(** The double quote character, code 34. *)
Definition dquote : string := String "034" EmptyString.

(** Number to string conversion, for integers: decimal digits, a leading
    minus sign for negative numbers. *)
Definition nat_to_string (n : nat) : string :=
  NilZero.string_of_uint (Nat.to_uint n).

Definition Z_to_string (z : Z) : string :=
  NilZero.string_of_int (Z.to_int z).

(** The integers that a number holds exactly and prints digit by digit:
    [Number.isSafeInteger]. *)
Definition safe (z : Z) : bool := (Z.abs z <=? 9007199254740991)%Z.

(** [Array.prototype.join] on an array of strings. *)
Definition join (sep : string) (l : list string) : string :=
  String.concat sep l.

(** [String.prototype.split] with a one-character separator. *)
Fixpoint split (sep : ascii) (s : string) : list string :=
  match s with
  | EmptyString => [EmptyString]
  | String c s' =>
      if Ascii.eqb c sep then EmptyString :: split sep s'
      else match split sep s' with
           | h :: t => String c h :: t
           | [] => [String c EmptyString]
           end
  end.

(** [String.prototype.substr(1)]. *)
Definition substr1 (s : string) : string :=
  match s with
  | EmptyString => EmptyString
  | String _ s' => s'
  end.

(** Truthiness ([ToBoolean]). *)
Definition truthy (v : value) : bool :=
  match v with
  | VUndefined | VNull | VNaN => false
  | VBool b => b
  | VNum n => negb (Z.eqb n 0)
  | VStr s => negb (String.eqb s EmptyString)
  | VDate _ _ _ _ _ _ _ | VArr _ | VObj _ => true
  end.

(** [String(v)] ([ToString]).  The text of a [Date] depends on the host's
    time zone and locale, and the text of a number that is no safe integer
    is not its run of digits: neither is embedded. *)
Fixpoint to_string (v : value) : option string :=
  match v with
  | VUndefined => Some "undefined"
  | VNull => Some "null"
  | VBool true => Some "true"
  | VBool false => Some "false"
  | VNum n => if safe n then Some (Z_to_string n) else None
  | VNaN => Some "NaN"
  | VStr s => Some s
  | VDate _ _ _ _ _ _ _ => None
  | VArr l =>
      option_map (join ",")
        ((fix elems (l : list value) : option (list string) :=
            match l with
            | [] => Some []
            | x :: r =>
                match (match x with
                       | VUndefined | VNull => Some EmptyString
                       | _ => to_string x
                       end), elems r with
                | Some s, Some t => Some (s :: t)
                | _, _ => None
                end
            end) l)
  | VObj _ => Some "[object Object]"
  end.

(** [Object.keys(o)] and the property read [o[k]]. *)
Definition keys (o : ObjectLiteral) : list string := map fst o.

Fixpoint get (o : ObjectLiteral) (k : string) : value :=
  match o with
  | [] => VUndefined
  | (k', v) :: o' => if String.eqb k' k then v else get o' k
  end.

(** The word characters of a regular expression: [A-Za-z0-9_]. *)
Definition is_word (c : ascii) : bool :=
  let n := nat_of_ascii c in
  ((48 <=? n) && (n <=? 57)) || ((65 <=? n) && (n <=? 90))
  || ((97 <=? n) && (n <=? 122)) || (n =? 95).

(** Characters with a meaning of their own in a regular expression. *)
Definition is_meta (c : ascii) : bool :=
  existsb (Ascii.eqb c)
    ["\"; "^"; "$"; "."; "|"; "?"; "*"; "+"; "("; ")"; "["; "]"; "{"; "}"]%char.

Fixpoint all_chars (p : ascii -> bool) (s : string) : bool :=
  match s with
  | EmptyString => true
  | String c s' => p c && all_chars p s'
  end.

(** A property name that reads as itself when spliced into a pattern. *)
Definition regex_literal (k : string) : bool :=
  all_chars (fun c => negb (is_meta c)) k.

End Js.

(** ** IdentifierEscaper *)

Definition escapeColumnName (columnName : string) : string :=
  Js.dquote +:+ columnName +:+ Js.dquote.

Definition escapeAliasName (aliasName : string) : string :=
  Js.dquote +:+ aliasName +:+ Js.dquote.

Definition escapeTableName (tableName : string) : string :=
  Js.dquote +:+ tableName +:+ Js.dquote.

(** ** parametrize *)

(** [Object.keys(o).map((key, index) => escapeColumnName(key) + "=$" +
    (startIndex + index + 1))]. *)
Definition parametrize (objectLiteral : ObjectLiteral) (startIndex : nat) : list string :=
  imap (fun index key =>
          escapeColumnName key +:+ "=$" +:+ Js.nat_to_string (startIndex + index + 1))
       (Js.keys objectLiteral).

(** ** ParameterRewriter: escapeQueryWithParameters *)

Module Rewriter.

(** [lit] read at the head of [s]: what follows it. *)
Fixpoint strip_prefix (lit s : string) : option string :=
  match lit with
  | EmptyString => Some s
  | String c lit' =>
      match s with
      | EmptyString => None
      | String d s' => if Ascii.eqb c d then strip_prefix lit' s' else None
      end
  end.

Fixpoint last_char (c : ascii) (s : string) : ascii :=
  match s with
  | EmptyString => c
  | String d s' => last_char d s'
  end.

Definition head_is_word (s : string) : bool :=
  match s with
  | EmptyString => false
  | String c _ => Js.is_word c
  end.

(** The assertion [\b] between a character [prev] and the rest [s]. *)
Definition word_boundary (prev : ascii) (s : string) : bool :=
  xorb (Js.is_word prev) (head_is_word s).

(** The alternative [(:key\b)] at the head of [s]. *)
Definition match_key (key s : string) : bool :=
  match strip_prefix (String ":" key) s with
  | Some rest => word_boundary (last_char ":" key) rest
  | None => false
  end.

(** The pattern [(:k1\b)|(:k2\b)|...] at the head of [s]: the text matched
    by the first alternative that matches. *)
Fixpoint first_match (ks : list string) (s : string) : option string :=
  match ks with
  | [] => None
  | k :: ks' => if match_key k s then Some (String ":" k) else first_match ks' s
  end.

(** A property name made of word characters, at least one. *)
Definition identifier (k : string) : bool :=
  negb (String.eqb k EmptyString) && Js.all_chars Js.is_word k.

Definition placeholder (n : nat) : string := "$" +:+ Js.nat_to_string n.

(** [value.map(v => { builtParameters.push(v); return "$" +
    builtParameters.length; })]. *)
Fixpoint push_all (vs : list value) (built : list value) : list string * list value :=
  match vs with
  | [] => ([], built)
  | v :: vs' =>
      let built' := built ++ [v] in
      let '(ps, final) := push_all vs' built' in
      (placeholder (length built') :: ps, final)
  end.

(** The replacement callback, applied to the matched text [key]. *)
Definition replacer (parameters : ObjectLiteral) (key : string) (built : list value)
  : string * list value :=
  match Js.get parameters (Js.substr1 key) with
  | VArr vs =>
      let '(ps, built') := push_all vs built in (Js.join ", " ps, built')
  | v =>
      let built' := built ++ [v] in (placeholder (length built'), built')
  end.

(** [sql.replace(new RegExp(keys, "g"), callback)]: a scan from left to
    right; [skip] counts the characters of the current match still to pass. *)
Fixpoint replace_all (parameters : ObjectLiteral) (s : string) (skip : nat)
    (built : list value) : string * list value :=
  match s with
  | EmptyString => (EmptyString, built)
  | String c s' =>
      match skip with
      | S n => replace_all parameters s' n built
      | O =>
          match first_match (Js.keys parameters) s with
          | Some key =>
              let '(rep, built') := replacer parameters key built in
              let '(out, final) :=
                replace_all parameters s' (String.length key - 1) built' in
              (rep +:+ out, final)
          | None =>
              let '(out, final) := replace_all parameters s' 0 built in
              (String c out, final)
          end
      end
  end.

End Rewriter.

(** The pattern is built from the property names as they are, so a name
    holding a character special to regular expressions is outside the
    embedding. *)
Definition escapeQueryWithParameters (sql : string) (parameters : option ObjectLiteral)
  : outcome (string * list value) :=
  match parameters with
  | None => Returns (sql, [])
  | Some parameters =>
      if decide (length (Js.keys parameters) = 0) then Returns (sql, [])
      else if forallb Js.regex_literal (Js.keys parameters)
           then Returns (Rewriter.replace_all parameters sql 0 [])
           else Beyond
  end.

(** ** The driver's objects and its collaborators *)

(** Identity of a pg client or pool object, and of a release function. *)
Definition handle : Type := nat.
Definition callback : Type := nat.

(** Reference to a [DatabaseConnection] object in the heap. *)
Definition ref : Type := nat.

Record DatabaseConnection : Type := mkDatabaseConnection {
  id : nat;
  connection : handle;
  isTransactionActive : bool;
  releaseCallback : option callback
}.

(** [this.options.usePool], [this.databaseConnection], [this.pool] and
    [this.databaseConnectionPool]. *)
Record PostgresDriver : Type := mkPostgresDriver {
  usePool : option bool;
  databaseConnection : option ref;
  pool : option handle;
  databaseConnectionPool : list ref
}.

(** What the driver does to its collaborators. *)
Inductive Event : Type :=
| NewPool (p : handle)
| NewClient (c : handle)
| ClientConnect (c : handle)
| ClientEnd (c : handle)
| PoolConnect (p : handle)
| PoolEnd (p : handle)
| Release (f : callback)
| ClientQuery (c : handle) (sql : string) (parameters : option (list value))
| LogQuery (sql : string)
| LogFailedQuery (sql : string)
| LogQueryError (err : value).

(** What the collaborators call back with, given everything done so far:
    the [err] of [connection.connect]; the [err], [connection] and
    [release] of [pool.connect]; the [err] and [result.rows] of
    [connection.query]. *)
Record Transport : Type := mkTransport {
  on_client_connect : list Event -> value;
  on_pool_connect : list Event -> value * handle * callback;
  on_client_query : list Event -> value * value
}.

Record World : Type := mkWorld {
  heap : list DatabaseConnection;
  driver : PostgresDriver;
  trace : list Event
}.

(** ** The state monad of the driver's methods.

    Each method runs to completion, callbacks included, before the next one
    starts. *)

Definition M (A : Type) : Type := World -> outcome A * World.

Definition ret {A} (a : A) : M A := fun w => (Returns a, w).
Definition throw {A} (e : error) : M A := fun w => (Throws e, w).
Definition beyond {A} : M A := fun w => (Beyond, w).

Definition bind {A B} (m : M A) (k : A -> M B) : M B :=
  fun w =>
    match m w with
    | (Returns a, w') => k a w'
    | (Throws e, w') => (Throws e, w')
    | (Beyond, w') => (Beyond, w')
    end.

#[global] Instance M_ret : MRet M := @ret.
#[global] Instance M_bind : MBind M := fun A B k m => bind m k.

Definition get_driver : M PostgresDriver := fun w => (Returns (driver w), w).

Definition put_driver (d : PostgresDriver) : M unit :=
  fun w => (Returns tt, mkWorld (heap w) d (trace w)).

Definition get_trace : M (list Event) := fun w => (Returns (trace w), w).

Definition emit (e : Event) : M unit :=
  fun w => (Returns tt, mkWorld (heap w) (driver w) (trace w ++ [e])).

(** Reading an object through a reference; a reference to no object is not
    a value a caller can hold. *)
Definition read (r : ref) : M DatabaseConnection :=
  fun w => (of_option (heap w !! r), w).

Definition write (r : ref) (c : DatabaseConnection) : M unit :=
  fun w => (Returns tt, mkWorld (<[r := c]> (heap w)) (driver w) (trace w)).

(** A new object. *)
Definition alloc (c : DatabaseConnection) : M ref :=
  fun w => (Returns (length (heap w)), mkWorld (heap w ++ [c]) (driver w) (trace w)).

(** Identity of an object created by [new]: fresh, since every creation is
    recorded. *)
Definition fresh : M handle := fun w => (Returns (length (trace w)), w).

Definition set_databaseConnection (x : option ref) : M unit :=
  d ← get_driver;
  put_driver (mkPostgresDriver (usePool d) x (pool d) (databaseConnectionPool d)).

Definition set_pool (x : option handle) : M unit :=
  d ← get_driver;
  put_driver (mkPostgresDriver (usePool d) (databaseConnection d) x (databaseConnectionPool d)).

Definition set_databaseConnectionPool (x : list ref) : M unit :=
  d ← get_driver;
  put_driver (mkPostgresDriver (usePool d) (databaseConnection d) (pool d) x).

Fixpoint forEach {A} (l : list A) (f : A -> M unit) : M unit :=
  match l with
  | [] => ret tt
  | x :: l' => f x ;; forEach l' f
  end.

(** [!this.databaseConnection && !this.pool]. *)
Definition connectionIsNotSet (d : PostgresDriver) : bool :=
  match databaseConnection d, pool d with
  | None, None => true
  | _, _ => false
  end.

(** ** ConnectionManager *)

Definition connect (env : Transport) : M unit :=
  d ← get_driver;
  match usePool d with
  | None | Some true =>
      p ← fresh;
      emit (NewPool p) ;;
      set_pool (Some p)
  | Some false =>
      c ← fresh;
      emit (NewClient c) ;;
      r ← alloc (mkDatabaseConnection 1 c false None);
      set_databaseConnection (Some r) ;;
      emit (ClientConnect c) ;;
      t ← get_trace;
      let err := on_client_connect env t in
      if Js.truthy err then throw (TransportError err) else ret tt
  end.

(** The executor of the returned promise runs at once; an exception in it
    rejects the promise.  [this.databaseConnectionPool] is an array, and an
    array is truthy, so the second block always runs.  The pool calls
    [handler] back later, when [ok()] has already settled the promise. *)
Definition disconnect : M unit :=
  d ← get_driver;
  if connectionIsNotSet d then throw ConnectionIsNotSetError
  else
    match databaseConnection d with
    | Some r =>
        c ← read r;
        emit (ClientEnd (connection c)) ;;
        set_databaseConnection None
    | None => ret tt
    end ;;
    forEach (databaseConnectionPool d) (fun r =>
      c ← read r;
      match releaseCallback c with
      | Some f => emit (Release f)
      | None => ret tt
      end) ;;
    match pool d with
    | None => throw TypeError
    | Some p =>
        emit (PoolEnd p) ;;
        set_pool None ;;
        set_databaseConnectionPool []
    end.

(** [this.databaseConnectionPool.find(c => c.connection === connection)]. *)
Fixpoint find_connection (h : list DatabaseConnection) (l : list ref) (c : handle)
  : option (option ref) :=
  match l with
  | [] => Some None
  | r :: l' =>
      match h !! r with
      | None => None
      | Some o => if decide (connection o = c) then Some (Some r) else find_connection h l' c
      end
  end.

Definition find_tracked (l : list ref) (c : handle) : M (option ref) :=
  fun w => (of_option (find_connection (heap w) l c), w).

Definition retrieveDatabaseConnection (env : Transport) : M ref :=
  d ← get_driver;
  match pool d with
  | Some p =>
      emit (PoolConnect p) ;;
      t ← get_trace;
      let '(err, conn, release) := on_pool_connect env t in
      if Js.truthy err then throw (TransportError err)
      else
        found ← find_tracked (databaseConnectionPool d) conn;
        r ← match found with
             | Some r => ret r
             | None =>
                 r ← alloc (mkDatabaseConnection (length (databaseConnectionPool d))
                               conn false None);
                 set_databaseConnectionPool (databaseConnectionPool d ++ [r]) ;;
                 ret r
             end;
        c ← read r;
        write r (mkDatabaseConnection (id c) (connection c) (isTransactionActive c)
                   (Some release)) ;;
        ret r
  | None =>
      match databaseConnection d with
      | Some r => ret r
      | None => throw ConnectionIsNotSetError
      end
  end.

(** [Array.prototype.indexOf] on references: [-1] when absent. *)
Definition indexOf (l : list ref) (r : ref) : Z :=
  match list_find (eq r) l with
  | Some (i, _) => Z.of_nat i
  | None => (-1)%Z
  end.

(** [Array.prototype.splice(start, 1)]: a negative [start] counts from the
    end of the array. *)
Definition splice1 {A} (start : Z) (l : list A) : list A :=
  let len := Z.of_nat (length l) in
  let actual := if (start <? 0)%Z then Z.max (len + start) 0 else Z.min start len in
  delete (Z.to_nat actual) l.

Definition releaseDatabaseConnection (dbConnection : ref) : M unit :=
  d ← get_driver;
  match pool d with
  | Some _ =>
      c ← read dbConnection;
      match releaseCallback c with
      | Some f =>
          emit (Release f) ;;
          set_databaseConnectionPool
            (splice1 (indexOf (databaseConnectionPool d) dbConnection)
                     (databaseConnectionPool d))
      | None => ret tt
      end
  | None => ret tt
  end.

(** ** QueryExecutor: query *)

Definition query (env : Transport) (dbConnection : ref) (sql : string)
    (parameters : option (list value)) : M value :=
  d ← get_driver;
  if connectionIsNotSet d then throw ConnectionIsNotSetError
  else
    emit (LogQuery sql) ;;
    c ← read dbConnection;
    emit (ClientQuery (connection c) sql parameters) ;;
    t ← get_trace;
    let '(err, rows) := on_client_query env t in
    if Js.truthy err then
      emit (LogFailedQuery sql) ;;
      emit (LogQueryError err) ;;
      throw (TransportError err)
    else ret rows.

(** ** TransactionCoordinator *)

Definition set_isTransactionActive (r : ref) (b : bool) : M unit :=
  c ← read r;
  write r (mkDatabaseConnection (id c) (connection c) b (releaseCallback c)).

Definition beginTransaction (env : Transport) (dbConnection : ref) : M unit :=
  c ← read dbConnection;
  if isTransactionActive c then throw TransactionAlreadyStartedError
  else
    query env dbConnection "START TRANSACTION" None ;;
    set_isTransactionActive dbConnection true.

Definition commitTransaction (env : Transport) (dbConnection : ref) : M unit :=
  c ← read dbConnection;
  if negb (isTransactionActive c) then throw TransactionNotStartedError
  else
    query env dbConnection "COMMIT" None ;;
    set_isTransactionActive dbConnection false.

Definition rollbackTransaction (env : Transport) (dbConnection : ref) : M unit :=
  c ← read dbConnection;
  if negb (isTransactionActive c) then throw TransactionNotStartedError
  else
    query env dbConnection "ROLLBACK" None ;;
    set_isTransactionActive dbConnection false.

(** ** QueryExecutor: update *)

Definition updateQuery (tableName : string) (valuesMap conditions : ObjectLiteral) : string :=
  let updateValues := Js.join ", " (parametrize valuesMap 0) in
  let conditionString :=
    Js.join " AND " (parametrize conditions (length (Js.keys valuesMap))) in
  "UPDATE " +:+ escapeTableName tableName +:+ " SET " +:+ updateValues +:+ " "
  +:+ (if Js.truthy (VStr conditionString) then " WHERE " +:+ conditionString
       else EmptyString).

Definition updateParameters (valuesMap conditions : ObjectLiteral) : list value :=
  let updateParams := map (fun key => Js.get valuesMap key) (Js.keys valuesMap) in
  let conditionParams := map (fun key => Js.get conditions key) (Js.keys conditions) in
  updateParams ++ conditionParams.

Definition update (env : Transport) (dbConnection : ref) (tableName : string)
    (valuesMap conditions : ObjectLiteral) : M unit :=
  d ← get_driver;
  if connectionIsNotSet d then throw ConnectionIsNotSetError
  else
    query env dbConnection (updateQuery tableName valuesMap conditions)
      (Some (updateParameters valuesMap conditions)) ;;
    ret tt.

(** ** Reading numbers *)

Module Digits.

Definition digit_cons (c : ascii) : option (Decimal.uint -> Decimal.uint) :=
  match nat_of_ascii c with
  | 48 => Some Decimal.D0
  | 49 => Some Decimal.D1
  | 50 => Some Decimal.D2
  | 51 => Some Decimal.D3
  | 52 => Some Decimal.D4
  | 53 => Some Decimal.D5
  | 54 => Some Decimal.D6
  | 55 => Some Decimal.D7
  | 56 => Some Decimal.D8
  | 57 => Some Decimal.D9
  | _ => None
  end.

(** The longest run of decimal digits at the head of [s], and the rest. *)
Fixpoint read_digits (s : string) : Decimal.uint * string :=
  match s with
  | EmptyString => (Decimal.Nil, EmptyString)
  | String c s' =>
      match digit_cons c with
      | Some d => let '(u, r) := read_digits s' in (d u, r)
      | None => (Decimal.Nil, s)
      end
  end.

Definition is_nil (u : Decimal.uint) : bool :=
  match u with
  | Decimal.Nil => true
  | _ => false
  end.

(** [r] does not go on with a digit. *)
Definition no_digit_head (r : string) : bool :=
  match r with
  | EmptyString => true
  | String c _ =>
      match digit_cons c with
      | Some _ => false
      | None => true
      end
  end.

(** At least one digit, and no zero before other digits. *)
Definition canonical (u : Decimal.uint) : bool :=
  Decimal.uint_beq (Decimal.unorm u) u.

(** White space as [parseInt] skips it, among the code units 0..255. *)
Definition is_space (c : ascii) : bool :=
  let n := nat_of_ascii c in
  ((9 <=? n) && (n <=? 13)) || (n =? 32) || (n =? 160).

Fixpoint skip_space (s : string) : string :=
  match s with
  | EmptyString => EmptyString
  | String c s' => if is_space c then skip_space s' else s
  end.

End Digits.

(** ** parseInt *)

(** An optional sign at the head of [s], and the rest. *)
Definition split_sign (s : string) : bool * string :=
  match s with
  | String c r =>
      if Ascii.eqb c "-" then (true, r)
      else if Ascii.eqb c "+" then (false, r)
      else (false, s)
  | EmptyString => (false, s)
  end.

(** The prefix [0x] or [0X], which selects radix 16. *)
Definition has_hex_prefix (s : string) : bool :=
  match s with
  | String c r =>
      Ascii.eqb c "0"
      && match r with
         | String x _ => Ascii.eqb x "x" || Ascii.eqb x "X"
         | EmptyString => false
         end
  | EmptyString => false
  end.

(** [parseInt(v)] with no radix: leading white space, a sign, decimal
    digits.  The hexadecimal prefix, and a run of digits that is no safe
    integer, are outside the embedding. *)
Definition parseInt (v : value) : outcome value :=
  match Js.to_string v with
  | None => Beyond
  | Some s =>
      let '(negative, s) := split_sign (Digits.skip_space s) in
      if has_hex_prefix s then Beyond
      else
        let '(u, _) := Digits.read_digits s in
        if Digits.is_nil u then Returns VNaN
        else if Js.safe (Z.of_uint u)
             then Returns (VNum (if negative then - Z.of_uint u else Z.of_uint u)%Z)
             else Beyond
  end.

(** [n + 1] on numbers. *)
Definition add1 (v : value) : value :=
  match v with
  | VNum n => VNum (n + 1)
  | _ => VNaN
  end.

(** ** QueryExecutor: insertIntoClosureTable *)

(** [v[0]] on a truthy value. *)
Definition index0 (v : value) : value :=
  match v with
  | VArr (x :: _) => x
  | VStr (String c _) => VStr (String c EmptyString)
  | VObj o => Js.get o "0"
  | _ => VUndefined
  end.

(** [v["level"]] on a truthy value: only an object literal can have it. *)
Definition get_level (v : value) : value :=
  match v with
  | VObj o => Js.get o "level"
  | _ => VUndefined
  end.

Definition closureInsertQuery (tableName newEntityId parentId : string) (hasLevel : bool)
  : string :=
  if hasLevel then
    "INSERT INTO " +:+ escapeTableName tableName +:+ "(ancestor, descendant, level) "
    +:+ "SELECT ancestor, " +:+ newEntityId +:+ ", level + 1 FROM "
    +:+ escapeTableName tableName +:+ " WHERE descendant = " +:+ parentId +:+ " "
    +:+ "UNION ALL SELECT " +:+ newEntityId +:+ ", " +:+ newEntityId +:+ ", 1"
  else
    "INSERT INTO " +:+ escapeTableName tableName +:+ "(ancestor, descendant) "
    +:+ "SELECT ancestor, " +:+ newEntityId +:+ " FROM "
    +:+ escapeTableName tableName +:+ " WHERE descendant = " +:+ parentId +:+ " "
    +:+ "UNION ALL SELECT " +:+ newEntityId +:+ ", " +:+ newEntityId.

Definition closureLevelQuery (tableName parentId : string) : string :=
  "SELECT MAX(level) as level FROM " +:+ tableName +:+ " WHERE descendant = " +:+ parentId.

(** [results && results[0] && results[0]["level"]]. *)
Definition closureLevel (results : value) : value :=
  if Js.truthy results then
    if Js.truthy (index0 results) then get_level (index0 results)
    else index0 results
  else results.

(** [results && results[0] && results[0]["level"] ?
    parseInt(results[0]["level"]) + 1 : 1]. *)
Definition closureDepth (results : value) : outcome value :=
  if Js.truthy (closureLevel results) then
    obind (parseInt (get_level (index0 results))) (fun n => Returns (add1 n))
  else Returns (VNum 1).

Definition lift {A} (o : outcome A) : M A := fun w => (o, w).

Definition insertIntoClosureTable (env : Transport) (dbConnection : ref)
    (tableName : string) (newEntityId parentId : value) (hasLevel : bool) : M value :=
  newId ← lift (of_option (Js.to_string newEntityId));
  parent ← lift (of_option (Js.to_string parentId));
  query env dbConnection (closureInsertQuery tableName newId parent hasLevel) None ;;
  results ← query env dbConnection (closureLevelQuery tableName parent) None;
  lift (closureDepth results).

(** ** The date library: moment().format and moment(text, format).toDate()

    A [VDate] holds the fields of the local civil time, which is what the
    library reads and writes.  The library is forgiving when it parses: it
    reads texts that are not written as the format says (a month of one
    digit, other separators).  Only the texts that are exactly of the
    format are embedded here, which are the texts the formatter writes; on
    every other text the functions below answer [None], and the driver's
    method [Beyond].  Years above 9999 are outside the embedding too.  The
    functions below read the fields of a text; which [Date] the library
    then builds from the fields depends on the time zone of the host, see
    [toDate]. *)

Module Moment.

Definition is_leap (y : nat) : bool :=
  (y mod 4 =? 0) && (negb (y mod 100 =? 0) || (y mod 400 =? 0)).

Definition days_in_month (y mo : nat) : nat :=
  match mo with
  | 1 | 3 | 5 | 7 | 8 | 10 | 12 => 31
  | 4 | 6 | 9 | 11 => 30
  | 2 => if is_leap y then 29 else 28
  | _ => 0
  end.

Definition valid_day (y mo d : nat) : bool :=
  (y / 100 <? 100) && (1 <=? mo) && (mo <=? 12) && (1 <=? d) && (d <=? days_in_month y mo).

Definition valid_time (h mi s : nat) : bool :=
  (h <? 24) && (mi <? 60) && (s <? 60).

Definition valid (y mo d h mi s ms : nat) : bool :=
  valid_day y mo d && valid_time h mi s && (ms <? 1000).

Definition digit (n : nat) : ascii := ascii_of_nat (48 + n mod 10).

Definition pad2 (n : nat) : string :=
  String (digit (n / 10)) (String (digit n) EmptyString).

Definition pad4 (n : nat) : string :=
  String (digit (n / 1000)) (String (digit (n / 100)) (pad2 n)).

(** The tokens [YYYY-MM-DD] and [HH:mm:ss]. *)
Definition format_day (y mo d : nat) : string :=
  pad4 y +:+ "-" +:+ pad2 mo +:+ "-" +:+ pad2 d.

Definition format_time (h mi s : nat) : string :=
  pad2 h +:+ ":" +:+ pad2 mi +:+ ":" +:+ pad2 s.

Definition digit_value (c : ascii) : option nat :=
  let n := nat_of_ascii c in
  if (48 <=? n) && (n <=? 57) then Some (n - 48) else None.

Definition take2 (s : string) : option (nat * string) :=
  match s with
  | String a (String b r) =>
      x ← digit_value a; y ← digit_value b; Some (10 * x + y, r)
  | _ => None
  end.

Definition take4 (s : string) : option (nat * string) :=
  '(hi, r) ← take2 s; '(lo, r') ← take2 r; Some (100 * hi + lo, r').

Definition take_char (c : ascii) (s : string) : option string :=
  match s with
  | String d r => if Ascii.eqb c d then Some r else None
  | EmptyString => None
  end.

Definition take_day (s : string) : option (nat * nat * nat * string) :=
  '(y, r) ← take4 s; r ← take_char "-" r;
  '(mo, r) ← take2 r; r ← take_char "-" r;
  '(d, r) ← take2 r;
  if valid_day y mo d then Some (y, mo, d, r) else None.

Definition take_time (s : string) : option (nat * nat * nat * string) :=
  '(h, r) ← take2 s; r ← take_char ":" r;
  '(mi, r) ← take2 r; r ← take_char ":" r;
  '(sec, r) ← take2 r;
  if valid_time h mi sec then Some (h, mi, sec, r) else None.

Definition at_end {A} (x : A) (r : string) : option A :=
  match r with
  | EmptyString => Some x
  | _ => None
  end.

(** The fields of a text that is exactly [YYYY-MM-DD], [HH:mm:ss] or
    [YYYY-MM-DD HH:mm:ss], when they name a day of the calendar and a time
    of day. *)
Definition parse_day (s : string) : option (nat * nat * nat) :=
  '(y, mo, d, r) ← take_day s; at_end (y, mo, d) r.

Definition parse_time (s : string) : option (nat * nat * nat) :=
  '(h, mi, sec, r) ← take_time s; at_end (h, mi, sec) r.

Definition parse_datetime (s : string) : option (nat * nat * nat * (nat * nat * nat)) :=
  '(y, mo, d, r) ← take_day s; r ← take_char " " r;
  '(h, mi, sec, r) ← take_time r; at_end (y, mo, d, (h, mi, sec)) r.

End Moment.

(** ** The runtime's JSON object

    [JSON.stringify(v)] with no replacer and no indentation, and
    [JSON.parse(text)] with no reviver.  Outside the embedding: a [Date]
    (its text is in universal time), numbers with a fraction or an
    exponent, and escapes of code units above 255. *)

Module Json.

Definition hex_digit (n : nat) : ascii :=
  if n <? 10 then ascii_of_nat (48 + n) else ascii_of_nat (87 + n).

Definition hex_value (c : ascii) : option nat :=
  let n := nat_of_ascii c in
  if (48 <=? n) && (n <=? 57) then Some (n - 48)
  else if (97 <=? n) && (n <=? 102) then Some (n - 87)
  else if (65 <=? n) && (n <=? 70) then Some (n - 55)
  else None.

(** One code unit inside a quoted string. *)
Definition escape_char (c : ascii) : string :=
  let n := nat_of_ascii c in
  if n =? 8 then "\b"
  else if n =? 9 then "\t"
  else if n =? 10 then "\n"
  else if n =? 12 then "\f"
  else if n =? 13 then "\r"
  else if n =? 34 then "\" +:+ Js.dquote
  else if n =? 92 then "\\"
  else if n <? 32 then
    "\u00" +:+ String (hex_digit (n / 16)) (String (hex_digit (n mod 16)) EmptyString)
  else String c EmptyString.

Fixpoint escape (s : string) : string :=
  match s with
  | EmptyString => EmptyString
  | String c s' => escape_char c +:+ escape s'
  end.

Definition quote (s : string) : string := Js.dquote +:+ escape s +:+ Js.dquote.

(** The texts of the elements of an array ([undefined] reads [null]) and
    of the members of an object (a member that is [undefined] is left
    out), given the text of a value. *)
Definition elements_text (print : value -> option (option string))
  : list value -> option (list string) :=
  fix elements (l : list value) : option (list string) :=
    match l with
    | [] => Some []
    | x :: r =>
        match print x, elements r with
        | Some (Some t), Some ts => Some (t :: ts)
        | Some None, Some ts => Some ("null" :: ts)
        | _, _ => None
        end
    end.

Definition members_text (print : value -> option (option string))
  : list (string * value) -> option (list string) :=
  fix members (o : list (string * value)) : option (list string) :=
    match o with
    | [] => Some []
    | (k, x) :: r =>
        match print x, members r with
        | Some (Some t), Some ts => Some ((quote k +:+ ":" +:+ t) :: ts)
        | Some None, Some ts => Some ts
        | _, _ => None
        end
    end.

(** The text of a value: [Some None] is [undefined] (a value with no text),
    [None] is outside the embedding. *)
Fixpoint print (v : value) : option (option string) :=
  match v with
  | VUndefined => Some None
  | VNull => Some (Some "null")
  | VBool true => Some (Some "true")
  | VBool false => Some (Some "false")
  | VNum n => if Js.safe n then Some (Some (Js.Z_to_string n)) else None
  | VNaN => Some (Some "null")
  | VStr s => Some (Some (quote s))
  | VDate _ _ _ _ _ _ _ => None
  | VArr l =>
      match elements_text print l with
      | Some ts => Some (Some ("[" +:+ Js.join "," ts +:+ "]"))
      | None => None
      end
  | VObj o =>
      match members_text print o with
      | Some ts => Some (Some ("{" +:+ Js.join "," ts +:+ "}"))
      | None => None
      end
  end.

Definition stringify (v : value) : outcome value :=
  match print v with
  | None => Beyond
  | Some None => Returns VUndefined
  | Some (Some t) => Returns (VStr t)
  end.

(** White space of the JSON grammar. *)
Definition is_ws (c : ascii) : bool :=
  let n := nat_of_ascii c in
  (n =? 32) || (n =? 9) || (n =? 10) || (n =? 13).

Fixpoint skip_ws (s : string) : string :=
  match s with
  | EmptyString => EmptyString
  | String c s' => if is_ws c then skip_ws s' else s
  end.

Definition expect (lit : string) (v : value) (s : string) : outcome (value * string) :=
  match Rewriter.strip_prefix lit s with
  | Some r => Returns (v, r)
  | None => Throws SyntaxError
  end.

(** The characters of a string after its opening quote, up to and
    including the closing quote. *)
Fixpoint parse_chars (s : string) : outcome (string * string) :=
  match s with
  | EmptyString => Throws SyntaxError
  | String c r =>
      if Ascii.eqb c "034" then Returns (EmptyString, r)
      else if Ascii.eqb c "\" then
        match r with
        | EmptyString => Throws SyntaxError
        | String e r' =>
            let continue (c : ascii) (rest : outcome (string * string)) :=
              obind rest (fun '(t, r) => Returns (String c t, r)) in
            if Ascii.eqb e "034" then continue "034"%char (parse_chars r')
            else if Ascii.eqb e "\" then continue "\"%char (parse_chars r')
            else if Ascii.eqb e "/" then continue "/"%char (parse_chars r')
            else if Ascii.eqb e "b" then continue "008"%char (parse_chars r')
            else if Ascii.eqb e "f" then continue "012"%char (parse_chars r')
            else if Ascii.eqb e "n" then continue "010"%char (parse_chars r')
            else if Ascii.eqb e "r" then continue "013"%char (parse_chars r')
            else if Ascii.eqb e "t" then continue "009"%char (parse_chars r')
            else if Ascii.eqb e "u" then
              match r' with
              | String h1 (String h2 (String h3 (String h4 r''))) =>
                  match hex_value h1, hex_value h2, hex_value h3, hex_value h4 with
                  | Some a, Some b, Some c, Some d =>
                      if (a =? 0) && (b =? 0)
                      then continue (ascii_of_nat (16 * c + d)) (parse_chars r'')
                      else Beyond
                  | _, _, _, _ => Throws SyntaxError
                  end
              | _ => Throws SyntaxError
              end
            else Throws SyntaxError
        end
      else if nat_of_ascii c <? 32 then Throws SyntaxError
      else obind (parse_chars r) (fun '(t, r) => Returns (String c t, r))
  end.

(** A number: an optional minus sign and an integer part; a fraction or an
    exponent after it, and an integer that is not safe, are outside the
    embedding. *)
Definition parse_number (s : string) : outcome (value * string) :=
  let '(negative, s) :=
    match s with
    | String c r => if Ascii.eqb c "-" then (true, r) else (false, s)
    | EmptyString => (false, s)
    end in
  let '(u, r) := Digits.read_digits s in
  if negb (Digits.canonical u) then Throws SyntaxError
  else if negb (Js.safe (Z.of_uint u)) then Beyond
  else
    match r with
    | String c _ =>
        if Ascii.eqb c "." || Ascii.eqb c "e" || Ascii.eqb c "E" then Beyond
        else Returns (VNum (if negative then - Z.of_uint u else Z.of_uint u)%Z, r)
    | EmptyString =>
        Returns (VNum (if negative then - Z.of_uint u else Z.of_uint u)%Z, r)
    end.

(** [o[k] = v] on an object under construction: a property that exists
    keeps its place. *)
Fixpoint define (o : ObjectLiteral) (k : string) (v : value) : ObjectLiteral :=
  match o with
  | [] => [(k, v)]
  | (k', v') :: o' =>
      if String.eqb k' k then (k', v) :: o' else (k', v') :: define o' k v
  end.

Definition from_entries (l : list (string * value)) : ObjectLiteral :=
  fold_left (fun o '(k, v) => define o k v) l [].

(** A name that is a run of digits may be an integer index, which an
    object enumerates before its other properties. *)
Definition all_digits (k : string) : bool :=
  negb (String.eqb k EmptyString)
  && Js.all_chars (fun c => match Digits.digit_cons c with Some _ => true | None => false end) k.

Fixpoint parse_value (fuel : nat) (s : string) : outcome (value * string) :=
  match fuel with
  | O => Beyond
  | S fuel =>
      match skip_ws s with
      | EmptyString => Throws SyntaxError
      | String c r =>
          if Ascii.eqb c "n" then expect "ull" VNull r
          else if Ascii.eqb c "t" then expect "rue" (VBool true) r
          else if Ascii.eqb c "f" then expect "alse" (VBool false) r
          else if Ascii.eqb c "034" then
            obind (parse_chars r) (fun '(t, r) => Returns (VStr t, r))
          else if Ascii.eqb c "[" then
            match skip_ws r with
            | String d r' =>
                if Ascii.eqb d "]" then Returns (VArr [], r')
                else obind (parse_elements fuel (String d r'))
                       (fun '(l, r) => Returns (VArr l, r))
            | EmptyString => Throws SyntaxError
            end
          else if Ascii.eqb c "{" then
            match skip_ws r with
            | String d r' =>
                if Ascii.eqb d "}" then Returns (VObj [], r')
                else obind (parse_members fuel (String d r'))
                       (fun '(l, r) =>
                          if existsb all_digits (Js.keys l) then Beyond
                          else Returns (VObj (from_entries l), r))
            | EmptyString => Throws SyntaxError
            end
          else parse_number (String c r)
      end
  end
with parse_elements (fuel : nat) (s : string) : outcome (list value * string) :=
  match fuel with
  | O => Beyond
  | S fuel =>
      obind (parse_value fuel s) (fun '(v, r) =>
        match skip_ws r with
        | String c r' =>
            if Ascii.eqb c "," then
              obind (parse_elements fuel r') (fun '(l, r) => Returns (v :: l, r))
            else if Ascii.eqb c "]" then Returns ([v], r')
            else Throws SyntaxError
        | EmptyString => Throws SyntaxError
        end)
  end
with parse_members (fuel : nat) (s : string) : outcome (list (string * value) * string) :=
  match fuel with
  | O => Beyond
  | S fuel =>
      match skip_ws s with
      | String q r =>
          if Ascii.eqb q "034" then
            obind (parse_chars r) (fun '(k, r) =>
              match skip_ws r with
              | String c r' =>
                  if Ascii.eqb c ":" then
                    obind (parse_value fuel r') (fun '(v, r) =>
                      match skip_ws r with
                      | String c r' =>
                          if Ascii.eqb c "," then
                            obind (parse_members fuel r')
                              (fun '(l, r) => Returns ((k, v) :: l, r))
                          else if Ascii.eqb c "}" then Returns ([(k, v)], r')
                          else Throws SyntaxError
                      | EmptyString => Throws SyntaxError
                      end)
                  else Throws SyntaxError
              | EmptyString => Throws SyntaxError
              end)
          else Throws SyntaxError
      | EmptyString => Throws SyntaxError
      end
  end.

(** The values that JSON holds as they are: no [undefined], no [NaN], no
    [Date]; safe integers; objects whose names are pairwise distinct and
    none of which is a run of digits. *)
Fixpoint plain (v : value) : bool :=
  match v with
  | VNull | VBool _ | VStr _ => true
  | VNum n => Js.safe n
  | VUndefined | VNaN | VDate _ _ _ _ _ _ _ => false
  | VArr l => forallb plain l
  | VObj o =>
      forallb (fun kv => plain (snd kv)) o
      && bool_decide (NoDup (Js.keys o))
      && negb (existsb all_digits (Js.keys o))
  end.

(** What may follow a value inside a text: nothing, a comma, or a closing
    bracket or brace. *)
Definition closes (r : string) : bool :=
  match r with
  | EmptyString => true
  | String c _ => Ascii.eqb c "," || Ascii.eqb c "]" || Ascii.eqb c "}"
  end.

(** The characters a value's text may start with. *)
Definition starts_value (c : ascii) : bool :=
  existsb (Ascii.eqb c) ["n"; "t"; "f"; "034"; "["; "{"; "-"]%char
  || match Digits.digit_cons c with Some _ => true | None => false end.

(** One character of text is consumed before every recursive call, so the
    length of the text bounds the depth of the recursion. *)
Definition parse (s : string) : outcome value :=
  obind (parse_value (S (String.length s)) s) (fun '(v, r) =>
    match skip_ws r with
    | EmptyString => Returns v
    | _ => Throws SyntaxError
    end).

End Json.

(** ** TypeMarshaller *)

(** Modelled from the spec: the tags of [ColumnTypes] (metadata/types/
    ColumnTypes.ts is not among the sources): boolean, date, time,
    datetime, json, simple-array, and every other type. *)
Inductive ColumnType : Type :=
| BOOLEAN
| DATE
| TIME
| DATETIME
| JSON
| SIMPLE_ARRAY
| OTHER (name : string).

Record ColumnMetadata : Type := mkColumnMetadata { type : ColumnType }.

(** The host of the driver.  Its clock shows a day, which the date library
    gives to a time parsed without a date.  Its time zone decides which
    [Date] the library builds from civil fields:
    [local_time y mo d h mi s] is the local civil time shown by
    [new Date(y, mo - 1, d, h, mi, s)], that is the fields themselves when
    this civil time exists in the zone, and a later civil time when it
    falls into a gap of the zone (the hour that is skipped when
    daylight-saving time begins). *)
Record Clock : Type := mkClock {
  this_year : nat;
  this_month : nat;
  this_day : nat;
  local_time : nat -> nat -> nat -> nat -> nat -> nat -> nat * nat * nat * (nat * nat * nat)
}.

(** The [Date] built from the fields of a parsed text:
    [moment(text, format).toDate()] once the fields are read. *)
Definition toDate (clock : Clock) (y mo d h mi s : nat) : value :=
  let '(y', mo', d', (h', mi', s')) := local_time clock y mo d h mi s in
  VDate y' mo' d' h' mi' s' 0.

(** A civil time that exists in the zone of the host. *)
Definition exists_locally (clock : Clock) (y mo d h mi s : nat) : Prop :=
  local_time clock y mo d h mi s = (y, mo, d, (h, mi, s)).

(** A string with no comma in it. *)
Definition comma_free (t : string) : bool :=
  Js.all_chars (fun c => negb (Ascii.eqb c ",")) t.

Fixpoint map_String (l : list value) : option (list string) :=
  match l with
  | [] => Some []
  | i :: l' => s ← Js.to_string i; t ← map_String l'; Some (s :: t)
  end.

Definition preparePersistentValue (v : value) (column : ColumnMetadata) : outcome value :=
  match type column with
  | BOOLEAN =>
      match v with
      | VBool true => Returns (VNum 1)
      | _ => Returns (VNum 0)
      end
  | DATE =>
      match v with
      | VDate y mo d h mi s ms =>
          if Moment.valid y mo d h mi s ms then Returns (VStr (Moment.format_day y mo d))
          else Beyond
      | _ => Beyond
      end
  | TIME =>
      match v with
      | VDate y mo d h mi s ms =>
          if Moment.valid y mo d h mi s ms then Returns (VStr (Moment.format_time h mi s))
          else Beyond
      | _ => Beyond
      end
  | DATETIME =>
      match v with
      | VDate y mo d h mi s ms =>
          if Moment.valid y mo d h mi s ms
          then Returns (VStr (Moment.format_day y mo d +:+ " " +:+ Moment.format_time h mi s))
          else Beyond
      | _ => Beyond
      end
  | JSON => Json.stringify v
  | SIMPLE_ARRAY =>
      match v with
      | VArr l => of_option (VStr ∘ Js.join "," <$> map_String l)
      | _ => Throws TypeError
      end
  | OTHER _ => Returns v
  end.

Definition prepareHydratedValue (clock : Clock) (v : value) (column : ColumnMetadata)
  : outcome value :=
  match type column with
  | BOOLEAN => Returns (VBool (Js.truthy v))
  | DATE =>
      match v with
      | VDate _ _ _ _ _ _ _ => Returns v
      | VStr t =>
          of_option ('(y, mo, d) ← Moment.parse_day t; Some (toDate clock y mo d 0 0 0))
      | _ => Beyond
      end
  | TIME =>
      match v with
      | VStr t =>
          of_option ('(h, mi, s) ← Moment.parse_time t;
                     Some (toDate clock (this_year clock) (this_month clock)
                             (this_day clock) h mi s))
      | _ => Beyond
      end
  | DATETIME =>
      match v with
      | VDate _ _ _ _ _ _ _ => Returns v
      | VStr t =>
          of_option ('(y, mo, d, (h, mi, s)) ← Moment.parse_datetime t;
                     Some (toDate clock y mo d h mi s))
      | _ => Beyond
      end
  | JSON => obind (of_option (Js.to_string v)) Json.parse
  | SIMPLE_ARRAY =>
      match v with
      | VStr t => Returns (VArr (VStr <$> Js.split "," t))
      | _ => Throws TypeError
      end
  | OTHER _ => Returns v
  end.

(** A value persisted and hydrated again, on a column of type [t]. *)
Definition round_trip (clock : Clock) (t : ColumnType) (v : value) : outcome value :=
  obind (preparePersistentValue v (mkColumnMetadata t))
    (fun x => prepareHydratedValue clock x (mkColumnMetadata t)).

(** The third of November 2026, in a zone where every civil time exists. *)
Definition demo_clock : Clock :=
  mkClock 2026 11 3 (fun y mo d h mi s => (y, mo, d, (h, mi, s))).

(** The same day in a zone where daylight-saving time began at midnight of
    the fourth of November 2018: the first hour of that day does not
    exist, and a [Date] built in it shows the hour after. *)
Definition gap_clock : Clock :=
  mkClock 2026 11 3
    (fun y mo d h mi s =>
       if (y =? 2018) && (mo =? 11) && (d =? 4) && (h =? 0)
       then (y, mo, d, (1, mi, s))
       else (y, mo, d, (h, mi, s))).

(** ** QueryExecutor: insert, delete and clearDatabase *)

Module QueryExecutor.

(** The property names every object answers to without having them, those
    of [Object.prototype]: what is read under one of them is no value of
    the embedding. *)
Definition inherited (k : string) : bool :=
  existsb (String.eqb k)
    ["constructor"; "hasOwnProperty"; "isPrototypeOf"; "propertyIsEnumerable";
     "toLocaleString"; "toString"; "valueOf"; "__proto__"; "__defineGetter__";
     "__defineSetter__"; "__lookupGetter__"; "__lookupSetter__"].

(** [result[0]]: reading a property of [undefined] or of [null] throws. *)
Definition first_row (result : value) : outcome value :=
  match result with
  | VUndefined | VNull => Throws TypeError
  | _ => Returns (index0 result)
  end.

(** [row[k]]: an own property of an object literal, [undefined] when the
    object has no such property; the properties of strings, numbers, arrays
    and dates come from their prototypes and are not embedded. *)
Definition member (row : value) (k : string) : outcome value :=
  match row with
  | VUndefined | VNull => Throws TypeError
  | VObj o =>
      if existsb (String.eqb k) (Js.keys o) then Returns (Js.get o k)
      else if inherited k then Beyond
      else Returns VUndefined
  | _ => Beyond
  end.

(** [keys.map(key => this.escapeColumnName(key)).join(", ")]. *)
Definition insertColumns (keyValues : ObjectLiteral) : string :=
  Js.join ", " (map escapeColumnName (Js.keys keyValues)).

(** [keys.map((key, index) => "$" + (index + 1)).join(",")]. *)
Definition insertValues (keyValues : ObjectLiteral) : string :=
  Js.join "," (imap (fun index _ => "$" +:+ Js.nat_to_string (index + 1))
                 (Js.keys keyValues)).

(** An optional argument that was given and is a truthy string. *)
Definition given (idColumnName : option string) : bool :=
  match idColumnName with
  | Some name => Js.truthy (VStr name)
  | None => false
  end.

Definition insertQuery (tableName : string) (keyValues : ObjectLiteral)
    (idColumnName : option string) : string :=
  "INSERT INTO " +:+ escapeTableName tableName +:+ "(" +:+ insertColumns keyValues
  +:+ ") VALUES (" +:+ insertValues keyValues +:+ ") "
  +:+ match idColumnName with
      | Some name =>
          if Js.truthy (VStr name) then " RETURNING " +:+ escapeColumnName name
          else EmptyString
      | None => EmptyString
      end.

Definition insertParameters (keyValues : ObjectLiteral) : list value :=
  map (fun key => Js.get keyValues key) (Js.keys keyValues).

Definition insert (env : Transport) (dbConnection : ref) (tableName : string)
    (keyValues : ObjectLiteral) (idColumnName : option string) : M value :=
  d ← get_driver;
  if connectionIsNotSet d then throw ConnectionIsNotSetError
  else
    result ← query env dbConnection (insertQuery tableName keyValues idColumnName)
                (Some (insertParameters keyValues));
    match idColumnName with
    | Some name =>
        if Js.truthy (VStr name) then
          row ← lift (first_row result);
          lift (member row name)
        else ret result
    | None => ret result
    end.

(** The table name goes between two double quotes written in the template
    itself. *)
Definition deleteQuery (tableName : string) (conditions : ObjectLiteral) : string :=
  "DELETE FROM " +:+ Js.dquote +:+ tableName +:+ Js.dquote +:+ " WHERE "
  +:+ Js.join " AND " (parametrize conditions 0).

Definition deleteParameters (conditions : ObjectLiteral) : list value :=
  map (fun key => Js.get conditions key) (Js.keys conditions).

Definition delete (env : Transport) (dbConnection : ref) (tableName : string)
    (conditions : ObjectLiteral) : M unit :=
  d ← get_driver;
  if connectionIsNotSet d then throw ConnectionIsNotSetError
  else
    query env dbConnection (deleteQuery tableName conditions)
      (Some (deleteParameters conditions)) ;;
    ret tt.

(** [clearDatabase] starts one query per row and awaits them together, so
    the two halves of [query] are told apart: the call, which runs at once
    (the guard, the log entry, [connection.query]) and is named by the trace
    it leaves; and the callback, which the client runs later. *)
Definition dispatch (dbConnection : ref) (sql : string) (parameters : option (list value))
  : M (list Event) :=
  d ← get_driver;
  if connectionIsNotSet d then throw ConnectionIsNotSetError
  else
    emit (LogQuery sql) ;;
    c ← read dbConnection;
    emit (ClientQuery (connection c) sql parameters) ;;
    get_trace.

(** The callback of the call [call]: how the promise of that query
    settles. *)
Definition answer (env : Transport) (sql : string) (call : list Event) : M (outcome value) :=
  let '(err, rows) := on_client_query env call in
  if Js.truthy err then
    emit (LogFailedQuery sql) ;;
    emit (LogQueryError err) ;;
    ret (Throws (TransportError err))
  else ret (Returns rows).

Definition selectDropsQuery : string :=
  "SELECT 'DROP TABLE IF EXISTS " +:+ Js.dquote +:+ "' || tablename || '" +:+ Js.dquote
  +:+ " CASCADE;' as query FROM pg_tables WHERE schemaname = 'public'".

(** [q["query"]], the text of a drop statement; a row that is no object
    holding a string there is outside the embedding. *)
Definition dropQuery (q : value) : outcome string :=
  match q with
  | VObj o =>
      match Js.get o "query" with
      | VStr sql => Returns sql
      | _ => Beyond
      end
  | _ => Beyond
  end.

(** [dropQueries.map(q => this.query(dbConnection, q["query"]))]: every call
    is made before any callback runs. *)
Fixpoint dispatch_all (dbConnection : ref) (dropQueries : list value)
  : M (list (string * list Event)) :=
  match dropQueries with
  | [] => ret []
  | q :: rest =>
      sql ← lift (dropQuery q);
      call ← dispatch dbConnection sql None;
      calls ← dispatch_all dbConnection rest;
      ret ((sql, call) :: calls)
  end.

(** The callbacks, in the order of the calls: a client answers the queries
    it was handed one after the other. *)
Fixpoint answer_all (env : Transport) (calls : list (string * list Event))
  : M (list (outcome value)) :=
  match calls with
  | [] => ret []
  | (sql, call) :: rest =>
      o ← answer env sql call;
      os ← answer_all env rest;
      ret (o :: os)
  end.

(** [Promise.all]: the values of the promises, or the reason of the first
    one that was rejected. *)
Fixpoint promise_all (settled : list (outcome value)) : outcome (list value) :=
  match settled with
  | [] => Returns []
  | Returns v :: rest => obind (promise_all rest) (fun vs => Returns (v :: vs))
  | Throws e :: _ => Throws e
  | Beyond :: _ => Beyond
  end.

(** A value that is no array has no [map] to call.  The callbacks of the
    drop statements are all run here, those that come after the first
    failure too. *)
Definition clearDatabase (env : Transport) (dbConnection : ref) : M unit :=
  d ← get_driver;
  if connectionIsNotSet d then throw ConnectionIsNotSetError
  else
    dropQueries ← query env dbConnection selectDropsQuery None;
    match dropQueries with
    | VArr rows =>
        calls ← dispatch_all dbConnection rows;
        settled ← answer_all env calls;
        lift (promise_all settled) ;;
        ret tt
    | _ => throw TypeError
    end.

End QueryExecutor.

(** ** Runs of the driver *)

(** The driver as its constructor leaves it. *)
Definition initial (usePool : option bool) : World :=
  mkWorld [] (mkPostgresDriver usePool None None []) [].

(** The states a pooled driver reaches: [connect], then any sequence of
    retrievals and of releases of objects the caller holds. *)
Inductive pooled_run (env : Transport) : World -> Prop :=
| run_connect (usePool : option bool) :
    usePool <> Some false ->
    pooled_run env (snd (connect env (initial usePool)))
| run_retrieve (w : World) :
    pooled_run env w ->
    pooled_run env (snd (retrieveDatabaseConnection env w))
| run_release (w : World) (r : ref) :
    pooled_run env w ->
    is_Some (heap w !! r) ->
    pooled_run env (snd (releaseDatabaseConnection r w)).

(** The same with no release. *)
Inductive retrieve_run (env : Transport) : World -> Prop :=
| rrun_connect (usePool : option bool) :
    usePool <> Some false ->
    retrieve_run env (snd (connect env (initial usePool)))
| rrun_retrieve (w : World) :
    retrieve_run env w ->
    retrieve_run env (snd (retrieveDatabaseConnection env w)).

(** The records of the tracked collection, their ids and their handles. *)
Definition tracked (w : World) : list DatabaseConnection :=
  omap (fun r => heap w !! r) (databaseConnectionPool (driver w)).

Definition tracked_ids (w : World) : list nat := id <$> tracked w.

Definition tracked_handles (w : World) : list handle := connection <$> tracked w.

(** A pool that hands out client 100 with release function 7, then client
    200 with release function 8, then client 100 again with release
    function 9; every query succeeds with no rows. *)
Definition pool_connects (t : list Event) : nat :=
  length (List.filter (fun e => match e with PoolConnect _ => true | _ => false end) t).

Definition demo_env : Transport :=
  mkTransport
    (fun _ => VNull)
    (fun t => match pool_connects t with
              | 1 => (VNull, 100, 7)
              | 2 => (VNull, 200, 8)
              | _ => (VNull, 100, 9)
              end)
    (fun _ => (VNull, VArr [])).

(** A pooled driver after two retrievals: it tracks the objects 0 and 1. *)
Definition demo_pooled : World :=
  snd (retrieveDatabaseConnection demo_env
         (snd (retrieveDatabaseConnection demo_env
                 (snd (connect demo_env (initial None)))))).

(** A driver connected with [usePool: false]. *)
Definition demo_single : World := snd (connect demo_env (initial (Some false))).

(** A client that answers every query with one row whose level is 2. *)
Definition closure_env : Transport :=
  mkTransport (fun _ => VNull) (fun _ => (VNull, 100, 7))
    (fun _ => (VNull, VArr [VObj [("level", VNum 2)]])).

(** The pooled driver after the caller released object 0. *)
Definition demo_released : World := snd (releaseDatabaseConnection 0 demo_pooled).

(** The release functions of the records in [l], in order. *)
Definition callbacks_of (h : list DatabaseConnection) (l : list ref) : list callback :=
  omap (fun r => h !! r ≫= releaseCallback) l.

(** The three operations of the transaction coordinator and the statement
    each of them issues. *)
Inductive TxOp : Type := Begin | Commit | Rollback.

Definition run_tx (env : Transport) (op : TxOp) : ref -> M unit :=
  match op with
  | Begin => beginTransaction env
  | Commit => commitTransaction env
  | Rollback => rollbackTransaction env
  end.

Definition statement (op : TxOp) : string :=
  match op with
  | Begin => "START TRANSACTION"
  | Commit => "COMMIT"
  | Rollback => "ROLLBACK"
  end.

(** The trace once [query] has handed a statement to the client, and what
    the client then calls back with. *)
Definition issued (w : World) (c : DatabaseConnection) (sql : string)
    (parameters : option (list value)) : list Event :=
  trace w ++ [LogQuery sql; ClientQuery (connection c) sql parameters].

Definition reply (env : Transport) (w : World) (c : DatabaseConnection) (sql : string)
    (parameters : option (list value)) : value * value :=
  on_client_query env (issued w c sql parameters).

(** The guard of each operation: the state in which it refuses to run, and
    the error it then throws. *)
Definition refused (op : TxOp) (c : DatabaseConnection) : bool :=
  match op with
  | Begin => isTransactionActive c
  | Commit | Rollback => negb (isTransactionActive c)
  end.

Definition refusal (op : TxOp) : error :=
  match op with
  | Begin => TransactionAlreadyStartedError
  | Commit | Rollback => TransactionNotStartedError
  end.

(** The flag an operation leaves when it succeeds. *)
Definition target (op : TxOp) : bool :=
  match op with
  | Begin => true
  | Commit | Rollback => false
  end.

(** The references of the collection name objects, and the handles of the
    tracked records are pairwise distinct. *)
Definition pool_inv (w : World) : Prop :=
  Forall (fun r => r < length (heap w)) (databaseConnectionPool (driver w))
  /\ NoDup (tracked_handles w).

(** The i-th tracked record has id i. *)
Definition ids_inv (w : World) : Prop :=
  Forall (fun r => r < length (heap w)) (databaseConnectionPool (driver w))
  /\ tracked_ids w = seq 0 (length (databaseConnectionPool (driver w))).

(** A value whose text reads back as the value, whatever closes it. *)
Definition reads_back (v : value) : Prop :=
  exists t,
    Json.print v = Some (Some t)
    /\ (exists c t', t = String c t' /\ Json.starts_value c = true)
    /\ forall fuel r, Json.closes r = true -> String.length t <= fuel ->
         Json.parse_value fuel (t +:+ r) = Returns (v, r).

(** ** Further runs, predicates and examples *)

(** Every tracked reference names an object that carries a release
    function, and the driver is pooled. *)
Definition releasable (w : World) : Prop :=
  (exists p, pool (driver w) = Some p)
  /\ databaseConnection (driver w) = None
  /\ Forall (fun r => exists c f, heap w !! r = Some c /\ releaseCallback c = Some f)
       (databaseConnectionPool (driver w)).

(** The pooled driver after a transaction was begun on object 0. *)
Definition demo_active : World := snd (beginTransaction demo_env 0 demo_pooled).

(** The calls [clearDatabase] makes for the statements [qs] on the client
    [conn], from the trace [t] on: each statement with the trace its call
    leaves. *)
Fixpoint drop_calls (t : list Event) (conn : handle) (qs : list string)
  : list (string * list Event) :=
  match qs with
  | [] => []
  | sql :: rest =>
      let call := t ++ [LogQuery sql; ClientQuery conn sql None] in
      (sql, call) :: drop_calls call conn rest
  end.

(** How the promise of a call settles, and what its callback logs. *)
Definition settled (env : Transport) (call : string * list Event) : outcome value :=
  if Js.truthy (fst (on_client_query env (snd call)))
  then Throws (TransportError (fst (on_client_query env (snd call))))
  else Returns (snd (on_client_query env (snd call))).

Definition failure_log (env : Transport) (call : string * list Event) : list Event :=
  if Js.truthy (fst (on_client_query env (snd call)))
  then [LogFailedQuery (fst call); LogQueryError (fst (on_client_query env (snd call)))]
  else [].

(** A catalog of two tables; the client refuses the first drop statement
    and accepts the second. *)
Definition drops_env : Transport :=
  mkTransport (fun _ => VNull) (fun _ => (VNull, 100, 7))
    (fun t => match last t with
              | Some (ClientQuery _ "DROP a" _) => (VStr "locked", VUndefined)
              | Some (ClientQuery _ "DROP b" _) => (VNull, VArr [])
              | _ => (VNull, VArr [VObj [("query", VStr "DROP a")];
                                   VObj [("query", VStr "DROP b")]])
              end).

(** [v === true]. *)
Definition is_true (v : value) : bool :=
  match v with
  | VBool true => true
  | _ => false
  end.

(** A stored value hydrated and persisted again, on a column of type [t]. *)
Definition read_back (clock : Clock) (t : ColumnType) (x : value) : outcome value :=
  obind (prepareHydratedValue clock x (mkColumnMetadata t))
    (fun v => preparePersistentValue v (mkColumnMetadata t)).

(** A text with no colon in it. *)
Definition colon_free (s : string) : bool :=
  Js.all_chars (fun c => negb (Ascii.eqb c ":")) s.

(** A value that is no array. *)
Definition scalar (v : value) : bool :=
  match v with
  | VArr _ => false
  | _ => true
  end.

(** ** The trace of a driver *)

(** Every statement handed to a client was logged just before. *)
Definition logged (t : list Event) : Prop :=
  forall i c sql ps, t !! i = Some (ClientQuery c sql ps) ->
    exists j, i = S j /\ t !! j = Some (LogQuery sql).

(** A computation that keeps the trace logged, whatever its outcome. *)
Definition keeps_logged {A} (m : M A) : Prop :=
  forall w, logged (trace w) -> logged (trace (snd (m w))).

Definition is_statement (e : Event) : bool :=
  match e with
  | ClientQuery _ _ _ => true
  | _ => false
  end.

(** The operations of the driver, with their arguments. *)
Inductive Operation : Type :=
| OpConnect
| OpDisconnect
| OpRetrieve
| OpRelease (dbConnection : ref)
| OpClearDatabase (dbConnection : ref)
| OpTransaction (op : TxOp) (dbConnection : ref)
| OpQuery (dbConnection : ref) (sql : string) (parameters : option (list value))
| OpInsert (dbConnection : ref) (tableName : string) (keyValues : ObjectLiteral)
    (idColumnName : option string)
| OpUpdate (dbConnection : ref) (tableName : string) (valuesMap conditions : ObjectLiteral)
| OpDelete (dbConnection : ref) (tableName : string) (conditions : ObjectLiteral)
| OpInsertIntoClosureTable (dbConnection : ref) (tableName : string)
    (newEntityId parentId : value) (hasLevel : bool).

(** The world an operation leaves, whatever its outcome. *)
Definition perform (env : Transport) (w : World) (o : Operation) : World :=
  match o with
  | OpConnect => snd (connect env w)
  | OpDisconnect => snd (disconnect w)
  | OpRetrieve => snd (retrieveDatabaseConnection env w)
  | OpRelease r => snd (releaseDatabaseConnection r w)
  | OpClearDatabase r => snd (QueryExecutor.clearDatabase env r w)
  | OpTransaction op r => snd (run_tx env op r w)
  | OpQuery r sql ps => snd (query env r sql ps w)
  | OpInsert r t kv idc => snd (QueryExecutor.insert env r t kv idc w)
  | OpUpdate r t vs cs => snd (update env r t vs cs w)
  | OpDelete r t cs => snd (QueryExecutor.delete env r t cs w)
  | OpInsertIntoClosureTable r t a b l => snd (insertIntoClosureTable env r t a b l w)
  end.

Definition perform_all (env : Transport) (os : list Operation) (w : World) : World :=
  fold_left (perform env) os w.

(** ** Evaluation of the monad *)

Ltac unfold_M :=
  repeat (progress unfold mbind, M_bind, mret, M_ret, bind, ret, throw, beyond, lift,
    get_driver, put_driver, get_trace, emit, read, write, alloc, fresh, find_tracked,
    set_databaseConnection, set_pool, set_databaseConnectionPool,
    set_isTransactionActive in * ).

(* ===================================================================== *)
(** * Part II: properties                                                 *)
(* ===================================================================== *)

(** ** Lists: indexOf and splice *)

Lemma indexOf_first (l1 l2 : list ref) (r : ref) :
  r ∉ l1 -> indexOf (l1 ++ r :: l2) r = Z.of_nat (length l1).
Proof.
  intros Hnot. unfold indexOf.
  assert (list_find (eq r) (l1 ++ r :: l2) = Some (length l1, r)) as ->; [|done].
  apply list_find_Some. split_and!.
  - by rewrite list_lookup_middle.
  - done.
  - intros j y Hj Hlt ->. apply Hnot.
    rewrite lookup_app_l in Hj by done. by eapply list_elem_of_lookup_2.
Qed.

Lemma indexOf_absent (l : list ref) (r : ref) : r ∉ l -> indexOf l r = (-1)%Z.
Proof.
  intros Hnot. unfold indexOf.
  assert (list_find (eq r) l = None) as ->; [|done].
  apply list_find_None. rewrite Forall_forall. by intros x Hx <-.
Qed.

Lemma splice1_middle {A} (l1 l2 : list A) (x : A) :
  splice1 (Z.of_nat (length l1)) (l1 ++ x :: l2) = l1 ++ l2.
Proof.
  unfold splice1. rewrite length_app. simpl.
  destruct (Z.ltb_spec (Z.of_nat (length l1)) 0); [lia|].
  rewrite Z.min_l by lia. rewrite Nat2Z.id. clear.
  induction l1 as [|y l1 IH]; simpl; [reflexivity|]. by f_equal.
Qed.

Lemma splice1_last {A} (l : list A) (x : A) : splice1 (-1) (l ++ [x]) = l.
Proof.
  unfold splice1. rewrite length_app. simpl.
  rewrite Z.max_l by lia.
  replace (Z.to_nat (Z.of_nat (length l + 1) + -1)) with (length l) by lia.
  induction l as [|y l IH]; simpl; [reflexivity|]. by f_equal.
Qed.

Lemma splice1_is_delete {A} (start : Z) (l : list A) :
  exists i, splice1 start l = delete i l.
Proof. unfold splice1. eauto. Qed.

(** ** release *)

Lemma release_inactive (w : World) (r : ref) :
  pool (driver w) = None -> releaseDatabaseConnection r w = (Returns tt, w).
Proof.
  intros Hp. unfold releaseDatabaseConnection. unfold_M. rewrite Hp. done.
Qed.

Lemma release_active (w : World) (r : ref) (c : DatabaseConnection) (p : handle)
    (f : callback) :
  pool (driver w) = Some p ->
  heap w !! r = Some c ->
  releaseCallback c = Some f ->
  releaseDatabaseConnection r w =
    (Returns tt,
     mkWorld (heap w)
       (mkPostgresDriver (usePool (driver w)) (databaseConnection (driver w))
          (pool (driver w))
          (splice1 (indexOf (databaseConnectionPool (driver w)) r)
             (databaseConnectionPool (driver w))))
       (trace w ++ [Release f])).
Proof.
  intros Hp Hr Hf. unfold releaseDatabaseConnection. unfold_M.
  rewrite Hp. simpl. rewrite Hr. simpl. rewrite Hf. simpl. by rewrite Hp.
Qed.

(** C1 (amended).  With pooling inactive, release returns and changes
    nothing.  With pooling active, releasing a tracked connection that
    carries a release callback returns, invokes the callback exactly once,
    removes that record (the first occurrence of the object) from the
    tracked collection and keeps every other record in place; the driver
    keeps no mark of the release, so a second release of the same object
    returns too and invokes the callback once more. *)
Theorem release_pooled_connection (w : World) (r : ref) :
  (pool (driver w) = None -> releaseDatabaseConnection r w = (Returns tt, w))
  /\ (forall (c : DatabaseConnection) (p : handle) (f : callback) (l1 l2 : list ref),
        pool (driver w) = Some p ->
        heap w !! r = Some c ->
        releaseCallback c = Some f ->
        databaseConnectionPool (driver w) = l1 ++ r :: l2 ->
        r ∉ l1 ->
        fst (releaseDatabaseConnection r w) = Returns tt
        /\ trace (snd (releaseDatabaseConnection r w)) = trace w ++ [Release f]
        /\ databaseConnectionPool (driver (snd (releaseDatabaseConnection r w))) = l1 ++ l2
        /\ heap (snd (releaseDatabaseConnection r w)) = heap w
        /\ fst (releaseDatabaseConnection r (snd (releaseDatabaseConnection r w))) = Returns tt
        /\ trace (snd (releaseDatabaseConnection r (snd (releaseDatabaseConnection r w))))
           = trace w ++ [Release f; Release f]).
Proof.
  split; [apply release_inactive|].
  intros c p f l1 l2 Hp Hr Hf Hl Hnot.
  rewrite (release_active w r c p f Hp Hr Hf). simpl.
  rewrite Hl, indexOf_first, splice1_middle by done.
  split_and!; try done.
  - by erewrite release_active.
  - erewrite release_active by done. simpl. by rewrite <- app_assoc.
Qed.

Lemma release_pooled_connection_witness :
  releaseDatabaseConnection 0 (initial None) = (Returns tt, initial None)
  /\ trace (snd (releaseDatabaseConnection 0 demo_pooled))
     = trace demo_pooled ++ [Release 7]
  /\ databaseConnectionPool (driver (snd (releaseDatabaseConnection 0 demo_pooled))) = [1].
Proof.
  split.
  - apply (proj1 (release_pooled_connection (initial None) 0)). reflexivity.
  - destruct (proj2 (release_pooled_connection demo_pooled 0)
                (mkDatabaseConnection 0 100 false (Some 7)) 0 7 [] [1])
      as (_ & Ht & Hl & _);
      [reflexivity | reflexivity | reflexivity | reflexivity | apply not_elem_of_nil |].
    split; assumption.
Defined.

(** C1, as stated, fails: after object 0 was released, a second release of
    it invokes release function 7 again and removes object 1, the last
    record of the collection. *)
Lemma release_twice_counterexample :
  databaseConnectionPool (driver demo_released) = [1]
  /\ trace (snd (releaseDatabaseConnection 0 demo_released))
     = trace demo_released ++ [Release 7]
  /\ databaseConnectionPool (driver (snd (releaseDatabaseConnection 0 demo_released))) = [].
Proof. vm_compute. done. Qed.

(** ** disconnect *)

Lemma disconnect_not_set (w : World) :
  connectionIsNotSet (driver w) = true ->
  disconnect w = (Throws ConnectionIsNotSetError, w).
Proof. intros H. unfold disconnect. unfold_M. by rewrite H. Qed.

(** The callbacks of the tracked records are invoked in order. *)
Lemma forEach_release (l : list ref) (h : list DatabaseConnection) (d : PostgresDriver)
    (t : list Event) :
  Forall (fun r => is_Some (h !! r)) l ->
  forEach l (fun r =>
    c ← read r;
    match releaseCallback c with
    | Some f => emit (Release f)
    | None => ret tt
    end) (mkWorld h d t)
  = (Returns tt, mkWorld h d (t ++ (Release <$> callbacks_of h l))).
Proof.
  intros Hl. revert t. induction Hl as [|r l [c Hc] _ IH]; intros t.
  - simpl. unfold_M. by rewrite app_nil_r.
  - simpl. unfold_M. simpl. rewrite ?Hc. simpl.
    unfold callbacks_of. simpl. rewrite ?Hc. simpl.
    destruct (releaseCallback c) as [f|]; simpl.
    + rewrite IH. by rewrite <- app_assoc.
    + by rewrite IH.
Qed.

(** With a pool, disconnect completes: it closes the single connection if
    there is one, invokes the release callback of every tracked record,
    then closes the pool and clears the collection. *)
Lemma disconnect_pooled (w : World) (p : handle) :
  pool (driver w) = Some p ->
  databaseConnection (driver w) = None ->
  Forall (fun r => is_Some (heap w !! r)) (databaseConnectionPool (driver w)) ->
  disconnect w
  = (Returns tt,
     mkWorld (heap w) (mkPostgresDriver (usePool (driver w)) None None [])
       (trace w
        ++ (Release <$> callbacks_of (heap w) (databaseConnectionPool (driver w)))
        ++ [PoolEnd p])).
Proof.
  intros Hp Hc Hl. destruct w as [h [up dc pl dl] t]. simpl in *. subst.
  unfold disconnect. unfold_M. simpl.
  pose proof (forEach_release dl h (mkPostgresDriver up None (Some p) dl) t Hl) as E.
  unfold_M. rewrite E. simpl. by rewrite <- app_assoc.
Qed.

(** With a single connection and no pool, disconnect closes the connection
    and clears it, and then fails: the block that closes the pool runs
    although there is no pool. *)
Lemma disconnect_single (w : World) (r : ref) (c : DatabaseConnection) :
  databaseConnection (driver w) = Some r ->
  pool (driver w) = None ->
  heap w !! r = Some c ->
  databaseConnectionPool (driver w) = [] ->
  disconnect w
  = (Throws TypeError,
     mkWorld (heap w) (mkPostgresDriver (usePool (driver w)) None None [])
       (trace w ++ [ClientEnd (connection c)])).
Proof.
  intros Hc Hp Hr Hl. destruct w as [h [up dc pl dl] t]. simpl in *. subst.
  unfold disconnect. unfold_M. simpl. rewrite Hr. done.
Qed.

(** C2, the failing input: a driver connected with [usePool: false].  Its
    disconnect closes the single connection, clears it, and is rejected
    with a TypeError; a second call then fails with
    ConnectionIsNotSetError. *)
Lemma disconnect_single_connection_rejects :
  connectionIsNotSet (driver demo_single) = false
  /\ fst (disconnect demo_single) = Throws TypeError
  /\ trace (snd (disconnect demo_single)) = trace demo_single ++ [ClientEnd 0]
  /\ databaseConnection (driver (snd (disconnect demo_single))) = None
  /\ fst (disconnect (snd (disconnect demo_single))) = Throws ConnectionIsNotSetError.
Proof. vm_compute. done. Qed.

(** ** query and the transaction coordinator *)

Lemma query_not_set (env : Transport) (w : World) (r : ref) (sql : string)
    (ps : option (list value)) :
  connectionIsNotSet (driver w) = true ->
  query env r sql ps w = (Throws ConnectionIsNotSetError, w).
Proof. intros H. unfold query. unfold_M. by rewrite H. Qed.

Lemma query_run (env : Transport) (w : World) (r : ref) (c : DatabaseConnection)
    (sql : string) (ps : option (list value)) :
  connectionIsNotSet (driver w) = false ->
  heap w !! r = Some c ->
  query env r sql ps w
  = if Js.truthy (fst (reply env w c sql ps))
    then (Throws (TransportError (fst (reply env w c sql ps))),
          mkWorld (heap w) (driver w)
            (issued w c sql ps
             ++ [LogFailedQuery sql; LogQueryError (fst (reply env w c sql ps))]))
    else (Returns (snd (reply env w c sql ps)),
          mkWorld (heap w) (driver w) (issued w c sql ps)).
Proof.
  intros Hset Hr. unfold query, reply, issued. unfold_M. rewrite Hset. simpl.
  rewrite Hr. simpl. rewrite <- !app_assoc. simpl.
  destruct (on_client_query env _) as [err rows]. simpl.
  destruct (Js.truthy err); simpl; [|done].
  by rewrite <- !app_assoc.
Qed.

(** A query never touches the heap nor the driver's fields. *)
Lemma query_frame (env : Transport) (w : World) (r : ref) (sql : string)
    (ps : option (list value)) :
  heap (snd (query env r sql ps w)) = heap w
  /\ driver (snd (query env r sql ps w)) = driver w.
Proof.
  destruct (connectionIsNotSet (driver w)) eqn:Hset.
  - by rewrite query_not_set.
  - destruct (heap w !! r) as [c|] eqn:Hr.
    + rewrite (query_run env w r c) by done. by destruct (Js.truthy _).
    + unfold query. unfold_M. rewrite Hset. simpl. by rewrite Hr.
Qed.

Lemma run_tx_unfold (env : Transport) (op : TxOp) (r : ref) (w : World)
    (c : DatabaseConnection) :
  heap w !! r = Some c ->
  run_tx env op r w
  = if refused op c then (Throws (refusal op), w)
    else match query env r (statement op) None w with
         | (Returns _, w') =>
             (Returns tt,
              mkWorld (<[r := mkDatabaseConnection (id c) (connection c) (target op)
                                (releaseCallback c)]> (heap w'))
                (driver w') (trace w'))
         | (Throws e, w') => (Throws e, w')
         | (Beyond, w') => (Beyond, w')
         end.
Proof.
  intros Hr.
  assert (heap (snd (query env r (statement op) None w)) !! r = Some c) as Hq.
  { by rewrite (proj1 (query_frame _ _ _ _ _)). }
  destruct op; simpl;
    unfold beginTransaction, commitTransaction, rollbackTransaction; unfold_M;
    rewrite Hr; simpl; destruct (isTransactionActive c); simpl; try done;
    destruct (query env r _ None w) as [[a| |] w']; simpl in *; try done;
    by rewrite Hq.
Qed.

(** C3.  When the client answers the statement of begin, commit or rollback
    with an error, the operation fails and the connection object, its
    isTransactionActive flag included, is what it was. *)
Theorem failed_statement_keeps_flag (env : Transport) (op : TxOp) (w : World) (r : ref)
    (c : DatabaseConnection) :
  heap w !! r = Some c ->
  Js.truthy (fst (reply env w c (statement op) None)) = true ->
  (exists e, fst (run_tx env op r w) = Throws e)
  /\ heap (snd (run_tx env op r w)) !! r = Some c
  /\ (refused op c = false -> connectionIsNotSet (driver w) = false ->
      fst (run_tx env op r w)
      = Throws (TransportError (fst (reply env w c (statement op) None)))).
Proof.
  intros Hr Herr. rewrite (run_tx_unfold env op r w c Hr).
  destruct (refused op c); [split_and!; by eauto|].
  destruct (connectionIsNotSet (driver w)) eqn:Hset.
  - rewrite query_not_set by done. split_and!; by eauto.
  - rewrite (query_run env w r c) by done. rewrite Herr. simpl. split_and!; by eauto.
Qed.

(** A transport whose client fails every query with the error "down". *)
Lemma failed_statement_keeps_flag_witness :
  let env := mkTransport (fun _ => VNull) (fun _ => (VNull, 100, 7))
               (fun _ => (VStr "down", VUndefined)) in
  (exists e, fst (beginTransaction env 0 demo_pooled) = Throws e)
  /\ heap (snd (beginTransaction env 0 demo_pooled)) !! 0
     = Some (mkDatabaseConnection 0 100 false (Some 7)).
Proof.
  intros env.
  destruct (failed_statement_keeps_flag env Begin demo_pooled 0
              (mkDatabaseConnection 0 100 false (Some 7)) eq_refl eq_refl)
    as (He & Hh & _).
  split; assumption.
Defined.

(** The flag is flipped when, and only when, the operation succeeds. *)
Lemma run_tx_success (env : Transport) (op : TxOp) (w w' : World) (r : ref)
    (c : DatabaseConnection) :
  heap w !! r = Some c ->
  run_tx env op r w = (Returns tt, w') ->
  refused op c = false
  /\ heap w' !! r
     = Some (mkDatabaseConnection (id c) (connection c) (target op) (releaseCallback c)).
Proof.
  intros Hr. rewrite (run_tx_unfold env op r w c Hr).
  destruct (refused op c); [done|].
  pose proof (query_frame env w r (statement op) None) as [Hh _].
  destruct (query env r (statement op) None w) as [[a| |] w1]; simpl in *; try done.
  intros [= <-]. split; [done|]. simpl.
  apply list_lookup_insert_eq. rewrite Hh. by eapply lookup_lt_Some.
Qed.

Lemma run_tx_refused (env : Transport) (op : TxOp) (w : World) (r : ref)
    (c : DatabaseConnection) :
  heap w !! r = Some c ->
  fst (run_tx env op r w) = Throws (refusal op) <-> refused op c = true.
Proof.
  intros Hr. rewrite (run_tx_unfold env op r w c Hr).
  destruct (refused op c); [done|]. split; [|done].
  destruct (connectionIsNotSet (driver w)) eqn:Hset.
  - rewrite query_not_set by done. by destruct op.
  - rewrite (query_run env w r c) by done.
    destruct (Js.truthy _); simpl; by destruct op.
Qed.

(** C4.  Begin fails with TransactionAlreadyStartedError exactly when the
    flag is set (Active); commit and rollback fail with
    TransactionNotStartedError exactly when it is clear (Idle).  Hence a
    begin after a begin that succeeded fails, a commit on an Idle
    connection fails, and a rollback after begin and commit fails. *)
Theorem transaction_state_machine (env : Transport) (w : World) (r : ref)
    (c : DatabaseConnection) :
  heap w !! r = Some c ->
  (fst (beginTransaction env r w) = Throws TransactionAlreadyStartedError
   <-> isTransactionActive c = true)
  /\ (fst (commitTransaction env r w) = Throws TransactionNotStartedError
      <-> isTransactionActive c = false)
  /\ (fst (rollbackTransaction env r w) = Throws TransactionNotStartedError
      <-> isTransactionActive c = false)
  /\ (forall w1, beginTransaction env r w = (Returns tt, w1) ->
        fst (beginTransaction env r w1) = Throws TransactionAlreadyStartedError)
  /\ (forall w1 w2,
        beginTransaction env r w = (Returns tt, w1) ->
        commitTransaction env r w1 = (Returns tt, w2) ->
        fst (rollbackTransaction env r w2) = Throws TransactionNotStartedError).
Proof.
  intros Hr. split_and!.
  - apply (run_tx_refused env Begin w r c Hr).
  - rewrite (run_tx_refused env Commit w r c Hr). simpl. by destruct (isTransactionActive c).
  - rewrite (run_tx_refused env Rollback w r c Hr). simpl.
    by destruct (isTransactionActive c).
  - intros w1 H1. apply (run_tx_success env Begin) with (c := c) in H1 as [_ H1]; [|done].
    by apply (run_tx_refused env Begin w1 r _ H1).
  - intros w1 w2 H1 H2.
    apply (run_tx_success env Begin) with (c := c) in H1 as [_ H1]; [|done].
    apply (run_tx_success env Commit) with (c := mkDatabaseConnection (id c) (connection c) true (releaseCallback c)) in H2 as [_ H2]; [|done].
    by apply (run_tx_refused env Rollback w2 r _ H2).
Qed.

Lemma transaction_state_machine_witness :
  fst (commitTransaction demo_env 0 demo_pooled) = Throws TransactionNotStartedError
  /\ fst (beginTransaction demo_env 0 (snd (beginTransaction demo_env 0 demo_pooled)))
     = Throws TransactionAlreadyStartedError.
Proof.
  destruct (transaction_state_machine demo_env demo_pooled 0
              (mkDatabaseConnection 0 100 false (Some 7)) eq_refl)
    as (_ & Hc & _ & Hbb & _).
  split.
  - apply Hc. reflexivity.
  - apply Hbb. reflexivity.
Defined.

(** A connection starts Idle: [connect] and [retrieve] create their records
    with the flag clear. *)
Lemma new_connections_are_idle :
  (isTransactionActive <$> heap demo_single) = [false]
  /\ (isTransactionActive <$> heap demo_pooled) = [false; false].
Proof. vm_compute. done. Qed.

(** ** The tracked collection along a run *)

Lemma find_connection_found (h : list DatabaseConnection) (l : list ref) (c : handle)
    (r : ref) :
  find_connection h l c = Some (Some r) ->
  r ∈ l /\ exists o, h !! r = Some o /\ connection o = c.
Proof.
  induction l as [|x l IH]; simpl; [done|].
  destruct (h !! x) as [o|] eqn:Hx; [|done].
  destruct (decide (connection o = c)) as [Hc|Hc].
  - intros [= <-]. split; [left|]. eauto.
  - intros [Hin Ho]%IH. split; [by right|done].
Qed.

Lemma find_connection_fresh (h : list DatabaseConnection) (l : list ref) (c : handle) :
  find_connection h l c = Some None ->
  c ∉ connection <$> omap (fun r => h !! r) l.
Proof.
  induction l as [|x l IH]; simpl; [intros _; apply not_elem_of_nil|].
  destruct (h !! x) as [o|] eqn:Hx; [|done].
  destruct (decide (connection o = c)) as [Hc|Hc]; [done|].
  intros Hf. simpl. apply not_elem_of_cons. split; [done|]. by apply IH.
Qed.

Lemma sublist_omap {A B} (f : A -> option B) (l1 l2 : list A) :
  l1 `sublist_of` l2 -> omap f l1 `sublist_of` omap f l2.
Proof.
  induction 1 as [|x l1 l2 _ IH|x l1 l2 _ IH]; simpl.
  - constructor.
  - destruct (f x); [by constructor|done].
  - destruct (f x); [by constructor|done].
Qed.

Lemma omap_fmap_ext {A B C} (g1 g2 : A -> option B) (f : B -> C) (l : list A) :
  (forall x, f <$> g1 x = f <$> g2 x) ->
  f <$> omap g1 l = f <$> omap g2 l.
Proof.
  intros H. induction l as [|x l IH]; [done|]. simpl. specialize (H x).
  destruct (g1 x) as [b1|], (g2 x) as [b2|]; simpl in *; try discriminate.
  - f_equal; [congruence|exact IH].
  - exact IH.
Qed.

Lemma omap_lookup_insert {B} (f : DatabaseConnection -> B) (h : list DatabaseConnection)
    (l : list ref) (r : ref) (c c' : DatabaseConnection) :
  h !! r = Some c -> f c' = f c ->
  f <$> omap (fun x => <[r := c']> h !! x) l = f <$> omap (fun x => h !! x) l.
Proof.
  intros Hr Hf. apply omap_fmap_ext. intros x.
  destruct (decide (x = r)) as [->|Hne].
  - rewrite list_lookup_insert_eq by (by eapply lookup_lt_Some).
    rewrite Hr. simpl. by rewrite Hf.
  - by rewrite list_lookup_insert_ne.
Qed.

Lemma omap_lookup_app (h : list DatabaseConnection) (l : list ref)
    (c : DatabaseConnection) :
  Forall (fun r => r < length h) l ->
  omap (fun x => (h ++ [c]) !! x) l = omap (fun x => h !! x) l.
Proof.
  induction 1 as [|x l Hx _ IH]; [done|].
  cbn. rewrite lookup_app_l by done. by rewrite IH.
Qed.

(** What a retrieval does to the heap and to the driver: nothing (it
    failed, or the driver has a single connection); or it attached a
    release function to a tracked record; or it created a record for a
    client the collection did not hold, with the length of the collection
    as its id, and appended it. *)
Lemma retrieve_cases (env : Transport) (w : World) :
  let w' := snd (retrieveDatabaseConnection env w) in
  (heap w' = heap w /\ driver w' = driver w)
  \/ (exists r c f,
        (r ∈ databaseConnectionPool (driver w)) /\ heap w !! r = Some c
        /\ heap w' = <[r := mkDatabaseConnection (id c) (connection c)
                               (isTransactionActive c) (Some f)]> (heap w)
        /\ driver w' = driver w)
  \/ (exists conn f,
        (conn ∉ tracked_handles w)
        /\ heap w' = heap w ++ [mkDatabaseConnection
                                  (length (databaseConnectionPool (driver w)))
                                  conn false (Some f)]
        /\ driver w' = mkPostgresDriver (usePool (driver w))
                         (databaseConnection (driver w)) (pool (driver w))
                         (databaseConnectionPool (driver w) ++ [length (heap w)])).
Proof.
  destruct w as [h [up dc pl dl] t]. unfold retrieveDatabaseConnection. unfold_M. simpl.
  destruct pl as [p|]; simpl.
  - destruct (on_pool_connect env (t ++ [PoolConnect p])) as [[err conn] f].
    destruct (Js.truthy err); simpl; [by left|].
    destruct (find_connection h dl conn) as [[r|]|] eqn:Hfind; simpl.
    + apply find_connection_found in Hfind as (Hin & c & Hc & _).
      rewrite Hc. simpl. right. left. by exists r, c, f.
    + right. right. exists conn, f. split; [by apply find_connection_fresh|].
      rewrite list_lookup_middle by done. simpl.
      rewrite insert_app_r_alt by done. rewrite Nat.sub_diag. done.
    + by left.
  - destruct dc; simpl; by left.
Qed.

(** What a release does: the heap stays, and the collection stays or loses
    one record. *)
Lemma release_cases (w : World) (r : ref) :
  let w' := snd (releaseDatabaseConnection r w) in
  heap w' = heap w
  /\ exists l, databaseConnectionPool (driver w') = l
               /\ l `sublist_of` databaseConnectionPool (driver w).
Proof.
  destruct w as [h [up dc pl dl] t]. unfold releaseDatabaseConnection. unfold_M. simpl.
  destruct pl as [p|]; simpl; [|by eauto].
  destruct (h !! r) as [c|]; simpl; [|by eauto].
  destruct (releaseCallback c); simpl; [|by eauto].
  split; [done|]. eexists. split; [done|].
  destruct (splice1_is_delete (indexOf dl r) dl) as [i ->]. apply sublist_delete.
Qed.

Lemma connect_pooled (env : Transport) (usePool : option bool) :
  usePool <> Some false ->
  heap (snd (connect env (initial usePool))) = []
  /\ databaseConnectionPool (driver (snd (connect env (initial usePool)))) = [].
Proof. by destruct usePool as [[]|]. Qed.

Lemma pool_inv_retrieve (env : Transport) (w : World) :
  pool_inv w -> pool_inv (snd (retrieveDatabaseConnection env w)).
Proof.
  intros [Hv Hn]. unfold pool_inv, tracked_handles, tracked in *.
  destruct (retrieve_cases env w) as [[-> ->]|[(r & c & f & Hin & Hc & -> & ->)
                                              |(conn & f & Hfresh & -> & ->)]].
  - done.
  - split; [by rewrite length_insert|].
    by rewrite (omap_lookup_insert connection _ _ r c).
  - simpl. split.
    + apply Forall_app. split.
      * eapply Forall_impl; [exact Hv|]. intros x Hx. cbn in Hx. rewrite length_app. cbn. lia.
      * apply Forall_singleton. rewrite length_app. cbn. lia.
    + rewrite omap_app, fmap_app. simpl.
      rewrite list_lookup_middle by done. simpl.
      rewrite omap_lookup_app by done.
      apply NoDup_app. split_and!; [done| |apply NoDup_singleton].
      intros x Hx ->%list_elem_of_singleton. done.
Qed.

Lemma pool_inv_release (w : World) (r : ref) :
  pool_inv w -> pool_inv (snd (releaseDatabaseConnection r w)).
Proof.
  intros [Hv Hn]. unfold pool_inv, tracked_handles, tracked in *.
  destruct (release_cases w r) as (-> & l & -> & Hsub). split.
  - apply Forall_forall. intros x Hx.
    eapply (proj1 (Forall_forall _ _) Hv). by eapply elem_of_sublist.
  - eapply sublist_NoDup; [done|]. by apply fmap_sublist, sublist_omap.
Qed.

Lemma ids_inv_retrieve (env : Transport) (w : World) :
  ids_inv w -> ids_inv (snd (retrieveDatabaseConnection env w)).
Proof.
  intros [Hv Hn]. unfold ids_inv, tracked_ids, tracked in *.
  destruct (retrieve_cases env w) as [[-> ->]|[(r & c & f & Hin & Hc & -> & ->)
                                              |(conn & f & Hfresh & -> & ->)]].
  - done.
  - split; [by rewrite length_insert|].
    by rewrite (omap_lookup_insert id _ _ r c).
  - simpl. split.
    + apply Forall_app. split.
      * eapply Forall_impl; [exact Hv|]. intros x Hx. cbn in Hx. rewrite length_app. cbn. lia.
      * apply Forall_singleton. rewrite length_app. cbn. lia.
    + rewrite omap_app, fmap_app. simpl.
      rewrite list_lookup_middle by done. simpl.
      rewrite omap_lookup_app by done. rewrite Hn.
      rewrite length_app. simpl. by rewrite Nat.add_1_r, seq_S.
Qed.

(** X28.  Along every run of connect, retrievals and releases the
    tracked records have pairwise distinct client handles; along a run
    without releases the i-th tracked record has id i, so the ids are
    pairwise distinct too. *)
Theorem tracked_records_distinct (env : Transport) (w : World) :
  (pooled_run env w -> NoDup (tracked_handles w))
  /\ (retrieve_run env w ->
      tracked_ids w = seq 0 (length (databaseConnectionPool (driver w)))
      /\ NoDup (tracked_ids w)).
Proof.
  split.
  - intros Hrun. cut (pool_inv w); [by intros []|].
    induction Hrun as [up Hup|w Hrun IH|w r Hrun IH Hr].
    + destruct (connect_pooled env up Hup) as [Hh Hl].
      unfold pool_inv, tracked_handles, tracked. rewrite Hl. simpl.
      split; [done|constructor].
    + by apply pool_inv_retrieve.
    + by apply pool_inv_release.
  - intros Hrun. cut (ids_inv w).
    { intros [_ Hids]. split; [done|]. rewrite Hids. apply NoDup_seq. }
    induction Hrun as [up Hup|w Hrun IH].
    + destruct (connect_pooled env up Hup) as [Hh Hl].
      unfold ids_inv, tracked_ids, tracked. rewrite Hl. simpl. done.
    + by apply ids_inv_retrieve.
Qed.

Lemma demo_pooled_run : retrieve_run demo_env demo_pooled /\ pooled_run demo_env demo_pooled.
Proof.
  split.
  - do 2 apply rrun_retrieve. by apply rrun_connect.
  - do 2 apply run_retrieve. by apply run_connect.
Qed.

Lemma tracked_records_distinct_witness :
  NoDup (tracked_handles demo_pooled) /\ tracked_ids demo_pooled = [0; 1].
Proof.
  destruct (tracked_records_distinct demo_env demo_pooled) as [Hh Hi].
  split.
  - apply Hh, demo_pooled_run.
  - apply Hi, demo_pooled_run.
Defined.

(** C9, the failing input: a pooled driver retrieves client 100 (record
    with id 0) and client 200 (record with id 1); the caller releases the
    first object, and the pool hands out client 100 again.  The new record
    takes the length of the collection as its id, which is 1 since the
    release shortened the collection: the two tracked records, of the
    distinct clients 200 and 100, both have id 1. *)
Theorem release_then_retrieve_repeats_id :
  let w := snd (retrieveDatabaseConnection demo_env demo_released) in
  pooled_run demo_env w
  /\ tracked_handles w = [200; 100]
  /\ tracked_ids w = [1; 1]
  /\ ~ NoDup (tracked_ids w).
Proof.
  cbv zeta. split_and!.
  - apply run_retrieve. apply run_release; [apply demo_pooled_run|]. by eexists.
  - reflexivity.
  - reflexivity.
  - assert (tracked_ids (snd (retrieveDatabaseConnection demo_env demo_released)) = [1; 1])
      as -> by reflexivity.
    intros [Hn _]%NoDup_cons. apply Hn. left.
Qed.

(** ** update *)

Lemma get_keys (o : ObjectLiteral) :
  NoDup (Js.keys o) -> map (fun key => Js.get o key) (Js.keys o) = map snd o.
Proof.
  unfold Js.keys. induction o as [|[k v] o IH]; [done|]. cbn.
  intros [Hk Hn]%NoDup_cons. rewrite String.eqb_refl. f_equal.
  rewrite <- IH by done. apply map_ext_in. intros k' Hin.
  destruct (String.eqb_spec k k') as [->|]; [|done].
  exfalso. apply Hk. by apply list_elem_of_In.
Qed.

Lemma parametrize_lookup (o : ObjectLiteral) (startIndex i : nat) (k : string) (v : value) :
  o !! i = Some (k, v) ->
  parametrize o startIndex !! i
  = Some (escapeColumnName k +:+ "=$" +:+ Js.nat_to_string (startIndex + i + 1)).
Proof.
  intros Hi. unfold parametrize, Js.keys.
  rewrite list_lookup_imap. change (map fst o) with (fst <$> o).
  by rewrite list_lookup_fmap, Hi.
Qed.

Lemma updateParameters_flat (valuesMap conditions : ObjectLiteral) :
  NoDup (Js.keys valuesMap) -> NoDup (Js.keys conditions) ->
  updateParameters valuesMap conditions = (snd <$> valuesMap) ++ (snd <$> conditions).
Proof. intros H1 H2. unfold updateParameters. by rewrite !get_keys. Qed.

Lemma join_parametrize_empty (sep : string) (o : ObjectLiteral) (startIndex : nat) :
  Js.truthy (VStr (Js.join sep (parametrize o startIndex))) = bool_decide (o <> []).
Proof.
  destruct o as [|[k v] o]; [done|]. unfold parametrize. cbn.
  unfold Js.join. cbn. by destruct (imap _ _).
Qed.

Lemma update_run (env : Transport) (w : World) (r : ref) (tableName : string)
    (valuesMap conditions : ObjectLiteral) :
  update env r tableName valuesMap conditions w
  = if connectionIsNotSet (driver w) then (Throws ConnectionIsNotSetError, w)
    else match query env r (updateQuery tableName valuesMap conditions)
                 (Some (updateParameters valuesMap conditions)) w with
         | (Returns _, w') => (Returns tt, w')
         | (Throws e, w') => (Throws e, w')
         | (Beyond, w') => (Beyond, w')
         end.
Proof.
  unfold update. unfold_M. destruct (connectionIsNotSet (driver w)); [done|].
  by destruct (query _ _ _ _ _) as [[| |] ?].
Qed.

(** C5 (amended).  The statement that update hands to the client is the
    text [UPDATE "table" SET ] followed by the SET entries joined by a
    comma and a space, then one space, then, when there are conditions, the
    text [ WHERE ] and the condition entries joined by [ AND ]; with no
    conditions nothing follows that space.  The i-th SET entry (from 0)
    reads ["key"=$(i+1)] and parameter i is its value; the j-th condition
    entry reads ["key"=$(n+j+1)], n being the number of update values, and
    parameter n+j is its value. *)
Theorem update_statement (env : Transport) (w : World) (r : ref) (c : DatabaseConnection)
    (tableName : string) (valuesMap conditions : ObjectLiteral) :
  NoDup (Js.keys valuesMap) ->
  NoDup (Js.keys conditions) ->
  connectionIsNotSet (driver w) = false ->
  heap w !! r = Some c ->
  (exists t, trace (snd (update env r tableName valuesMap conditions w))
             = issued w c (updateQuery tableName valuesMap conditions)
                 (Some (updateParameters valuesMap conditions)) ++ t)
  /\ updateQuery tableName valuesMap conditions
     = "UPDATE " +:+ escapeTableName tableName +:+ " SET "
       +:+ Js.join ", " (parametrize valuesMap 0) +:+ " "
       +:+ (if bool_decide (conditions <> [])
            then " WHERE " +:+ Js.join " AND " (parametrize conditions (length valuesMap))
            else EmptyString)
  /\ (forall i k v, valuesMap !! i = Some (k, v) ->
        parametrize valuesMap 0 !! i
        = Some (escapeColumnName k +:+ "=$" +:+ Js.nat_to_string (i + 1))
        /\ updateParameters valuesMap conditions !! i = Some v)
  /\ (forall j k v, conditions !! j = Some (k, v) ->
        parametrize conditions (length valuesMap) !! j
        = Some (escapeColumnName k +:+ "=$" +:+ Js.nat_to_string (length valuesMap + j + 1))
        /\ updateParameters valuesMap conditions !! (length valuesMap + j) = Some v)
  /\ updateParameters valuesMap conditions = (snd <$> valuesMap) ++ (snd <$> conditions).
Proof.
  intros Hv Hc Hset Hr. split_and!.
  - rewrite update_run, Hset. rewrite (query_run env w r c) by done.
    destruct (Js.truthy _); cbn; [by eexists|].
    exists []. by rewrite app_nil_r.
  - unfold updateQuery. cbn zeta. rewrite join_parametrize_empty.
    unfold Js.keys. by rewrite length_map.
  - intros i k v Hi. split; [by apply (parametrize_lookup valuesMap 0 i k v)|].
    rewrite updateParameters_flat by done.
    rewrite lookup_app_l by (rewrite length_fmap; by eapply lookup_lt_Some).
    by rewrite list_lookup_fmap, Hi.
  - intros j k v Hj. split; [by eapply parametrize_lookup|].
    rewrite updateParameters_flat by done.
    rewrite lookup_app_r by (rewrite length_fmap; lia).
    rewrite length_fmap, Nat.add_comm, Nat.add_sub.
    by rewrite list_lookup_fmap, Hj.
  - by apply updateParameters_flat.
Qed.

(** update(conn, "users", {name: "Bob"}, {}) on the pooled driver: the
    statement ends with the space that follows the SET entries. *)
Lemma update_statement_witness :
  updateQuery "users" [("name", VStr "Bob")] []
  = "UPDATE " +:+ escapeTableName "users" +:+ " SET " +:+ escapeColumnName "name" +:+ "=$1 "
  /\ updateParameters [("name", VStr "Bob")] [] = [VStr "Bob"]
  /\ exists t, trace (snd (update demo_env 0 "users" [("name", VStr "Bob")] [] demo_pooled))
               = issued demo_pooled (mkDatabaseConnection 0 100 false (Some 7))
                   (updateQuery "users" [("name", VStr "Bob")] [])
                   (Some (updateParameters [("name", VStr "Bob")] [])) ++ t.
Proof.
  destruct (update_statement demo_env demo_pooled 0
              (mkDatabaseConnection 0 100 false (Some 7)) "users"
              [("name", VStr "Bob")] [])
    as (Ht & Hq & _ & _ & Hp);
    [apply NoDup_singleton | apply NoDup_nil_2 | reflexivity | reflexivity |].
  split; [|split].
  - rewrite Hq. reflexivity.
  - rewrite Hp. reflexivity.
  - exact Ht.
Defined.

(** C5, as stated, fails on its example: the statement built for
    update(conn, "users", {name: "Bob"}, {}) is not the text that ends
    with [$1]; a space follows. *)
Lemma update_example_counterexample :
  updateQuery "users" [("name", VStr "Bob")] []
  <> "UPDATE " +:+ escapeTableName "users" +:+ " SET " +:+ escapeColumnName "name" +:+ "=$1".
Proof. vm_compute. discriminate. Qed.

(** ** Strings *)

Lemma str_app_cons (c : ascii) (s t : string) : String c s +:+ t = String c (s +:+ t).
Proof. reflexivity. Qed.

Lemma str_app_nil_l (t : string) : EmptyString +:+ t = t.
Proof. reflexivity. Qed.

Lemma str_app_nil_r (s : string) : s +:+ EmptyString = s.
Proof. induction s as [|c s IH]; [done|]. by rewrite str_app_cons, IH. Qed.

Lemma str_app_assoc (s t u : string) : (s +:+ t) +:+ u = s +:+ t +:+ u.
Proof. induction s as [|c s IH]; [done|]. by rewrite !str_app_cons, IH. Qed.

Lemma str_app_length (s t : string) :
  String.length (s +:+ t) = String.length s + String.length t.
Proof. induction s as [|c s IH]; [done|]. rewrite str_app_cons. cbn. by rewrite IH. Qed.

(** ** Decimal numbers, written and read back *)

Lemma digit_cons_facts (c : ascii) (f : Decimal.uint -> Decimal.uint) :
  Digits.digit_cons c = Some f ->
  Digits.is_space c = false /\ Ascii.eqb c "-" = false /\ Ascii.eqb c "+" = false
  /\ Ascii.eqb c "x" = false /\ Ascii.eqb c "X" = false /\ Ascii.eqb c "." = false
  /\ Ascii.eqb c "e" = false /\ Ascii.eqb c "E" = false.
Proof. destruct c as [[] [] [] [] [] [] [] []]; cbn; intros; done. Qed.

(** The text of a number with at least one digit starts with a digit. *)
Lemma string_of_uint_head (u : Decimal.uint) :
  u <> Decimal.Nil ->
  exists c f u', Digits.digit_cons c = Some f /\ u = f u'
    /\ NilEmpty.string_of_uint u = String c (NilEmpty.string_of_uint u').
Proof.
  destruct u as [|u|u|u|u|u|u|u|u|u|u]; [done|..]; intros _.
  - by exists "0"%char, Decimal.D0, u.
  - by exists "1"%char, Decimal.D1, u.
  - by exists "2"%char, Decimal.D2, u.
  - by exists "3"%char, Decimal.D3, u.
  - by exists "4"%char, Decimal.D4, u.
  - by exists "5"%char, Decimal.D5, u.
  - by exists "6"%char, Decimal.D6, u.
  - by exists "7"%char, Decimal.D7, u.
  - by exists "8"%char, Decimal.D8, u.
  - by exists "9"%char, Decimal.D9, u.
Qed.

Lemma read_digits_print (u : Decimal.uint) (r : string) :
  Digits.no_digit_head r = true ->
  Digits.read_digits (NilEmpty.string_of_uint u +:+ r) = (u, r).
Proof.
  intros Hr. induction u as [|u IH|u IH|u IH|u IH|u IH|u IH|u IH|u IH|u IH|u IH];
    cbn [NilEmpty.string_of_uint]; rewrite ?str_app_cons; cbn; rewrite ?IH; try done.
  rewrite str_app_nil_l. destruct r as [|c r]; [done|]. cbn in *.
  by destruct (Digits.digit_cons c).
Qed.

Lemma string_of_uint_no_hex (u : Decimal.uint) :
  has_hex_prefix (NilEmpty.string_of_uint u) = false.
Proof.
  destruct u as [|u|u|u|u|u|u|u|u|u|u]; try done.
  cbn. destruct (Decimal.uint_eq_dec u Decimal.Nil) as [->|Hu]; [done|].
  destruct (string_of_uint_head u Hu) as (c & f & u' & Hc & _ & ->).
  by destruct (digit_cons_facts c f Hc) as (_ & _ & _ & -> & -> & _).
Qed.

(** The text of an integer: an optional minus sign and a canonical run of
    digits. *)
Lemma Z_to_string_cases (z : Z) :
  exists (u : Decimal.uint) (negative : bool),
    u <> Decimal.Nil /\ Decimal.unorm u = u
    /\ Js.Z_to_string z
       = (if negative then "-" else EmptyString) +:+ NilEmpty.string_of_uint u
    /\ z = (if negative then - Z.of_uint u else Z.of_uint u)%Z.
Proof.
  assert (forall p, Decimal.unorm (Pos.to_uint p) = Pos.to_uint p) as Hnorm.
  { intros p. rewrite <- DecimalPos.Unsigned.to_of.
    by rewrite DecimalPos.Unsigned.of_to. }
  assert (forall p, NilZero.string_of_uint (Pos.to_uint p)
                    = NilEmpty.string_of_uint (Pos.to_uint p)) as Htext.
  { intros p. pose proof (DecimalPos.Unsigned.to_uint_nonnil p).
    by destruct (Pos.to_uint p). }
  assert (forall p, Z.of_uint (Pos.to_uint p) = Z.pos p) as Hval.
  { intros p. unfold Z.of_uint. by rewrite DecimalPos.Unsigned.of_to. }
  destruct z as [|p|p].
  - by exists (Decimal.D0 Decimal.Nil), false.
  - exists (Pos.to_uint p), false. split_and!.
    + apply DecimalPos.Unsigned.to_uint_nonnil.
    + apply Hnorm.
    + unfold Js.Z_to_string. cbn. by rewrite Htext.
    + by rewrite Hval.
  - exists (Pos.to_uint p), true. split_and!.
    + apply DecimalPos.Unsigned.to_uint_nonnil.
    + apply Hnorm.
    + unfold Js.Z_to_string. cbn. by rewrite Htext.
    + by rewrite Hval.
Qed.

(** ** parseInt *)

Lemma parseInt_text (u : Decimal.uint) (negative : bool) :
  u <> Decimal.Nil ->
  Js.safe (Z.of_uint u) = true ->
  parseInt (VStr ((if negative then "-" else EmptyString) +:+ NilEmpty.string_of_uint u))
  = Returns (VNum (if negative then - Z.of_uint u else Z.of_uint u)%Z).
Proof.
  intros Hu Hsafe. unfold parseInt. cbn [Js.to_string].
  assert (split_sign (Digits.skip_space
            ((if negative then "-" else EmptyString) +:+ NilEmpty.string_of_uint u))
          = (negative, NilEmpty.string_of_uint u)) as ->.
  { destruct (string_of_uint_head u Hu) as (c & f & u' & Hc & _ & ->).
    destruct (digit_cons_facts c f Hc) as (Hsp & Hm & Hp & _).
    destruct negative; rewrite ?str_app_cons, ?str_app_nil_l; cbn;
      rewrite ?Hsp; cbn; by rewrite ?Hm, ?Hp. }
  rewrite string_of_uint_no_hex.
  rewrite <- (str_app_nil_r (NilEmpty.string_of_uint u)), read_digits_print by done.
  rewrite Hsafe. by destruct u.
Qed.

Lemma safe_abs (u : Decimal.uint) (negative : bool) :
  Js.safe (if negative then - Z.of_uint u else Z.of_uint u)%Z = Js.safe (Z.of_uint u).
Proof. unfold Js.safe. destruct negative; [|done]. by rewrite Z.abs_opp. Qed.

Lemma parseInt_number (z : Z) :
  Js.safe z = true ->
  parseInt (VNum z) = Returns (VNum z) /\ parseInt (VStr (Js.Z_to_string z)) = Returns (VNum z).
Proof.
  intros Hsafe.
  destruct (Z_to_string_cases z) as (u & negative & Hu & _ & Htext & Hz).
  assert (parseInt (VStr (Js.Z_to_string z)) = Returns (VNum z)) as H.
  { rewrite Htext, parseInt_text; [by rewrite <- Hz|done|].
    by rewrite <- (safe_abs u negative), <- Hz. }
  split; [|exact H]. unfold parseInt in *. cbn [Js.to_string] in *. by rewrite Hsafe.
Qed.

Lemma Z_to_string_truthy (z : Z) : Js.truthy (VStr (Js.Z_to_string z)) = true.
Proof.
  destruct (Z_to_string_cases z) as (u & negative & Hu & _ & -> & _).
  destruct (string_of_uint_head u Hu) as (c & f & u' & _ & _ & ->).
  by destruct negative.
Qed.

(** ** insertIntoClosureTable *)

Lemma closureDepth_level (o : list (string * value)) (rest : list value) (L : Z) :
  Js.safe L = true ->
  Js.get o "level" = VNum L \/ Js.get o "level" = VStr (Js.Z_to_string L) ->
  closureDepth (VArr (VObj o :: rest)) = Returns (VNum (L + 1)).
Proof.
  intros Hsafe. unfold closureDepth, closureLevel. cbn [index0 get_level Js.truthy].
  intros [-> | ->].
  - rewrite (proj1 (parseInt_number L Hsafe)). cbn.
    by destruct (Z.eqb_spec L 0) as [->|].
  - rewrite (proj2 (parseInt_number L Hsafe)). by rewrite Z_to_string_truthy.
Qed.

Lemma closureDepth_null (o : list (string * value)) (rest : list value) :
  Js.get o "level" = VNull \/ Js.get o "level" = VUndefined ->
  closureDepth (VArr (VObj o :: rest)) = Returns (VNum 1).
Proof.
  unfold closureDepth, closureLevel. cbn [index0 get_level Js.truthy].
  by intros [-> | ->].
Qed.

Lemma closure_run (env : Transport) (w : World) (r : ref) (c : DatabaseConnection)
    (tableName : string) (newEntityId parentId : value) (hasLevel : bool)
    (newId parent : string) :
  Js.to_string newEntityId = Some newId ->
  Js.to_string parentId = Some parent ->
  connectionIsNotSet (driver w) = false ->
  heap w !! r = Some c ->
  Js.truthy (fst (reply env w c (closureInsertQuery tableName newId parent hasLevel) None))
  = false ->
  Js.truthy (fst (reply env
     (mkWorld (heap w) (driver w)
        (issued w c (closureInsertQuery tableName newId parent hasLevel) None))
     c (closureLevelQuery tableName parent) None)) = false ->
  insertIntoClosureTable env r tableName newEntityId parentId hasLevel w
  = (closureDepth (snd (reply env
       (mkWorld (heap w) (driver w)
          (issued w c (closureInsertQuery tableName newId parent hasLevel) None))
       c (closureLevelQuery tableName parent) None)),
     mkWorld (heap w) (driver w)
       (issued (mkWorld (heap w) (driver w)
                  (issued w c (closureInsertQuery tableName newId parent hasLevel) None))
          c (closureLevelQuery tableName parent) None)).
Proof.
  intros Hn Hp Hset Hr H1 H2. unfold insertIntoClosureTable.
  unfold mbind, M_bind, bind at 1 2, lift. rewrite Hn, Hp. cbn [of_option].
  unfold bind at 1. rewrite (query_run env w r c) by done. rewrite H1.
  unfold bind. rewrite (query_run env _ r c) by done. cbn [heap driver]. rewrite H2.
  by destruct (closureDepth _).
Qed.

(** C8.  When both statements succeed, insertIntoClosureTable hands the
    client the insert statement and then the statement
    [SELECT MAX(level) as level FROM table WHERE descendant = parentId];
    it returns the level of the first row of the answer (a safe integer,
    as a number or as its decimal text) plus one, and 1 when the answer has
    no row or that level is null or missing. *)
Theorem closure_table_returns_depth (env : Transport) (w : World) (r : ref)
    (c : DatabaseConnection) (tableName : string) (newEntityId parentId : value)
    (hasLevel : bool) (newId parent : string) (results : value) :
  Js.to_string newEntityId = Some newId ->
  Js.to_string parentId = Some parent ->
  connectionIsNotSet (driver w) = false ->
  heap w !! r = Some c ->
  Js.truthy (fst (reply env w c (closureInsertQuery tableName newId parent hasLevel) None))
  = false ->
  Js.truthy (fst (reply env
     (mkWorld (heap w) (driver w)
        (issued w c (closureInsertQuery tableName newId parent hasLevel) None))
     c (closureLevelQuery tableName parent) None)) = false ->
  results = snd (reply env
     (mkWorld (heap w) (driver w)
        (issued w c (closureInsertQuery tableName newId parent hasLevel) None))
     c (closureLevelQuery tableName parent) None) ->
  trace (snd (insertIntoClosureTable env r tableName newEntityId parentId hasLevel w))
  = trace w
    ++ [LogQuery (closureInsertQuery tableName newId parent hasLevel);
        ClientQuery (connection c) (closureInsertQuery tableName newId parent hasLevel) None;
        LogQuery (closureLevelQuery tableName parent);
        ClientQuery (connection c) (closureLevelQuery tableName parent) None]
  /\ closureLevelQuery tableName parent
     = "SELECT MAX(level) as level FROM " +:+ tableName +:+ " WHERE descendant = " +:+ parent
  /\ (forall o rest L,
        results = VArr (VObj o :: rest) ->
        Js.safe L = true ->
        Js.get o "level" = VNum L \/ Js.get o "level" = VStr (Js.Z_to_string L) ->
        fst (insertIntoClosureTable env r tableName newEntityId parentId hasLevel w)
        = Returns (VNum (L + 1)))
  /\ (forall o rest,
        results = VArr (VObj o :: rest) ->
        Js.get o "level" = VNull \/ Js.get o "level" = VUndefined ->
        fst (insertIntoClosureTable env r tableName newEntityId parentId hasLevel w)
        = Returns (VNum 1))
  /\ (results = VArr [] ->
      fst (insertIntoClosureTable env r tableName newEntityId parentId hasLevel w)
      = Returns (VNum 1)).
Proof.
  intros Hn Hp Hset Hr H1 H2 Hres.
  rewrite (closure_run env w r c tableName newEntityId parentId hasLevel newId parent)
    by done.
  rewrite <- Hres. cbn [fst snd trace]. split_and!.
  - unfold issued. cbn [trace connection]. by rewrite <- app_assoc.
  - done.
  - intros o rest L -> Hsafe HL. by apply closureDepth_level.
  - intros o rest -> HL. by apply closureDepth_null.
  - by intros ->.
Qed.

Lemma closure_table_returns_depth_witness :
  fst (insertIntoClosureTable closure_env 0 "category_closure" (VNum 5) (VNum 3) true
         demo_pooled)
  = Returns (VNum 3).
Proof.
  destruct (closure_table_returns_depth closure_env demo_pooled 0
              (mkDatabaseConnection 0 100 false (Some 7)) "category_closure"
              (VNum 5) (VNum 3) true "5" "3" (VArr [VObj [("level", VNum 2)]]))
    as (_ & _ & H & _);
    [reflexivity | reflexivity | reflexivity | reflexivity | reflexivity
    | reflexivity | reflexivity |].
  apply (H [("level", VNum 2)] [] 2%Z); [reflexivity | reflexivity | left; reflexivity].
Defined.

(** ** The parameter rewriter *)

Section rewriter.
Import Rewriter.

Lemma word_not_meta (c : ascii) : Js.is_word c = true -> Js.is_meta c = false.
Proof. destruct c as [[] [] [] [] [] [] [] []]; cbn; intros; done. Qed.

Lemma word_not_colon (c : ascii) : Js.is_word c = true -> Ascii.eqb c ":" = false.
Proof. destruct c as [[] [] [] [] [] [] [] []]; cbn; intros; done. Qed.

Lemma identifier_literal (k : string) : identifier k = true -> Js.regex_literal k = true.
Proof.
  unfold identifier, Js.regex_literal. intros [_ Hw]%andb_prop. clear -Hw.
  induction k as [|c k IH]; [done|]. cbn [Js.all_chars] in *.
  apply andb_prop in Hw as [Hc Hw]. by rewrite (word_not_meta c Hc), IH.
Qed.

Lemma last_char_word (c : ascii) (k : string) :
  Js.is_word c = true -> Js.all_chars Js.is_word k = true ->
  Js.is_word (last_char c k) = true.
Proof.
  revert c. induction k as [|d k IH]; intros c Hc Hk; [done|].
  cbn [Js.all_chars last_char] in *.
  apply andb_prop in Hk as [Hd Hk]. by apply IH.
Qed.

Lemma identifier_last_word (k : string) :
  identifier k = true -> Js.is_word (last_char ":" k) = true.
Proof.
  unfold identifier. intros [Hne Hw]%andb_prop. destruct k as [|c k]; [done|].
  cbn [Js.all_chars last_char] in *. apply andb_prop in Hw as [Hc Hw].
  by apply last_char_word.
Qed.

(** Reading word characters off a text that goes on with [s], when [s]
    starts with a character that is no word character. *)
Lemma strip_word_app (k p s : string) :
  Js.all_chars Js.is_word k = true ->
  head_is_word s = false -> s <> EmptyString ->
  strip_prefix k (p +:+ s) = (fun rest => rest +:+ s) <$> strip_prefix k p.
Proof.
  intros Hk Hs Hne. revert p. induction k as [|a k IH]; intros p; [done|].
  cbn [Js.all_chars] in Hk. apply andb_prop in Hk as [Ha Hk].
  destruct p as [|d p].
  - rewrite str_app_nil_l. destruct s as [|e s]; [done|].
    cbn [head_is_word strip_prefix] in *.
    destruct (Ascii.eqb_spec a e) as [->|]; [congruence|done].
  - rewrite str_app_cons. cbn [strip_prefix].
    destruct (Ascii.eqb a d); [by apply IH|done].
Qed.

Lemma head_is_word_app (rest s : string) :
  head_is_word s = false -> head_is_word (rest +:+ s) = head_is_word rest.
Proof. intros Hs. by destruct rest. Qed.

Lemma match_key_app (k : string) (c : ascii) (p s : string) :
  identifier k = true ->
  head_is_word s = false -> s <> EmptyString ->
  match_key k (String c p +:+ s) = match_key k (String c p).
Proof.
  intros Hk Hs Hne. unfold match_key. rewrite str_app_cons. cbn [strip_prefix].
  destruct (Ascii.eqb ":" c); [|done].
  rewrite strip_word_app; [|by apply andb_prop in Hk as [_ ?]|done|done].
  destruct (strip_prefix k p) as [rest|]; [|done]. cbn.
  unfold word_boundary. by rewrite head_is_word_app.
Qed.

Lemma first_match_app (ks : list string) (c : ascii) (p s : string) :
  Forall (fun k => identifier k = true) ks ->
  head_is_word s = false -> s <> EmptyString ->
  first_match ks (String c p +:+ s) = first_match ks (String c p).
Proof.
  intros Hks Hs Hne. induction Hks as [|k ks Hk _ IH]; [done|]. cbn [first_match].
  by rewrite match_key_app, IH.
Qed.

Lemma strip_prefix_length (lit s rest : string) :
  strip_prefix lit s = Some rest ->
  String.length s = String.length lit + String.length rest.
Proof.
  revert s. induction lit as [|a lit IH]; intros s; cbn [strip_prefix].
  - by intros [= ->].
  - destruct s as [|d s]; [done|]. destruct (Ascii.eqb a d); [|done].
    intros H%IH. cbn. by rewrite H.
Qed.

Lemma first_match_length (ks : list string) (s key : string) :
  first_match ks s = Some key -> String.length key <= String.length s.
Proof.
  induction ks as [|k ks IH]; [done|]. cbn [first_match]. unfold match_key.
  destruct (strip_prefix (String ":" k) s) as [rest|] eqn:Hstrip; [|exact IH].
  destruct (word_boundary _ rest); [|exact IH].
  intros [= <-]. apply strip_prefix_length in Hstrip. lia.
Qed.

(** The scan of a text that goes on with a named token splits at the token:
    no match in the first part reaches into the token. *)
Lemma replace_all_app (parameters : list (string * value)) (pre s : string) (skip : nat)
    (built : list value) :
  Forall (fun k => identifier k = true) (Js.keys parameters) ->
  head_is_word s = false -> s <> EmptyString ->
  skip <= String.length pre ->
  replace_all parameters (pre +:+ s) skip built
  = (let '(o1, b1) := replace_all parameters pre skip built in
     let '(o2, b2) := replace_all parameters s 0 b1 in
     (o1 +:+ o2, b2)).
Proof.
  intros Hks Hs Hne. revert skip built.
  induction pre as [|c pre IH]; intros skip built Hskip.
  - cbn in Hskip. assert (skip = 0) as -> by lia. rewrite str_app_nil_l. cbn.
    by destruct (replace_all parameters s 0 built).
  - destruct skip as [|n].
    + rewrite str_app_cons.
      cbn [replace_all]. rewrite <- str_app_cons.
      rewrite first_match_app by done.
      destruct (first_match (Js.keys parameters) (String c pre)) as [key|] eqn:Hm.
      * destruct (replacer parameters key built) as [rep b'].
        apply first_match_length in Hm. cbn in Hm.
        rewrite IH by lia.
        destruct (replace_all parameters pre _ b') as [o1 b1].
        destruct (replace_all parameters s 0 b1) as [o2 b2].
        by rewrite str_app_assoc.
      * rewrite IH by lia.
        destruct (replace_all parameters pre 0 built) as [o1 b1].
        by destruct (replace_all parameters s 0 b1) as [o2 b2].
    + rewrite str_app_cons. cbn [replace_all]. cbn in Hskip. apply IH. lia.
Qed.

Lemma replace_all_skip (parameters : list (string * value)) (x s : string)
    (built : list value) :
  replace_all parameters (x +:+ s) (String.length x) built
  = replace_all parameters s 0 built.
Proof. induction x as [|c x IH]; [done|]. rewrite str_app_cons. cbn. apply IH. Qed.

Lemma strip_prefix_self (lit s : string) : strip_prefix lit (lit +:+ s) = Some s.
Proof.
  induction lit as [|a lit IH]; [done|]. rewrite str_app_cons. cbn [strip_prefix].
  by rewrite Ascii.eqb_refl.
Qed.

Lemma strip_word_token (k name post rest : string) :
  Js.all_chars Js.is_word k = true ->
  head_is_word post = false ->
  strip_prefix k (name +:+ post) = Some rest ->
  exists m, name = k +:+ m /\ rest = m +:+ post.
Proof.
  intros Hk Hpost. revert name. induction k as [|a k IH]; intros name.
  - cbn. intros [= <-]. by exists name.
  - cbn [Js.all_chars] in Hk. apply andb_prop in Hk as [Ha Hk].
    destruct name as [|d name].
    + rewrite str_app_nil_l. destruct post as [|e post]; [done|].
      cbn [strip_prefix head_is_word] in *.
      destruct (Ascii.eqb_spec a e) as [->|]; [congruence|done].
    + rewrite str_app_cons. cbn [strip_prefix].
      destruct (Ascii.eqb_spec a d) as [->|]; [|done].
      intros (m & -> & ->)%IH; [|done]. by exists m.
Qed.

(** At a token [:name] followed by no word character, the alternative of
    [name] matches, and no other does. *)
Lemma match_key_token (k name post : string) :
  identifier k = true -> identifier name = true ->
  head_is_word post = false ->
  match_key k (String ":" name +:+ post) = true <-> k = name.
Proof.
  intros Hk Hname Hpost. unfold match_key. split.
  - rewrite str_app_cons. cbn [strip_prefix]. rewrite Ascii.eqb_refl.
    destruct (strip_prefix k (name +:+ post)) as [rest|] eqn:Hstrip; [|done].
    apply strip_word_token in Hstrip as (m & -> & ->);
      [|by apply andb_prop in Hk as [_ ?]|done].
    unfold word_boundary. rewrite identifier_last_word by done.
    destruct m as [|c m]; [by rewrite str_app_nil_r|].
    rewrite str_app_cons. cbn [head_is_word].
    apply andb_prop in Hname as [_ Hname]. clear -Hname.
    assert (Js.is_word c = true) as ->; [|done].
    induction k as [|a k IH]; cbn [Js.all_chars] in *; rewrite ?str_app_nil_l in *;
      rewrite ?str_app_cons in *; cbn [Js.all_chars] in *;
      apply andb_prop in Hname as [? ?]; auto.
  - intros ->. rewrite strip_prefix_self.
    unfold word_boundary. by rewrite identifier_last_word, Hpost.
Qed.

Lemma first_match_token (ks : list string) (name post : string) :
  Forall (fun k => identifier k = true) ks ->
  name ∈ ks ->
  head_is_word post = false ->
  first_match ks (String ":" name +:+ post) = Some (String ":" name).
Proof.
  intros Hks Hin Hpost.
  assert (identifier name = true) as Hname.
  { by eapply (proj1 (Forall_forall _ _) Hks). }
  induction Hks as [|k ks Hk Hks IH]; [by apply elem_of_nil in Hin|].
  cbn [first_match].
  destruct (match_key k (String ":" name +:+ post)) eqn:Hm.
  - by apply match_key_token in Hm as ->.
  - apply IH. apply elem_of_cons in Hin as [Heq|Hin]; [|done]. subst k.
    by rewrite (proj2 (match_key_token name name post Hk Hk Hpost)) in Hm.
Qed.

Lemma push_all_spec (vs built : list value) :
  push_all vs built
  = (placeholder <$> seq (length built + 1) (length vs), built ++ vs).
Proof.
  revert built. induction vs as [|v vs IH]; intros built.
  - cbn. by rewrite app_nil_r.
  - cbn [push_all]. rewrite IH, length_app. cbn. rewrite <- app_assoc. cbn.
    by rewrite (Nat.add_1_r (length built + 1)).
Qed.

Lemma replace_all_plain (parameters : list (string * value)) (s : string)
    (built : list value) :
  Js.all_chars (fun c => negb (Ascii.eqb c ":")) s = true ->
  replace_all parameters s 0 built = (s, built).
Proof.
  induction s as [|c s IH]; [done|]. cbn [Js.all_chars replace_all].
  intros [Hc Hs]%andb_prop.
  assert (first_match (Js.keys parameters) (String c s) = None) as ->.
  { induction (Js.keys parameters) as [|k ks IHk]; [done|]. cbn [first_match].
    unfold match_key. cbn [strip_prefix]. rewrite Ascii.eqb_sym.
    by destruct (Ascii.eqb c ":"). }
  by rewrite IH.
Qed.

(** The rewriting of a text around one bound token. *)
Lemma escape_token (parameters : list (string * value)) (pre name post : string) :
  Forall (fun k => identifier k = true) (Js.keys parameters) ->
  name ∈ Js.keys parameters ->
  head_is_word post = false ->
  escapeQueryWithParameters (pre +:+ String ":" name +:+ post) (Some parameters)
  = (let '(o1, b1) := replace_all parameters pre 0 [] in
     let '(rep, b2) := replacer parameters (String ":" name) b1 in
     let '(o2, b3) := replace_all parameters post 0 b2 in
     Returns (o1 +:+ rep +:+ o2, b3)).
Proof.
  intros Hks Hin Hpost. unfold escapeQueryWithParameters.
  destruct (decide (length (Js.keys parameters) = 0)) as [Hlen|_].
  { apply nil_length_inv in Hlen. rewrite Hlen in Hin. by apply elem_of_nil in Hin. }
  assert (forallb Js.regex_literal (Js.keys parameters) = true) as ->.
  { apply forallb_forall. intros k Hk%list_elem_of_In.
    apply identifier_literal. by eapply (proj1 (Forall_forall _ _) Hks). }
  rewrite replace_all_app by (done || lia).
  destruct (replace_all parameters pre 0 []) as [o1 b1].
  rewrite str_app_cons. cbn [replace_all]. rewrite <- str_app_cons.
  rewrite first_match_token by done.
  destruct (replacer parameters (String ":" name) b1) as [rep b2].
  cbn [String.length].
  replace (S (String.length name) - 1) with (String.length name) by lia.
  rewrite replace_all_skip.
  by destruct (replace_all parameters post 0 b2) as [o2 b3].
Qed.

End rewriter.

(** C6.  With no parameter map, or an empty one, the SQL comes back
    unchanged with no arguments.  A token bound to a sequence of n values
    is replaced by n placeholders with consecutive numbers, joined by a
    comma and a space, and the values are appended to the arguments in
    order.  On the example of the specification the result is
    [$1] for v1, [$2, $3, $4] for v2 and the arguments 5, 1, 2, 3. *)
Theorem escape_query_with_parameters :
  (forall sql,
     escapeQueryWithParameters sql None = Returns (sql, [])
     /\ escapeQueryWithParameters sql (Some []) = Returns (sql, []))
  /\ (forall (parameters : list (string * value)) (pre name post : string)
        (vs : list value),
        Forall (fun k => Rewriter.identifier k = true) (Js.keys parameters) ->
        name ∈ Js.keys parameters ->
        Js.get parameters name = VArr vs ->
        Rewriter.head_is_word post = false ->
        escapeQueryWithParameters (pre +:+ String ":" name +:+ post) (Some parameters)
        = (let '(o1, b1) := Rewriter.replace_all parameters pre 0 [] in
           let '(o2, b2) := Rewriter.replace_all parameters post 0 (b1 ++ vs) in
           Returns (o1
                    +:+ Js.join ", " (Rewriter.placeholder
                                        <$> seq (length b1 + 1) (length vs))
                    +:+ o2, b2)))
  /\ escapeQueryWithParameters "SELECT * FROM t WHERE x = :v1 AND y IN (:v2)"
       (Some [("v1", VNum 5); ("v2", VArr [VNum 1; VNum 2; VNum 3])])
     = Returns ("SELECT * FROM t WHERE x = $1 AND y IN ($2, $3, $4)",
                [VNum 5; VNum 1; VNum 2; VNum 3]).
Proof.
  split_and!.
  - done.
  - intros parameters pre name post vs Hks Hin Hget Hpost.
    rewrite escape_token by done.
    destruct (Rewriter.replace_all parameters pre 0 []) as [o1 b1].
    unfold Rewriter.replacer. cbn [Js.substr1]. rewrite Hget.
    by rewrite push_all_spec.
  - vm_compute. reflexivity.
Qed.

Lemma escape_query_with_parameters_witness :
  escapeQueryWithParameters "y IN (:v2)" (Some [("v2", VArr [VNum 1; VNum 2; VNum 3])])
  = Returns ("y IN ($1, $2, $3)", [VNum 1; VNum 2; VNum 3]).
Proof.
  apply (proj1 (proj2 escape_query_with_parameters)
           [("v2", VArr [VNum 1; VNum 2; VNum 3])] "y IN (" "v2" ")"
           [VNum 1; VNum 2; VNum 3]).
  - repeat constructor.
  - repeat constructor.
  - reflexivity.
  - reflexivity.
Defined.

(** C10.  A token bound to an empty sequence is replaced by the empty
    string and adds nothing to the arguments: the text before the token and
    the text after it are rewritten as they would be without it, and when
    neither holds a colon the result is the two texts side by side with no
    arguments, as in [IN ()]. *)
Theorem empty_sequence_erases_token (parameters : list (string * value))
    (pre name post : string) :
  Forall (fun k => Rewriter.identifier k = true) (Js.keys parameters) ->
  name ∈ Js.keys parameters ->
  Js.get parameters name = VArr [] ->
  Rewriter.head_is_word post = false ->
  escapeQueryWithParameters (pre +:+ String ":" name +:+ post) (Some parameters)
  = (let '(o1, b1) := Rewriter.replace_all parameters pre 0 [] in
     let '(o2, b2) := Rewriter.replace_all parameters post 0 b1 in
     Returns (o1 +:+ EmptyString +:+ o2, b2))
  /\ (Js.all_chars (fun c => negb (Ascii.eqb c ":")) (pre +:+ post) = true ->
      escapeQueryWithParameters (pre +:+ String ":" name +:+ post) (Some parameters)
      = Returns (pre +:+ post, [])).
Proof.
  intros Hks Hin Hget Hpost.
  assert (escapeQueryWithParameters (pre +:+ String ":" name +:+ post) (Some parameters)
          = (let '(o1, b1) := Rewriter.replace_all parameters pre 0 [] in
             let '(o2, b2) := Rewriter.replace_all parameters post 0 b1 in
             Returns (o1 +:+ EmptyString +:+ o2, b2))) as E.
  { rewrite escape_token by done.
    destruct (Rewriter.replace_all parameters pre 0 []) as [o1 b1].
    unfold Rewriter.replacer. cbn [Js.substr1]. rewrite Hget. done. }
  split; [exact E|].
  intros Hplain. rewrite E.
  assert (Js.all_chars (fun c => negb (Ascii.eqb c ":")) pre = true
          /\ Js.all_chars (fun c => negb (Ascii.eqb c ":")) post = true) as [Hpre Hpo].
  { clear -Hplain. induction pre as [|c pre IH]; [done|].
    rewrite str_app_cons in Hplain. cbn [Js.all_chars] in *.
    apply andb_prop in Hplain as [-> [? ?]%IH]. done. }
  by rewrite !replace_all_plain.
Qed.

Lemma empty_sequence_erases_token_witness :
  escapeQueryWithParameters "SELECT * FROM t WHERE y IN (:list)" (Some [("list", VArr [])])
  = Returns ("SELECT * FROM t WHERE y IN ()", []).
Proof.
  apply (proj2 (empty_sequence_erases_token [("list", VArr [])]
                  "SELECT * FROM t WHERE y IN (" "list" ")"
                  ltac:(repeat constructor) ltac:(repeat constructor) eq_refl eq_refl)).
  reflexivity.
Defined.

(** ** The type marshaller: simple arrays *)

Lemma split_comma_free (t : string) : comma_free t = true -> Js.split "," t = [t].
Proof.
  unfold comma_free. induction t as [|c t IH]; [done|]. cbn [Js.all_chars Js.split].
  intros [Hc Ht]%andb_prop. apply negb_true_iff in Hc. rewrite Hc. by rewrite IH.
Qed.

Lemma split_app (t rest : string) :
  comma_free t = true ->
  Js.split "," (t +:+ "," +:+ rest) = t :: Js.split "," rest.
Proof.
  unfold comma_free. induction t as [|c t IH].
  - intros _. by rewrite str_app_nil_l, str_app_cons, str_app_nil_l.
  - cbn [Js.all_chars]. intros [Hc Ht]%andb_prop. apply negb_true_iff in Hc.
    rewrite str_app_cons. cbn [Js.split]. rewrite Hc. by rewrite IH.
Qed.

Lemma split_join (l : list string) :
  l <> [] -> Forall (fun t => comma_free t = true) l ->
  Js.split "," (Js.join "," l) = l.
Proof.
  intros Hne Hl. induction Hl as [|t l Ht Hl IH]; [done|].
  destruct l as [|t' l].
  - cbn. by apply split_comma_free.
  - change (Js.join "," (t :: t' :: l)) with (t +:+ "," +:+ Js.join "," (t' :: l)).
    rewrite split_app by done. by rewrite IH.
Qed.

Lemma map_String_strings (l : list string) : map_String (VStr <$> l) = Some l.
Proof. induction l as [|t l IH]; [done|]. cbn. by rewrite IH. Qed.

(** ** The type marshaller: dates *)

Section moment.
Import Moment.

Lemma digit_value_digit (n : nat) : digit_value (digit n) = Some (n mod 10).
Proof.
  unfold digit_value, digit.
  pose proof (Nat.mod_upper_bound n 10 ltac:(done)) as Hlt.
  rewrite nat_ascii_embedding by lia.
  destruct (Nat.leb_spec 48 (48 + n mod 10)); [|lia].
  destruct (Nat.leb_spec (48 + n mod 10) 57); [|lia].
  cbn [andb]. f_equal. lia.
Qed.

Lemma take2_pad2 (n : nat) (r : string) : n < 100 -> take2 (pad2 n +:+ r) = Some (n, r).
Proof.
  intros Hn. unfold pad2. rewrite !str_app_cons, str_app_nil_l. unfold take2.
  rewrite !digit_value_digit. cbn [mbind option_bind].
  do 2 f_equal. rewrite (Nat.mod_small (n / 10)) by (apply Nat.Div0.div_lt_upper_bound; lia).
  pose proof (Nat.div_mod_eq n 10). lia.
Qed.

Lemma take4_pad4 (n : nat) (r : string) :
  n / 100 < 100 -> take4 (pad4 n +:+ r) = Some (n, r).
Proof.
  intros Hn.
  unfold pad4, pad2. rewrite !str_app_cons, str_app_nil_l. unfold take4, take2.
  repeat first [rewrite !digit_value_digit | progress cbn [mbind option_bind]].
  do 2 f_equal.
  assert (n / 100 = n / 10 / 10) as E1 by (by rewrite Nat.Div0.div_div).
  assert (n / 1000 = n / 100 / 10) as E2 by (by rewrite Nat.Div0.div_div).
  assert (n / 1000 < 10) as Hc.
  { rewrite E2. apply Nat.Div0.div_lt_upper_bound. exact Hn. }
  rewrite (Nat.mod_small (n / 1000)) by done.
  pose proof (Nat.div_mod_eq n 10). pose proof (Nat.div_mod_eq (n / 10) 10).
  pose proof (Nat.div_mod_eq (n / 100) 10).
  lia.
Qed.

Lemma valid_day_bounds (y mo d : nat) :
  valid_day y mo d = true -> y / 100 < 100 /\ mo < 100 /\ d < 100.
Proof.
  unfold valid_day. intros H. repeat (apply andb_prop in H as [H ?]).
  apply Nat.ltb_lt in H.
  repeat match goal with
         | H : (_ <=? _) = true |- _ => apply Nat.leb_le in H
         end.
  split_and!; [done|lia|].
  assert (days_in_month y mo <= 31); [|lia].
  unfold days_in_month. do 13 (destruct mo as [|mo]; [lia || (destruct (is_leap y); lia)|]). lia.
Qed.

Lemma valid_time_bounds (h mi sec : nat) :
  valid_time h mi sec = true -> h < 100 /\ mi < 100 /\ sec < 100.
Proof.
  unfold valid_time. intros H. repeat (apply andb_prop in H as [H ?]).
  repeat match goal with
         | H : (_ <? _) = true |- _ => apply Nat.ltb_lt in H
         end.
  lia.
Qed.

Lemma take_day_format (y mo d : nat) (r : string) :
  valid_day y mo d = true ->
  take_day (format_day y mo d +:+ r) = Some (y, mo, d, r).
Proof.
  intros Hv. destruct (valid_day_bounds y mo d Hv) as (Hy & Hmo & Hd).
  unfold take_day, format_day. rewrite !str_app_assoc.
  rewrite take4_pad4 by done. cbn [mbind option_bind]. rewrite str_app_cons, str_app_nil_l.
  cbn [take_char]. rewrite Ascii.eqb_refl. cbn [mbind option_bind].
  rewrite take2_pad2 by done. cbn [mbind option_bind]. rewrite str_app_cons, str_app_nil_l.
  cbn [take_char]. rewrite Ascii.eqb_refl. cbn [mbind option_bind].
  rewrite take2_pad2 by done. cbn [mbind option_bind]. by rewrite Hv.
Qed.

Lemma take_time_format (h mi sec : nat) (r : string) :
  valid_time h mi sec = true ->
  take_time (format_time h mi sec +:+ r) = Some (h, mi, sec, r).
Proof.
  intros Hv. destruct (valid_time_bounds h mi sec Hv) as (Hh & Hmi & Hs).
  unfold take_time, format_time. rewrite !str_app_assoc.
  rewrite take2_pad2 by done. cbn [mbind option_bind]. rewrite str_app_cons, str_app_nil_l.
  cbn [take_char]. rewrite Ascii.eqb_refl. cbn [mbind option_bind].
  rewrite take2_pad2 by done. cbn [mbind option_bind]. rewrite str_app_cons, str_app_nil_l.
  cbn [take_char]. rewrite Ascii.eqb_refl. cbn [mbind option_bind].
  rewrite take2_pad2 by done. cbn [mbind option_bind]. by rewrite Hv.
Qed.

Lemma parse_day_format (y mo d : nat) :
  valid_day y mo d = true -> parse_day (format_day y mo d) = Some (y, mo, d).
Proof.
  intros Hv. unfold parse_day.
  rewrite <- (str_app_nil_r (format_day y mo d)), take_day_format by done. done.
Qed.

Lemma parse_time_format (h mi sec : nat) :
  valid_time h mi sec = true -> parse_time (format_time h mi sec) = Some (h, mi, sec).
Proof.
  intros Hv. unfold parse_time.
  rewrite <- (str_app_nil_r (format_time h mi sec)), take_time_format by done. done.
Qed.

Lemma parse_datetime_format (y mo d h mi sec : nat) :
  valid_day y mo d = true -> valid_time h mi sec = true ->
  parse_datetime (format_day y mo d +:+ " " +:+ format_time h mi sec)
  = Some (y, mo, d, (h, mi, sec)).
Proof.
  intros Hd Ht. unfold parse_datetime.
  rewrite take_day_format by done. cbn [mbind option_bind].
  rewrite str_app_cons, str_app_nil_l. cbn [take_char]. rewrite Ascii.eqb_refl.
  cbn [mbind option_bind].
  rewrite <- (str_app_nil_r (format_time h mi sec)), take_time_format by done. done.
Qed.

End moment.

(** ** The type marshaller: JSON *)

Section json.
Import Json.

Lemma parse_chars_escape_char (c : ascii) (rest : string) :
  parse_chars (escape_char c +:+ rest)
  = obind (parse_chars rest) (fun '(t, r) => Returns (String c t, r)).
Proof. destruct c as [[] [] [] [] [] [] [] []]; reflexivity. Qed.

(** A quoted string reads back as the string. *)
Lemma parse_chars_escape (t r : string) :
  parse_chars (escape t +:+ Js.dquote +:+ r) = Returns (t, r).
Proof.
  induction t as [|c t IH]; [done|]. cbn [escape].
  by rewrite str_app_assoc, parse_chars_escape_char, IH.
Qed.

Lemma closes_no_digit (r : string) : closes r = true -> Digits.no_digit_head r = true.
Proof.
  destruct r as [|c r]; [done|]. cbn [closes Digits.no_digit_head].
  destruct c as [[] [] [] [] [] [] [] []]; cbn; intros; done.
Qed.

Lemma closes_no_fraction (r : string) :
  closes r = true ->
  match r with
  | String c _ => Ascii.eqb c "." || Ascii.eqb c "e" || Ascii.eqb c "E"
  | EmptyString => false
  end = false.
Proof.
  destruct r as [|c r]; [done|]. cbn [closes].
  destruct c as [[] [] [] [] [] [] [] []]; cbn; intros; done.
Qed.

Lemma canonical_unorm (u : Decimal.uint) : Decimal.unorm u = u -> Digits.canonical u = true.
Proof.
  intros H. unfold Digits.canonical. rewrite H. by apply Decimal.internal_uint_dec_lb.
Qed.

(** The text of a safe integer reads back as the integer. *)
Lemma parse_number_print (z : Z) (r : string) :
  Js.safe z = true -> closes r = true ->
  parse_number (Js.Z_to_string z +:+ r) = Returns (VNum z, r).
Proof.
  intros Hsafe Hr.
  destruct (Z_to_string_cases z) as (u & negative & Hu & Hnorm & -> & Hz).
  rewrite Hz, safe_abs in Hsafe. unfold parse_number.
  assert (match (if negative then "-" else EmptyString) +:+ NilEmpty.string_of_uint u +:+ r
          with
          | String c r0 =>
              if Ascii.eqb c "-" then (true, r0)
              else (false, (if negative then "-" else EmptyString)
                           +:+ NilEmpty.string_of_uint u +:+ r)
          | EmptyString => (false, (if negative then "-" else EmptyString)
                                   +:+ NilEmpty.string_of_uint u +:+ r)
          end = (negative, NilEmpty.string_of_uint u +:+ r)) as E.
  { destruct (string_of_uint_head u Hu) as (c & f & u' & Hc & _ & ->).
    destruct (digit_cons_facts c f Hc) as (_ & Hm & _).
    destruct negative; rewrite ?str_app_cons, ?str_app_nil_l; [done|]. by rewrite Hm. }
  rewrite str_app_assoc, E. rewrite read_digits_print by (by apply closes_no_digit).
  rewrite canonical_unorm by done. rewrite Hsafe. cbn [negb].
  pose proof (closes_no_fraction r Hr) as Hf. rewrite Hz.
  destruct r as [|c r]; [done|]. by rewrite Hf.
Qed.

Lemma define_fresh (o : list (string * value)) (k : string) (v : value) :
  k ∉ Js.keys o -> define o k v = o ++ [(k, v)].
Proof.
  induction o as [|[k' v'] o IH]; [done|]. cbn [define Js.keys map fst].
  intros [Hne Hk]%not_elem_of_cons.
  destruct (String.eqb_spec k' k) as [->|]; [done|]. cbn. by rewrite IH.
Qed.

Lemma from_entries_acc (l acc : list (string * value)) :
  NoDup (Js.keys (acc ++ l)) ->
  fold_left (fun o '(k, v) => define o k v) l acc = acc ++ l.
Proof.
  revert acc. induction l as [|[k v] l IH]; intros acc Hn.
  - by rewrite app_nil_r.
  - cbn [fold_left]. rewrite define_fresh.
    + rewrite IH; rewrite <- app_assoc; done.
    + unfold Js.keys in *. rewrite map_app in Hn. cbn in Hn.
      apply NoDup_app in Hn as (_ & Hn & _). intros Hin. apply (Hn k Hin). left.
Qed.

Lemma from_entries_nodup (o : list (string * value)) :
  NoDup (Js.keys o) -> from_entries o = o.
Proof. intros Hn. unfold from_entries. by rewrite from_entries_acc. Qed.

Lemma value_nested_ind (P : value -> Prop) :
  P VUndefined -> P VNull -> (forall b, P (VBool b)) -> (forall n, P (VNum n)) ->
  P VNaN -> (forall t, P (VStr t)) ->
  (forall y mo d h mi sec ms, P (VDate y mo d h mi sec ms)) ->
  (forall l, Forall P l -> P (VArr l)) ->
  (forall o, Forall (fun kv => P (snd kv)) o -> P (VObj o)) ->
  forall v, P v.
Proof.
  intros Hu Hn Hb Hz Hnan Hs Hd Ha Ho. fix IH 1.
  intros [| |b|n| |t|y mo d h mi sec ms|l|o];
    [apply Hu|apply Hn|apply Hb|apply Hz|apply Hnan|apply Hs|apply Hd| |].
  - apply Ha. induction l as [|x l IHl]; constructor; [apply IH|apply IHl].
  - apply Ho. induction o as [|[k x] o IHo]; constructor; [apply IH|apply IHo].
Qed.

Lemma starts_value_facts (c : ascii) :
  starts_value c = true ->
  is_ws c = false /\ Ascii.eqb c "]" = false /\ Ascii.eqb c "}" = false.
Proof. destruct c as [[] [] [] [] [] [] [] []]; cbn; intros; done. Qed.

Lemma number_start_facts (c : ascii) :
  (Ascii.eqb c "-" || match Digits.digit_cons c with Some _ => true | None => false end)
  = true ->
  starts_value c = true /\ Ascii.eqb c "n" = false /\ Ascii.eqb c "t" = false
  /\ Ascii.eqb c "f" = false /\ Ascii.eqb c "034" = false /\ Ascii.eqb c "[" = false
  /\ Ascii.eqb c "{" = false.
Proof. destruct c as [[] [] [] [] [] [] [] []]; cbn; intros; done. Qed.

Lemma Z_to_string_head (z : Z) :
  exists c t, Js.Z_to_string z = String c t
    /\ (Ascii.eqb c "-"
        || match Digits.digit_cons c with Some _ => true | None => false end) = true.
Proof.
  destruct (Z_to_string_cases z) as (u & negative & Hu & _ & -> & _).
  destruct (string_of_uint_head u Hu) as (c & f & u' & Hc & _ & ->).
  destruct negative.
  - by eexists _, _.
  - exists c, (NilEmpty.string_of_uint u'). rewrite str_app_nil_l, Hc.
    split; [done|]. apply orb_true_r.
Qed.

Lemma parse_value_number (fuel : nat) (c : ascii) (t r : string) :
  (Ascii.eqb c "-" || match Digits.digit_cons c with Some _ => true | None => false end)
  = true ->
  parse_value (S fuel) (String c t +:+ r) = parse_number (String c t +:+ r).
Proof.
  intros Hc. destruct (number_start_facts c Hc) as (Hv & Hn & Ht & Hf & Hq & Ha & Ho).
  destruct (starts_value_facts c Hv) as (Hws & _).
  rewrite str_app_cons. cbn [parse_value skip_ws]. rewrite Hws.
  by rewrite Hn, Ht, Hf, Hq, Ha, Ho.
Qed.

Lemma join_cons (sep t : string) (ts : list string) :
  ts <> [] -> Js.join sep (t :: ts) = t +:+ sep +:+ Js.join sep ts.
Proof. by destruct ts. Qed.

Lemma elements_read_back (l : list value) :
  Forall (fun x => plain x = true -> reads_back x) l ->
  forallb plain l = true ->
  exists ts,
    elements_text print l = Some ts
    /\ length ts = length l
    /\ (l <> [] -> exists c t', Js.join "," ts = String c t' /\ starts_value c = true)
    /\ forall fuel r, l <> [] -> S (String.length (Js.join "," ts)) <= fuel ->
         parse_elements fuel (Js.join "," ts +:+ "]" +:+ r) = Returns (l, r).
Proof.
  induction 1 as [|x l Hx Hl IH]; intros Hplain.
  { exists []. split_and!; done. }
  cbn [forallb] in Hplain. apply andb_prop in Hplain as [Hpx Hpl].
  destruct (Hx Hpx) as (t & Ht & (c & t' & -> & Hc) & Hparse).
  destruct (IH Hpl) as (ts & Hts & Hlen & Hhead & Hrest).
  exists (String c t' :: ts). cbn [elements_text]. rewrite Ht.
  change ((fix elements (l0 : list value) : option (list string) := _) l)
    with (elements_text print l).
  rewrite Hts. split_and!; [done|by cbn; rewrite Hlen| |].
  - intros _. exists c. destruct ts; eauto.
  - intros fuel r _ Hfuel. destruct fuel as [|fuel]; [lia|].
    cbn [parse_elements].
    destruct l as [|y l].
    + destruct ts; [|done]. cbn [Js.join String.concat] in *.
      rewrite Hparse; [|reflexivity|cbn [String.length] in *; lia]. cbn [obind].
      by rewrite str_app_cons, str_app_nil_l.
    + assert (ts <> []) as Hne by (by destruct ts).
      rewrite join_cons in * by done.
      rewrite !str_app_length in Hfuel. cbn [String.length] in Hfuel.
      rewrite !str_app_assoc.
      rewrite Hparse; [|reflexivity|cbn [String.length]; lia]. cbn [obind].
      rewrite str_app_cons, str_app_nil_l. cbn [skip_ws]. change (is_ws ",") with false.
      cbn iota. rewrite Ascii.eqb_refl.
      rewrite Hrest by (done || lia). done.
Qed.

Lemma dquote_app (t : string) : Js.dquote +:+ t = String "034" t.
Proof. reflexivity. Qed.

Lemma members_read_back (o : list (string * value)) :
  Forall (fun kv => plain (snd kv) = true -> reads_back (snd kv)) o ->
  forallb (fun kv => plain (snd kv)) o = true ->
  exists ms,
    members_text print o = Some ms
    /\ length ms = length o
    /\ (o <> [] -> exists t', Js.join "," ms = String "034" t')
    /\ forall fuel r, o <> [] -> S (String.length (Js.join "," ms)) <= fuel ->
         parse_members fuel (Js.join "," ms +:+ "}" +:+ r) = Returns (o, r).
Proof.
  induction 1 as [|[k x] o Hx Ho IH]; intros Hplain.
  { exists []. split_and!; done. }
  cbn [forallb snd] in Hplain, Hx. apply andb_prop in Hplain as [Hpx Hpo].
  destruct (Hx Hpx) as (t & Ht & (c & t' & -> & Hc) & Hparse).
  destruct (IH Hpo) as (ms & Hms & Hlen & Hhead & Hrest).
  exists ((quote k +:+ ":" +:+ String c t') :: ms). cbn [members_text]. rewrite Ht.
  change ((fix members (o0 : list (string * value)) : option (list string) := _) o)
    with (members_text print o).
  rewrite Hms. split_and!; [done|by cbn; rewrite Hlen| |].
  - intros _. unfold quote. destruct ms; cbn [Js.join String.concat];
      rewrite !str_app_assoc, dquote_app; eauto.
  - intros fuel r _ Hfuel. destruct fuel as [|fuel]; [lia|].
    assert (forall rest,
      closes rest = true ->
      String.length (quote k +:+ ":" +:+ String c t') <= fuel ->
      parse_members (S fuel) ((quote k +:+ ":" +:+ String c t') +:+ rest)
      = match skip_ws rest with
        | String c0 r' =>
            if Ascii.eqb c0 ","
            then obind (parse_members fuel r') (fun '(l, r) => Returns ((k, x) :: l, r))
            else if Ascii.eqb c0 "}" then Returns ([(k, x)], r')
                 else Throws SyntaxError
        | EmptyString => Throws SyntaxError
        end) as Hstep.
    { intros rest Hclose Hlen'. unfold quote in *.
      rewrite !str_app_assoc. rewrite (dquote_app (escape k +:+ _)).
      cbn [parse_members skip_ws]. change (is_ws "034") with false. cbn iota.
      rewrite Ascii.eqb_refl. rewrite parse_chars_escape. cbn [obind].
      rewrite (str_app_cons ":"), str_app_nil_l. cbn [skip_ws].
      change (is_ws ":") with false. cbn iota. rewrite Ascii.eqb_refl.
      rewrite Hparse; [done|done|].
      rewrite !str_app_length in Hlen'. cbn [String.length] in *. lia. }
    destruct o as [|y o].
    + destruct ms; [|done]. cbn [Js.join String.concat] in *.
      rewrite Hstep; [|reflexivity|lia].
      by rewrite str_app_cons, str_app_nil_l.
    + assert (ms <> []) as Hne by (by destruct ms).
      rewrite join_cons in * by done.
      rewrite (str_app_length _ ("," +:+ _)), (str_app_length ",") in Hfuel.
      cbn [String.length] in Hfuel.
      rewrite (str_app_assoc _ ("," +:+ _)).
      rewrite Hstep; [|reflexivity|lia].
      rewrite str_app_assoc, str_app_cons, str_app_nil_l. cbn [skip_ws].
      change (is_ws ",") with false. cbn iota. rewrite Ascii.eqb_refl.
      rewrite Hrest by (done || lia). done.
Qed.

Lemma parse_value_open_string (fuel : nat) (s : string) :
  parse_value (S fuel) (String "034" s)
  = obind (parse_chars s) (fun '(t, r) => Returns (VStr t, r)).
Proof. reflexivity. Qed.

Lemma parse_value_open_array (fuel : nat) (s : string) :
  parse_value (S fuel) (String "[" s)
  = match skip_ws s with
    | String d r' =>
        if Ascii.eqb d "]" then Returns (VArr [], r')
        else obind (parse_elements fuel (String d r')) (fun '(l, r) => Returns (VArr l, r))
    | EmptyString => Throws SyntaxError
    end.
Proof. reflexivity. Qed.

Lemma parse_value_open_object (fuel : nat) (s : string) :
  parse_value (S fuel) (String "{" s)
  = match skip_ws s with
    | String d r' =>
        if Ascii.eqb d "}" then Returns (VObj [], r')
        else obind (parse_members fuel (String d r'))
               (fun '(l, r) =>
                  if existsb all_digits (Js.keys l) then Beyond
                  else Returns (VObj (from_entries l), r))
    | EmptyString => Throws SyntaxError
    end.
Proof. reflexivity. Qed.

Lemma reads_back_intro (v : value) (c : ascii) (t : string) :
  print v = Some (Some (String c t)) ->
  starts_value c = true ->
  (forall fuel r,
     closes r = true -> String.length (String c t) <= S fuel ->
     parse_value (S fuel) (String c t +:+ r) = Returns (v, r)) ->
  reads_back v.
Proof.
  intros Hprint Hc Hparse. exists (String c t). split_and!; [done|by eauto|].
  intros fuel r Hr Hfuel. destruct fuel as [|fuel]; [cbn in Hfuel; lia|]. by apply Hparse.
Qed.

(** Every plain value has a text, and the text reads back as the value. *)
Lemma plain_reads_back (v : value) : plain v = true -> reads_back v.
Proof.
  induction v as [| |b|n| |t|y mo d h mi sec ms|l IH|o IH] using value_nested_ind;
    intros Hplain; try discriminate.
  - by apply (reads_back_intro VNull "n" "ull").
  - destruct b.
    + by apply (reads_back_intro (VBool true) "t" "rue").
    + by apply (reads_back_intro (VBool false) "f" "alse").
  - cbn [plain] in Hplain.
    destruct (Z_to_string_head n) as (c & t & Hn & Hc).
    apply (reads_back_intro (VNum n) c t).
    + cbn [print]. by rewrite Hplain, Hn.
    + by apply number_start_facts.
    + intros fuel r Hr _. rewrite parse_value_number by done.
      rewrite <- Hn. by apply parse_number_print.
  - apply (reads_back_intro (VStr t) "034" (escape t +:+ Js.dquote)); [done|done|].
    intros fuel r Hr _. rewrite str_app_cons, parse_value_open_string.
    by rewrite str_app_assoc, parse_chars_escape.
  - cbn [plain] in Hplain.
    destruct (elements_read_back l IH Hplain) as (ts & Hts & Hlen & Hhead & Hrest).
    apply (reads_back_intro (VArr l) "[" (Js.join "," ts +:+ "]")).
    + cbn [print]. by rewrite Hts.
    + done.
    + intros fuel r Hr Hfuel. rewrite str_app_cons, parse_value_open_array.
      rewrite str_app_assoc.
      cbn [String.length] in Hfuel. rewrite str_app_length in Hfuel.
      cbn [String.length] in Hfuel.
      destruct l as [|x l].
      * destruct ts; [|done]. done.
      * destruct Hhead as (c & t' & Hjoin & Hc); [done|].
        destruct (starts_value_facts c Hc) as (Hws & Hclose & _).
        rewrite Hjoin, str_app_cons. cbn [skip_ws]. rewrite Hws, Hclose.
        rewrite <- str_app_cons, <- Hjoin. rewrite Hrest by (done || lia). done.
  - cbn [plain] in Hplain. apply andb_prop in Hplain as [[Hvals Hkeys]%andb_prop Hdigits].
    apply bool_decide_eq_true in Hkeys. apply negb_true_iff in Hdigits.
    destruct (members_read_back o IH Hvals) as (ms & Hms & Hlen & Hhead & Hrest).
    apply (reads_back_intro (VObj o) "{" (Js.join "," ms +:+ "}")).
    + cbn [print]. by rewrite Hms.
    + done.
    + intros fuel r Hr Hfuel. rewrite str_app_cons, parse_value_open_object.
      rewrite str_app_assoc.
      cbn [String.length] in Hfuel. rewrite str_app_length in Hfuel.
      cbn [String.length] in Hfuel.
      destruct o as [|kv o].
      * destruct ms; [|done]. done.
      * destruct Hhead as (t' & Hjoin); [done|].
        rewrite Hjoin, str_app_cons. cbn [skip_ws]. change (is_ws "034") with false.
        cbn iota. change (Ascii.eqb "034" "}") with false. cbn iota.
        rewrite <- str_app_cons, <- Hjoin. rewrite Hrest by (done || lia).
        cbn [obind]. rewrite Hdigits. by rewrite from_entries_nodup.
Qed.

(** JSON.parse(JSON.stringify(v)) is v for every plain value. *)
Lemma json_round_trip (v : value) :
  plain v = true ->
  obind (stringify v) (fun t => obind (of_option (Js.to_string t)) parse) = Returns v.
Proof.
  intros Hplain. destruct (plain_reads_back v Hplain) as (t & Ht & _ & Hparse).
  unfold stringify. rewrite Ht. cbn [obind Js.to_string of_option]. unfold parse.
  rewrite <- (str_app_nil_r t) at 2. rewrite Hparse by (done || lia). done.
Qed.

End json.

(** ** The type marshaller: round trips *)

(** C7 (amended).  Hydrating what was persisted gives back: a boolean; a
    plain JSON value; a non-empty array of strings without commas, on a
    simple-array column; any value, on a column of another type.  On the
    date columns it gives back the [Date] that the host builds from the
    fields the format keeps: from midnight of the same day, on a date
    column; from the same time of day to the second, on the day the clock
    shows, on a time column; from the same date and time to the second, on
    a datetime column.  That [Date] shows these very fields when the civil
    time they name exists in the time zone of the host, which holds of the
    date and time of every [Date] there is, but neither of every midnight
    nor of every time of day on the day the clock shows: in a gap of the
    zone the [Date] shows a later time. *)
Theorem marshalling_round_trip (clock : Clock) :
  (forall b, round_trip clock BOOLEAN (VBool b) = Returns (VBool b))
  /\ (forall v, Json.plain v = true -> round_trip clock JSON v = Returns v)
  /\ (forall l : list string,
        l <> [] -> Forall (fun t => comma_free t = true) l ->
        round_trip clock SIMPLE_ARRAY (VArr (VStr <$> l)) = Returns (VArr (VStr <$> l)))
  /\ (forall y mo d h mi sec ms,
        Moment.valid y mo d h mi sec ms = true ->
        round_trip clock DATE (VDate y mo d h mi sec ms)
        = Returns (toDate clock y mo d 0 0 0)
        /\ round_trip clock TIME (VDate y mo d h mi sec ms)
           = Returns (toDate clock (this_year clock) (this_month clock) (this_day clock)
                        h mi sec)
        /\ round_trip clock DATETIME (VDate y mo d h mi sec ms)
           = Returns (toDate clock y mo d h mi sec)
        /\ (exists_locally clock y mo d 0 0 0 ->
            round_trip clock DATE (VDate y mo d h mi sec ms)
            = Returns (VDate y mo d 0 0 0 0))
        /\ (exists_locally clock (this_year clock) (this_month clock) (this_day clock)
              h mi sec ->
            round_trip clock TIME (VDate y mo d h mi sec ms)
            = Returns (VDate (this_year clock) (this_month clock) (this_day clock)
                         h mi sec 0))
        /\ (exists_locally clock y mo d h mi sec ->
            round_trip clock DATETIME (VDate y mo d h mi sec ms)
            = Returns (VDate y mo d h mi sec 0)))
  /\ (forall name v, round_trip clock (OTHER name) v = Returns v).
Proof.
  split_and!.
  - by intros [].
  - intros v Hplain. apply (json_round_trip v Hplain).
  - intros l Hne Hl. unfold round_trip. cbn [preparePersistentValue type].
    rewrite map_String_strings. cbn. by rewrite split_join.
  - intros y mo d h mi sec ms Hvalid. unfold round_trip.
    cbn [preparePersistentValue type]. rewrite Hvalid.
    unfold Moment.valid in Hvalid.
    apply andb_prop in Hvalid as [[Hday Htime]%andb_prop _].
    cbn [obind prepareHydratedValue type].
    rewrite parse_day_format, parse_time_format, parse_datetime_format by done.
    cbn [mbind option_bind of_option]. unfold toDate, exists_locally.
    split_and!; try done; by intros ->.
  - done.
Qed.

(** A value of each kind in a zone where every civil time exists; and a
    day whose midnight falls into a gap of the zone: what comes back on a
    date column is one in the morning of that day. *)
Lemma marshalling_round_trip_witness :
  round_trip demo_clock JSON (VObj [("tags", VArr [VStr "a"; VNum (-3); VNull])])
  = Returns (VObj [("tags", VArr [VStr "a"; VNum (-3); VNull])])
  /\ round_trip demo_clock SIMPLE_ARRAY (VArr [VStr "red"; VStr "green"])
     = Returns (VArr [VStr "red"; VStr "green"])
  /\ round_trip demo_clock DATETIME (VDate 2024 2 29 13 5 9 123)
     = Returns (VDate 2024 2 29 13 5 9 0)
  /\ round_trip demo_clock TIME (VDate 2024 2 29 13 5 9 123)
     = Returns (VDate 2026 11 3 13 5 9 0)
  /\ round_trip demo_clock DATE (VDate 2024 2 29 13 5 9 123)
     = Returns (VDate 2024 2 29 0 0 0 0)
  /\ round_trip gap_clock DATE (VDate 2018 11 4 15 0 0 0)
     = Returns (VDate 2018 11 4 1 0 0 0).
Proof.
  destruct (marshalling_round_trip demo_clock) as (_ & Hjson & Harr & Hdate & _).
  destruct (marshalling_round_trip gap_clock) as (_ & _ & _ & Hgap & _).
  split_and!.
  - apply Hjson. reflexivity.
  - apply (Harr ["red"; "green"]); [discriminate|repeat constructor].
  - apply (Hdate 2024 2 29 13 5 9 123); reflexivity.
  - apply (Hdate 2024 2 29 13 5 9 123); reflexivity.
  - apply (Hdate 2024 2 29 13 5 9 123); reflexivity.
  - apply (Hgap 2018 11 4 15 0 0 0). reflexivity.
Defined.

(** C7, as stated, fails on simple-array columns: the empty array is
    persisted as the empty string, which splits into one empty string. *)
Lemma simple_array_counterexample :
  round_trip demo_clock SIMPLE_ARRAY (VArr []) = Returns (VArr [VStr EmptyString])
  /\ round_trip demo_clock SIMPLE_ARRAY (VArr []) <> Returns (VArr []).
Proof. split; [reflexivity|discriminate]. Qed.

(** ** The connection manager: connect, retrieve, release, disconnect *)

(** A retrieval from the pool, step by step. *)
Lemma retrieve_pool_run (env : Transport) (w : World) (p : handle) :
  pool (driver w) = Some p ->
  retrieveDatabaseConnection env w
  = let t := trace w ++ [PoolConnect p] in
    let '(err, conn, release) := on_pool_connect env t in
    if Js.truthy err then (Throws (TransportError err), mkWorld (heap w) (driver w) t)
    else match find_connection (heap w) (databaseConnectionPool (driver w)) conn with
         | None => (Beyond, mkWorld (heap w) (driver w) t)
         | Some (Some r) =>
             match heap w !! r with
             | Some c =>
                 (Returns r,
                  mkWorld (<[r := mkDatabaseConnection (id c) (connection c)
                                    (isTransactionActive c) (Some release)]> (heap w))
                    (driver w) t)
             | None => (Beyond, mkWorld (heap w) (driver w) t)
             end
         | Some None =>
             (Returns (length (heap w)),
              mkWorld (heap w ++ [mkDatabaseConnection
                                    (length (databaseConnectionPool (driver w)))
                                    conn false (Some release)])
                (mkPostgresDriver (usePool (driver w)) (databaseConnection (driver w))
                   (pool (driver w))
                   (databaseConnectionPool (driver w) ++ [length (heap w)]))
                t)
         end.
Proof.
  intros Hp. destruct w as [h [up dc pl dl] t]. simpl in *. subst pl.
  unfold retrieveDatabaseConnection. unfold_M. simpl.
  destruct (on_pool_connect env (t ++ [PoolConnect p])) as [[err conn] f].
  destruct (Js.truthy err); simpl; [done|].
  destruct (find_connection h dl conn) as [[r|]|] eqn:Hfind; simpl; [| |done].
  - destruct (h !! r) as [c|]; simpl; done.
  - rewrite list_lookup_middle by done. simpl.
    rewrite insert_app_r_alt by done. rewrite Nat.sub_diag. done.
Qed.

Lemma find_connection_first (h : list DatabaseConnection) (l1 l2 : list ref) (r : ref)
    (c : DatabaseConnection) :
  Forall (fun x => is_Some (h !! x)) l1 ->
  connection c ∉ connection <$> omap (fun x => h !! x) l1 ->
  h !! r = Some c ->
  find_connection h (l1 ++ r :: l2) (connection c) = Some (Some r).
Proof.
  intros Hv Hfresh Hr. induction Hv as [|x l1 [o Ho] _ IH]; simpl.
  - rewrite Hr. by rewrite decide_True.
  - simpl in Hfresh. rewrite Ho in *. simpl in Hfresh.
    apply not_elem_of_cons in Hfresh as [Hne Hfresh].
    rewrite decide_False by done. by apply IH.
Qed.

Lemma find_connection_none (h : list DatabaseConnection) (l : list ref) (conn : handle) :
  Forall (fun x => is_Some (h !! x)) l ->
  conn ∉ connection <$> omap (fun x => h !! x) l ->
  find_connection h l conn = Some None.
Proof.
  intros Hv Hfresh. induction Hv as [|x l [o Ho] _ IH]; simpl; [done|].
  simpl in Hfresh. rewrite Ho in *. simpl in Hfresh.
  apply not_elem_of_cons in Hfresh as [Hne Hfresh].
  rewrite decide_False by done. by apply IH.
Qed.

(** X1.  connect with [usePool: false] installs the connection object
    (id 1, no transaction, no release function) before the client answers:
    when the client refuses the connection the promise is rejected with its
    error, and the driver holds the object all the same, so that it counts
    as connected and retrieveDatabaseConnection hands the object out. *)
Theorem connect_single_installs_connection (env : Transport) (w : World) :
  usePool (driver w) = Some false ->
  let c := length (trace w) in
  let r := length (heap w) in
  let t := trace w ++ [NewClient c; ClientConnect c] in
  let w' := mkWorld (heap w ++ [mkDatabaseConnection 1 c false None])
              (mkPostgresDriver (Some false) (Some r) (pool (driver w))
                 (databaseConnectionPool (driver w)))
              t in
  connect env w
  = (if Js.truthy (on_client_connect env t)
     then Throws (TransportError (on_client_connect env t)) else Returns tt, w')
  /\ connectionIsNotSet (driver w') = false
  /\ (pool (driver w) = None -> retrieveDatabaseConnection env w' = (Returns r, w')).
Proof.
  intros Hup. destruct w as [h [up dc pl dl] t]. simpl in *. subst up.
  split_and!.
  - unfold connect. unfold_M. simpl. rewrite <- app_assoc. simpl.
    by destruct (Js.truthy _).
  - done.
  - intros ->. done.
Qed.

(** A client that refuses every connection with the error [refused]. *)
Lemma connect_single_installs_connection_witness :
  let env := mkTransport (fun _ => VStr "refused") (fun _ => (VNull, 100, 7))
               (fun _ => (VNull, VArr [])) in
  fst (connect env (initial (Some false))) = Throws (TransportError (VStr "refused"))
  /\ retrieveDatabaseConnection env (snd (connect env (initial (Some false))))
     = (Returns 0, snd (connect env (initial (Some false)))).
Proof.
  intros env.
  destruct (connect_single_installs_connection env (initial (Some false)) eq_refl)
    as (Hc & _ & Hr).
  split.
  - rewrite Hc. reflexivity.
  - rewrite Hc. apply Hr. reflexivity.
Defined.

Lemma release_fields (w : World) (r : ref) :
  pool (driver (snd (releaseDatabaseConnection r w))) = pool (driver w)
  /\ databaseConnection (driver (snd (releaseDatabaseConnection r w)))
     = databaseConnection (driver w).
Proof.
  destruct w as [h [up dc pl dl] t]. unfold releaseDatabaseConnection. unfold_M. simpl.
  destruct pl as [p|]; simpl; [|done].
  destruct (h !! r) as [c|]; simpl; [|done].
  by destruct (releaseCallback c).
Qed.

Lemma releasable_retrieve (env : Transport) (w : World) :
  releasable w -> releasable (snd (retrieveDatabaseConnection env w)).
Proof.
  intros ([p Hp] & Hdc & Hl). unfold releasable.
  rewrite (retrieve_pool_run env w p Hp). cbv zeta.
  destruct (on_pool_connect env _) as [[err conn] f].
  destruct (Js.truthy err); [by eauto|].
  destruct (find_connection _ _ conn) as [[r|]|]; [| |by eauto].
  - destruct (heap w !! r) as [c|] eqn:Hr; [|by eauto]. simpl.
    split_and!; [by eauto|done|].
    eapply Forall_impl; [exact Hl|]. intros x (cx & fx & Hx & Hfx). simpl.
    destruct (decide (x = r)) as [->|Hne].
    + rewrite list_lookup_insert_eq by (by eapply lookup_lt_Some). by eauto.
    + rewrite list_lookup_insert_ne by done. by eauto.
  - simpl. split_and!; [by eauto|done|].
    apply Forall_app. split.
    + eapply Forall_impl; [exact Hl|]. intros x (cx & fx & Hx & Hfx). simpl.
      rewrite lookup_app_l by (by eapply lookup_lt_Some). by eauto.
    + apply Forall_singleton. rewrite list_lookup_middle by done. by eauto.
Qed.

Lemma releasable_release (w : World) (r : ref) :
  releasable w -> releasable (snd (releaseDatabaseConnection r w)).
Proof.
  intros (Hp & Hdc & Hl). unfold releasable.
  destruct (release_fields w r) as [-> ->].
  destruct (release_cases w r) as (-> & l & -> & Hsub).
  split_and!; [done|done|].
  apply Forall_forall. intros x Hx.
  eapply (proj1 (Forall_forall _ _) Hl). by eapply elem_of_sublist.
Qed.

Lemma pooled_run_releasable (env : Transport) (w : World) :
  pooled_run env w -> releasable w.
Proof.
  induction 1 as [up Hup|w Hrun IH|w r Hrun IH Hr].
  - destruct up as [[]|]; [|done|]; (split_and!; [by eexists|done|constructor]).
  - by apply releasable_retrieve.
  - by apply releasable_release.
Qed.

(** The release functions of tracked records, one for each record and in
    the order of the records. *)
Lemma callbacks_of_tracked (h : list DatabaseConnection) (l : list ref) :
  Forall (fun r => exists c f, h !! r = Some c /\ releaseCallback c = Some f) l ->
  Forall2 (fun r f => exists c, h !! r = Some c /\ releaseCallback c = Some f)
    l (callbacks_of h l).
Proof.
  induction 1 as [|x l (c & f & Hc & Hf) _ IH]; [constructor|].
  unfold callbacks_of in *. cbn. rewrite Hc. cbn. rewrite Hf. cbn.
  constructor; [by exists c|exact IH].
Qed.

(** X2.  After connect and any sequence of retrievals and releases, a
    pooled driver disconnects without error: every record still tracked
    carries a release function, and disconnect invokes the release function
    of the first tracked record, then that of the second, and so on to the
    last, one call for each record; then it ends the pool, and leaves the
    driver with no pool, no connection and an empty collection.  A second
    disconnect fails with ConnectionIsNotSetError. *)
Theorem disconnect_after_pooled_run (env : Transport) (w : World) :
  pooled_run env w ->
  exists (p : handle) (fs : list callback),
    pool (driver w) = Some p
    /\ Forall2 (fun r f => exists c, heap w !! r = Some c /\ releaseCallback c = Some f)
         (databaseConnectionPool (driver w)) fs
    /\ disconnect w
       = (Returns tt,
          mkWorld (heap w) (mkPostgresDriver (usePool (driver w)) None None [])
            (trace w ++ (Release <$> fs) ++ [PoolEnd p]))
    /\ fst (disconnect (snd (disconnect w))) = Throws ConnectionIsNotSetError.
Proof.
  intros Hrun. destruct (pooled_run_releasable env w Hrun) as ([p Hp] & Hdc & Hl).
  exists p, (callbacks_of (heap w) (databaseConnectionPool (driver w))).
  assert (disconnect w
          = (Returns tt,
             mkWorld (heap w) (mkPostgresDriver (usePool (driver w)) None None [])
               (trace w
                ++ (Release <$> callbacks_of (heap w) (databaseConnectionPool (driver w)))
                ++ [PoolEnd p]))) as E.
  { apply disconnect_pooled; [done|done|].
    eapply Forall_impl; [exact Hl|]. intros x (c & f & Hx & _). by eexists. }
  split_and!; [done|by apply callbacks_of_tracked|done|].
  rewrite E. by rewrite disconnect_not_set.
Qed.

(** The pooled driver tracks object 0, with release function 7, and
    object 1, with release function 8: they are invoked in this order. *)
Lemma disconnect_after_pooled_run_witness :
  disconnect demo_pooled
  = (Returns tt,
     mkWorld (heap demo_pooled) (mkPostgresDriver None None None [])
       (trace demo_pooled ++ [Release 7; Release 8; PoolEnd 0])).
Proof.
  destruct (disconnect_after_pooled_run demo_env demo_pooled) as (p & fs & Hp & Hfs & E & _).
  - apply demo_pooled_run.
  - injection Hp as <-.
    apply Forall2_cons_inv_l in Hfs as (f0 & fs0 & (c0 & Hc0 & Hf0) & Hfs & ->).
    apply Forall2_cons_inv_l in Hfs as (f1 & fs1 & (c1 & Hc1 & Hf1) & Hfs & ->).
    apply Forall2_nil_inv_l in Hfs as ->.
    injection Hc0 as <-. injection Hc1 as <-.
    injection Hf0 as <-. injection Hf1 as <-.
    exact E.
Defined.

(** X3.  On a driver with neither a connection nor a pool, disconnect and
    retrieveDatabaseConnection throw ConnectionIsNotSetError and
    releaseDatabaseConnection returns; none of them changes the driver or
    calls a collaborator. *)
Theorem unset_driver_refuses_connection_operations (env : Transport) (w : World) (r : ref) :
  connectionIsNotSet (driver w) = true ->
  disconnect w = (Throws ConnectionIsNotSetError, w)
  /\ retrieveDatabaseConnection env w = (Throws ConnectionIsNotSetError, w)
  /\ releaseDatabaseConnection r w = (Returns tt, w).
Proof.
  intros Hset. unfold connectionIsNotSet in Hset.
  destruct (databaseConnection (driver w)) eqn:Hc; [done|].
  destruct (pool (driver w)) eqn:Hp; [done|].
  split_and!.
  - apply disconnect_not_set. unfold connectionIsNotSet. by rewrite Hc, Hp.
  - unfold retrieveDatabaseConnection. unfold_M. by rewrite Hp, Hc.
  - by apply release_inactive.
Qed.

Lemma unset_driver_refuses_connection_operations_witness :
  disconnect (initial None) = (Throws ConnectionIsNotSetError, initial None)
  /\ retrieveDatabaseConnection demo_env (initial None)
     = (Throws ConnectionIsNotSetError, initial None)
  /\ releaseDatabaseConnection 0 (initial None) = (Returns tt, initial None).
Proof.
  apply (unset_driver_refuses_connection_operations demo_env (initial None) 0 eq_refl).
Defined.

(** X4.  Without a pool every retrieval returns the one connection object
    of the driver and calls no collaborator, and releasing it does nothing;
    the callers therefore share its transaction flag: once one of them has
    begun a transaction, the object retrieved next is the same one and a
    second begin on it fails with TransactionAlreadyStartedError. *)
Theorem single_connection_is_shared (env : Transport) (w : World) (r : ref) :
  pool (driver w) = None ->
  databaseConnection (driver w) = Some r ->
  retrieveDatabaseConnection env w = (Returns r, w)
  /\ releaseDatabaseConnection r w = (Returns tt, w)
  /\ (forall w1, beginTransaction env r w = (Returns tt, w1) ->
        retrieveDatabaseConnection env w1 = (Returns r, w1)
        /\ beginTransaction env r w1 = (Throws TransactionAlreadyStartedError, w1)).
Proof.
  intros Hp Hc. split_and!.
  - unfold retrieveDatabaseConnection. unfold_M. by rewrite Hp, Hc.
  - by apply release_inactive.
  - intros w1 Hb.
    destruct (heap w !! r) as [c|] eqn:Hr.
    2:{ unfold beginTransaction in Hb. unfold_M. by rewrite Hr in Hb. }
    pose proof (run_tx_unfold env Begin r w c Hr) as E. simpl in E. rewrite Hb in E.
    destruct (isTransactionActive c); [done|].
    pose proof (query_frame env w r "START TRANSACTION" None) as [Hh Hd].
    destruct (query env r "START TRANSACTION" None w) as [[a| |] w']; simpl in *; try done.
    injection E as ->. split.
    + unfold retrieveDatabaseConnection. unfold_M. simpl. by rewrite Hd, Hp, Hc.
    + apply (run_tx_unfold env Begin r _
               (mkDatabaseConnection (id c) (connection c) true (releaseCallback c))).
      simpl. apply list_lookup_insert_eq. rewrite Hh. by eapply lookup_lt_Some.
Qed.

Lemma single_connection_is_shared_witness :
  retrieveDatabaseConnection demo_env demo_single = (Returns 0, demo_single)
  /\ releaseDatabaseConnection 0 demo_single = (Returns tt, demo_single).
Proof.
  destruct (single_connection_is_shared demo_env demo_single 0 eq_refl eq_refl)
    as (H1 & H2 & _).
  split; assumption.
Defined.

(** X5.  A retrieval from the pool asks the pool for a client, and then:
    if the pool answers with an error, the promise is rejected with that
    error and nothing is tracked; if the client is that of a tracked record,
    the first such record is returned, with its id and its transaction flag
    as they were and the new release function attached; otherwise a new
    record is appended to the collection and returned, with the length of
    the collection as id, no transaction, and the release function. *)
Theorem retrieve_from_pool (env : Transport) (w : World) (p : handle) (err : value)
    (conn : handle) (release : callback) :
  pool (driver w) = Some p ->
  on_pool_connect env (trace w ++ [PoolConnect p]) = (err, conn, release) ->
  Forall (fun r => is_Some (heap w !! r)) (databaseConnectionPool (driver w)) ->
  (Js.truthy err = true ->
   retrieveDatabaseConnection env w
   = (Throws (TransportError err),
      mkWorld (heap w) (driver w) (trace w ++ [PoolConnect p])))
  /\ (Js.truthy err = false ->
      forall (l1 l2 : list ref) (r : ref) (c : DatabaseConnection),
        databaseConnectionPool (driver w) = l1 ++ r :: l2 ->
        heap w !! r = Some c ->
        connection c = conn ->
        conn ∉ connection <$> omap (fun x => heap w !! x) l1 ->
        retrieveDatabaseConnection env w
        = (Returns r,
           mkWorld (<[r := mkDatabaseConnection (id c) conn (isTransactionActive c)
                             (Some release)]> (heap w))
             (driver w) (trace w ++ [PoolConnect p])))
  /\ (Js.truthy err = false ->
      conn ∉ tracked_handles w ->
      retrieveDatabaseConnection env w
      = (Returns (length (heap w)),
         mkWorld (heap w ++ [mkDatabaseConnection
                               (length (databaseConnectionPool (driver w)))
                               conn false (Some release)])
           (mkPostgresDriver (usePool (driver w)) (databaseConnection (driver w))
              (Some p) (databaseConnectionPool (driver w) ++ [length (heap w)]))
           (trace w ++ [PoolConnect p]))).
Proof.
  intros Hp Henv Hv. rewrite (retrieve_pool_run env w p Hp). cbv zeta. rewrite Henv.
  split_and!.
  - by intros ->.
  - intros -> l1 l2 r c Hl Hr Hc Hfresh. subst conn.
    rewrite Hl in *. apply Forall_app in Hv as [Hv1 _].
    rewrite (find_connection_first (heap w) l1 l2 r c) by done. by rewrite Hr.
  - intros -> Hfresh. rewrite find_connection_none by done. by rewrite Hp.
Qed.

(** After object 0 was released the pool hands out client 100 again: a
    new record, object 2, is made for it. *)
Lemma retrieve_from_pool_witness :
  retrieveDatabaseConnection demo_env demo_released
  = (Returns 2,
     mkWorld (heap demo_released ++ [mkDatabaseConnection 1 100 false (Some 9)])
       (mkPostgresDriver None None (Some 0) [1; 2])
       (trace demo_released ++ [PoolConnect 0])).
Proof.
  destruct (retrieve_from_pool demo_env demo_released 0 VNull 100 9
              eq_refl eq_refl) as (_ & _ & H).
  - repeat constructor; by eexists.
  - apply H; [reflexivity|]. vm_compute. intros Hin.
    apply list_elem_of_singleton in Hin. discriminate.
Defined.

(** X6.  Releasing an object that carries a release function but is not
    (or no longer) in the tracked collection invokes the function and
    removes the last record of the collection, whichever it is:
    [indexOf] answers -1 and [splice(-1, 1)] counts from the end.  On an
    empty collection only the function is invoked. *)
Theorem release_untracked_drops_last (w : World) (r : ref) (c : DatabaseConnection)
    (p : handle) (f : callback) :
  pool (driver w) = Some p ->
  heap w !! r = Some c ->
  releaseCallback c = Some f ->
  r ∉ databaseConnectionPool (driver w) ->
  (forall (l : list ref) (x : ref),
     databaseConnectionPool (driver w) = l ++ [x] ->
     releaseDatabaseConnection r w
     = (Returns tt,
        mkWorld (heap w)
          (mkPostgresDriver (usePool (driver w)) (databaseConnection (driver w)) (Some p) l)
          (trace w ++ [Release f])))
  /\ (databaseConnectionPool (driver w) = [] ->
      releaseDatabaseConnection r w
      = (Returns tt, mkWorld (heap w) (driver w) (trace w ++ [Release f]))).
Proof.
  intros Hp Hr Hf Hnot. rewrite (release_active w r c p f Hp Hr Hf).
  rewrite indexOf_absent by done. split.
  - intros l x Hl. rewrite Hl, splice1_last. by rewrite Hp.
  - intros Hl. rewrite Hl. destruct w as [h [up dc pl dl] t]. simpl in *. by subst.
Qed.

(** Object 0 was released already; releasing it again drops object 1. *)
Lemma release_untracked_drops_last_witness :
  releaseDatabaseConnection 0 demo_released
  = (Returns tt,
     mkWorld (heap demo_released) (mkPostgresDriver None None (Some 0) [])
       (trace demo_released ++ [Release 7])).
Proof.
  destruct (release_untracked_drops_last demo_released 0
              (mkDatabaseConnection 0 100 false (Some 7)) 0 7 eq_refl eq_refl eq_refl)
    as [H _].
  - vm_compute. intros Hin. apply list_elem_of_singleton in Hin. discriminate.
  - apply (H [] 1). reflexivity.
Defined.

(** X7.  The transaction flag does not survive a release.  When a tracked
    object is released and the pool then hands out the same client, the
    retrieval does not return the released object: it makes a new record
    for the client, with isTransactionActive false whatever the flag of the
    released object was, and with the length of the shortened collection
    as id. *)
Theorem retrieve_after_release_starts_idle (env : Transport) (w : World) (p : handle)
    (r : ref) (c : DatabaseConnection) (f g : callback) (l1 l2 : list ref) (err : value) :
  pool (driver w) = Some p ->
  databaseConnectionPool (driver w) = l1 ++ r :: l2 ->
  Forall (fun x => is_Some (heap w !! x)) (l1 ++ r :: l2) ->
  NoDup (tracked_handles w) ->
  heap w !! r = Some c ->
  releaseCallback c = Some f ->
  on_pool_connect env (trace w ++ [Release f; PoolConnect p]) = (err, connection c, g) ->
  Js.truthy err = false ->
  retrieveDatabaseConnection env (snd (releaseDatabaseConnection r w))
  = (Returns (length (heap w)),
     mkWorld (heap w ++ [mkDatabaseConnection (length (l1 ++ l2)) (connection c) false
                           (Some g)])
       (mkPostgresDriver (usePool (driver w)) (databaseConnection (driver w)) (Some p)
          ((l1 ++ l2) ++ [length (heap w)]))
       (trace w ++ [Release f; PoolConnect p]))
  /\ length (heap w) <> r.
Proof.
  intros Hp Hl Hv Hnd Hr Hf Henv Herr.
  assert ((connection c ∉ connection <$> omap (fun x => heap w !! x) l1)
          /\ (connection c ∉ connection <$> omap (fun x => heap w !! x) l2)) as [H1 H2].
  { unfold tracked_handles, tracked in Hnd. rewrite Hl in Hnd.
    rewrite omap_app, fmap_app in Hnd. cbn in Hnd. rewrite Hr in Hnd. cbn in Hnd.
    apply NoDup_app in Hnd as (_ & Hd & Hn2). apply NoDup_cons in Hn2 as [Hn2 _].
    split; [|done]. intros Hin. apply (Hd _ Hin). left. }
  assert (r ∉ l1) as Hnot.
  { intros Hin. apply H1. apply list_elem_of_fmap. exists c. split; [done|].
    apply list_elem_of_omap. by exists r. }
  rewrite (release_active w r c p f Hp Hr Hf).
  rewrite Hl, indexOf_first, splice1_middle by done. cbn [snd].
  apply Forall_app in Hv as [Hv1 Hv2]. apply Forall_cons in Hv2 as [_ Hv2].
  split; [|apply lookup_lt_Some in Hr; lia].
  erewrite retrieve_pool_run by (cbn; exact Hp). cbv zeta. cbn [trace heap driver].
  rewrite <- app_assoc. cbn [app]. rewrite Henv, Herr.
  cbn [databaseConnectionPool usePool databaseConnection pool].
  rewrite find_connection_none; [by rewrite Hp| |].
  - apply Forall_app. by split.
  - rewrite omap_app, fmap_app. intros [?|?]%elem_of_app; done.
Qed.

(** A transaction is active on object 0; after its release, client 100
    comes back as object 2 with the flag clear. *)
Lemma retrieve_after_release_starts_idle_witness :
  heap demo_active !! 0 = Some (mkDatabaseConnection 0 100 true (Some 7))
  /\ retrieveDatabaseConnection demo_env (snd (releaseDatabaseConnection 0 demo_active))
     = (Returns 2,
        mkWorld (heap demo_active ++ [mkDatabaseConnection 1 100 false (Some 9)])
          (mkPostgresDriver None None (Some 0) [1; 2])
          (trace demo_active ++ [Release 7; PoolConnect 0])).
Proof.
  split; [reflexivity|].
  destruct (retrieve_after_release_starts_idle demo_env demo_active 0 0
              (mkDatabaseConnection 0 100 true (Some 7)) 7 9 [] [1] VNull
              eq_refl eq_refl) as [H _];
    [ | |reflexivity|reflexivity|reflexivity|reflexivity|exact H].
  - repeat constructor; by eexists.
  - vm_compute. apply NoDup_cons.
    split; [intros Hin%list_elem_of_singleton; discriminate|apply NoDup_singleton].
Defined.

(** ** query and the transaction coordinator: frame and composition *)

(** X8.  On a connected driver, query logs the statement, hands it to the
    client of the connection object with its parameters, and settles as the
    client says: with the rows when the client reports no error; otherwise
    it logs the failed statement and the error, in this order, and is
    rejected with the error itself.  The heap and the driver stay as they
    were. *)
Theorem query_logs_and_settles (env : Transport) (w : World) (r : ref)
    (c : DatabaseConnection) (sql : string) (ps : option (list value)) :
  connectionIsNotSet (driver w) = false ->
  heap w !! r = Some c ->
  let call := trace w ++ [LogQuery sql; ClientQuery (connection c) sql ps] in
  let err := fst (on_client_query env call) in
  let rows := snd (on_client_query env call) in
  (Js.truthy err = false ->
   query env r sql ps w = (Returns rows, mkWorld (heap w) (driver w) call))
  /\ (Js.truthy err = true ->
      query env r sql ps w
      = (Throws (TransportError err),
         mkWorld (heap w) (driver w) (call ++ [LogFailedQuery sql; LogQueryError err]))).
Proof.
  intros Hset Hr. cbv zeta. rewrite (query_run env w r c) by done.
  unfold reply, issued. split; by intros ->.
Qed.

Lemma query_logs_and_settles_witness :
  query demo_env 0 "SELECT 1" None demo_pooled
  = (Returns (VArr []),
     mkWorld (heap demo_pooled) (driver demo_pooled)
       (trace demo_pooled ++ [LogQuery "SELECT 1"; ClientQuery 100 "SELECT 1" None])).
Proof.
  apply (query_logs_and_settles demo_env demo_pooled 0
           (mkDatabaseConnection 0 100 false (Some 7)) "SELECT 1" None eq_refl eq_refl).
  reflexivity.
Defined.

(** X9.  begin, commit and rollback touch nothing but the flag of the
    object they are given: the driver, every other object, and the id, the
    client and the release function of the object itself stay as they were;
    an operation refused by its guard changes nothing at all, the trace
    included. *)
Theorem transaction_touches_only_its_flag (env : Transport) (op : TxOp) (w : World)
    (r : ref) (c : DatabaseConnection) :
  heap w !! r = Some c ->
  driver (snd (run_tx env op r w)) = driver w
  /\ length (heap (snd (run_tx env op r w))) = length (heap w)
  /\ (forall r', r' <> r -> heap (snd (run_tx env op r w)) !! r' = heap w !! r')
  /\ (exists c', heap (snd (run_tx env op r w)) !! r = Some c'
                 /\ id c' = id c /\ connection c' = connection c
                 /\ releaseCallback c' = releaseCallback c)
  /\ (refused op c = true -> run_tx env op r w = (Throws (refusal op), w)).
Proof.
  intros Hr. rewrite (run_tx_unfold env op r w c Hr).
  destruct (refused op c); [split_and!; by eauto|].
  pose proof (query_frame env w r (statement op) None) as [Hh Hd].
  destruct (query env r (statement op) None w) as [[a| |] w1]; simpl in *;
    rewrite ?Hh, ?Hd; try (split_and!; by eauto).
  split_and!; try done.
  - by rewrite length_insert.
  - intros r' Hne. by rewrite list_lookup_insert_ne.
  - eexists. split; [apply list_lookup_insert_eq; by eapply lookup_lt_Some|done].
Qed.

Lemma transaction_touches_only_its_flag_witness :
  driver (snd (beginTransaction demo_env 0 demo_pooled)) = driver demo_pooled
  /\ heap (snd (beginTransaction demo_env 0 demo_pooled)) !! 1 = heap demo_pooled !! 1.
Proof.
  destruct (transaction_touches_only_its_flag demo_env Begin demo_pooled 0
              (mkDatabaseConnection 0 100 false (Some 7)) eq_refl)
    as (Hd & _ & Hf & _).
  split; [exact Hd|]. apply Hf. discriminate.
Defined.

Lemma run_tx_returns (env : Transport) (op : TxOp) (w w' : World) (r : ref)
    (c : DatabaseConnection) :
  heap w !! r = Some c ->
  run_tx env op r w = (Returns tt, w') ->
  refused op c = false
  /\ w' = mkWorld (<[r := mkDatabaseConnection (id c) (connection c) (target op)
                            (releaseCallback c)]> (heap w))
            (driver w)
            (trace w ++ [LogQuery (statement op);
                         ClientQuery (connection c) (statement op) None]).
Proof.
  intros Hr. rewrite (run_tx_unfold env op r w c Hr).
  destruct (refused op c); [done|].
  destruct (connectionIsNotSet (driver w)) eqn:Hset.
  { by rewrite query_not_set. }
  rewrite (query_run env w r c) by done.
  destruct (Js.truthy _); [done|]. by intros [= <-].
Qed.

(** X10.  A begin followed by a commit or a rollback, both successful,
    leaves every connection object and the driver as they were before the
    begin; the client was handed START TRANSACTION and then COMMIT or
    ROLLBACK, each logged first, and nothing else. *)
Theorem begin_then_end_restores (env : Transport) (op : TxOp) (w w1 w2 : World)
    (r : ref) (c : DatabaseConnection) :
  op <> Begin ->
  heap w !! r = Some c ->
  beginTransaction env r w = (Returns tt, w1) ->
  run_tx env op r w1 = (Returns tt, w2) ->
  heap w2 = heap w
  /\ driver w2 = driver w
  /\ trace w2
     = trace w ++ [LogQuery "START TRANSACTION";
                   ClientQuery (connection c) "START TRANSACTION" None;
                   LogQuery (statement op);
                   ClientQuery (connection c) (statement op) None].
Proof.
  intros Hop Hr H1 H2.
  apply (run_tx_returns env Begin w w1 r c Hr) in H1 as [Hidle ->].
  eapply (run_tx_returns env op) in H2 as [_ ->].
  2:{ simpl. apply list_lookup_insert_eq. by eapply lookup_lt_Some. }
  simpl in *. split_and!.
  - rewrite list_insert_insert_eq.
    assert (target op = false) as -> by (by destruct op).
    rewrite <- Hidle. destruct c. by apply list_insert_id.
  - done.
  - by rewrite <- app_assoc.
Qed.

Lemma begin_then_end_restores_witness :
  heap (snd (commitTransaction demo_env 0 (snd (beginTransaction demo_env 0 demo_pooled))))
  = heap demo_pooled.
Proof.
  destruct (begin_then_end_restores demo_env Commit demo_pooled
              (snd (beginTransaction demo_env 0 demo_pooled))
              (snd (commitTransaction demo_env 0
                      (snd (beginTransaction demo_env 0 demo_pooled))))
              0 (mkDatabaseConnection 0 100 false (Some 7)))
    as (H & _); [discriminate|reflexivity|reflexivity|reflexivity|exact H].
Defined.

(** ** insert, delete and clearDatabase *)

Lemma imap_shift {A B} (f : nat -> B) (l : list A) (n : nat) :
  imap (fun index _ => f (n + index)) l = f <$> seq n (length l).
Proof.
  revert n. induction l as [|x l IH]; intros n; [done|].
  cbn. rewrite Nat.add_0_r. f_equal.
  rewrite <- IH. apply imap_ext. intros i y _. cbn. f_equal. lia.
Qed.

Lemma insert_run (env : Transport) (w : World) (r : ref) (tableName : string)
    (keyValues : list (string * value)) (idColumnName : option string) :
  QueryExecutor.insert env r tableName keyValues idColumnName w
  = if connectionIsNotSet (driver w) then (Throws ConnectionIsNotSetError, w)
    else match query env r (QueryExecutor.insertQuery tableName keyValues idColumnName)
                 (Some (QueryExecutor.insertParameters keyValues)) w with
         | (Returns result, w') =>
             (if QueryExecutor.given idColumnName
              then obind (QueryExecutor.first_row result)
                     (fun row => QueryExecutor.member row (default EmptyString idColumnName))
              else Returns result, w')
         | (Throws e, w') => (Throws e, w')
         | (Beyond, w') => (Beyond, w')
         end.
Proof.
  unfold QueryExecutor.insert. unfold_M. destruct (connectionIsNotSet (driver w)); [done|].
  destruct (query _ _ _ _ _) as [[result| |] w']; try done.
  destruct idColumnName as [name|]; [|done]. cbn.
  destruct (negb (String.eqb name EmptyString)); [|done].
  by destruct (QueryExecutor.first_row result).
Qed.

(** X11.  The statement insert hands to the client reads
    [INSERT INTO "table"(] , the quoted column names joined by a comma and
    a space, [) VALUES (] , the placeholders [$1] to [$n] joined by a comma,
    [) ] , and then, when an id column is named, [ RETURNING ] and its
    quoted name; its parameters are the values of the object in the order
    of its keys, so that the i-th placeholder stands for the value of the
    i-th column. *)
Theorem insert_statement (env : Transport) (w : World) (r : ref) (c : DatabaseConnection)
    (tableName : string) (keyValues : list (string * value)) (idColumnName : option string) :
  NoDup (Js.keys keyValues) ->
  connectionIsNotSet (driver w) = false ->
  heap w !! r = Some c ->
  (exists t,
     trace (snd (QueryExecutor.insert env r tableName keyValues idColumnName w))
     = issued w c (QueryExecutor.insertQuery tableName keyValues idColumnName)
         (Some (snd <$> keyValues)) ++ t)
  /\ QueryExecutor.insertQuery tableName keyValues idColumnName
     = "INSERT INTO " +:+ escapeTableName tableName +:+ "("
       +:+ Js.join ", " (escapeColumnName <$> (fst <$> keyValues))
       +:+ ") VALUES ("
       +:+ Js.join "," (Rewriter.placeholder <$> seq 1 (length keyValues))
       +:+ ") "
       +:+ (if QueryExecutor.given idColumnName
            then " RETURNING " +:+ escapeColumnName (default EmptyString idColumnName)
            else EmptyString).
Proof.
  intros Hk Hset Hr. split.
  - rewrite insert_run, Hset. unfold QueryExecutor.insertParameters.
    rewrite get_keys by done.
    rewrite (query_run env w r c) by done.
    destruct (Js.truthy _); cbn; [by eexists|].
    exists []. by rewrite app_nil_r.
  - unfold QueryExecutor.insertQuery, QueryExecutor.insertColumns,
      QueryExecutor.insertValues, Js.keys.
    assert (imap (fun index _ => "$" +:+ Js.nat_to_string (index + 1)) (map fst keyValues)
            = Rewriter.placeholder <$> seq 1 (length keyValues)) as ->.
    { rewrite <- (length_map fst keyValues).
      rewrite <- (imap_shift Rewriter.placeholder (map fst keyValues) 1).
      apply imap_ext. intros i x _. cbn. unfold Rewriter.placeholder.
      by rewrite (Nat.add_comm i 1). }
    destruct idColumnName as [name|]; [|done]. cbn.
    by destruct (negb (String.eqb name EmptyString)).
Qed.

Lemma insert_statement_witness :
  QueryExecutor.insertQuery "users" [("name", VStr "Bob"); ("age", VNum 7)] (Some "id")
  = "INSERT INTO " +:+ escapeTableName "users" +:+ "(" +:+ escapeColumnName "name" +:+ ", "
    +:+ escapeColumnName "age" +:+ ") VALUES ($1,$2)  RETURNING " +:+ escapeColumnName "id".
Proof.
  destruct (insert_statement demo_env demo_pooled 0
              (mkDatabaseConnection 0 100 false (Some 7)) "users"
              [("name", VStr "Bob"); ("age", VNum 7)] (Some "id")) as [_ H];
    [ |reflexivity|reflexivity|rewrite H; reflexivity].
  apply NoDup_cons. split; [intros Hin%list_elem_of_singleton; discriminate|].
  apply NoDup_singleton.
Defined.

(** X12.  When the statement succeeds, insert returns the rows the client
    answered if no id column is named (or its name is empty); with an id
    column it returns what the first row holds under that name, and is
    rejected with a TypeError when the answer has no row at all. *)
Theorem insert_result (env : Transport) (w : World) (r : ref) (c : DatabaseConnection)
    (tableName : string) (keyValues : list (string * value)) (idColumnName : option string)
    (rows : value) :
  connectionIsNotSet (driver w) = false ->
  heap w !! r = Some c ->
  Js.truthy (fst (reply env w c (QueryExecutor.insertQuery tableName keyValues idColumnName)
                    (Some (QueryExecutor.insertParameters keyValues)))) = false ->
  rows = snd (reply env w c (QueryExecutor.insertQuery tableName keyValues idColumnName)
                (Some (QueryExecutor.insertParameters keyValues))) ->
  (QueryExecutor.given idColumnName = false ->
   fst (QueryExecutor.insert env r tableName keyValues idColumnName w) = Returns rows)
  /\ (forall name o rest,
        idColumnName = Some name -> name <> EmptyString ->
        rows = VArr (VObj o :: rest) -> name ∈ Js.keys o ->
        fst (QueryExecutor.insert env r tableName keyValues idColumnName w)
        = Returns (Js.get o name))
  /\ (forall name,
        idColumnName = Some name -> name <> EmptyString ->
        rows = VArr [] \/ rows = VUndefined \/ rows = VNull ->
        fst (QueryExecutor.insert env r tableName keyValues idColumnName w)
        = Throws TypeError).
Proof.
  intros Hset Hr Hok Hrows. rewrite insert_run, Hset.
  rewrite (query_run env w r c) by done. rewrite Hok, <- Hrows. cbn [fst].
  assert (forall name, name <> EmptyString -> QueryExecutor.given (Some name) = true) as Hg.
  { intros name Hne. cbn. by destruct (String.eqb_spec name EmptyString). }
  split_and!.
  - by intros ->.
  - intros name o rest -> Hne -> Hin. rewrite Hg by done. cbn.
    assert (existsb (String.eqb name) (Js.keys o) = true) as ->; [|done].
    apply existsb_exists. exists name. split; [by apply list_elem_of_In|].
    apply String.eqb_refl.
  - intros name -> Hne Hcase. rewrite Hg by done.
    by destruct Hcase as [->|[->| ->]].
Qed.

(** A client that answers every query with one row whose id is 42. *)
Lemma insert_result_witness :
  let env := mkTransport (fun _ => VNull) (fun _ => (VNull, 100, 7))
               (fun _ => (VNull, VArr [VObj [("id", VNum 42)]])) in
  fst (QueryExecutor.insert env 0 "users" [("name", VStr "Bob")] (Some "id") demo_pooled)
  = Returns (VNum 42).
Proof.
  intros env.
  destruct (insert_result env demo_pooled 0 (mkDatabaseConnection 0 100 false (Some 7))
              "users" [("name", VStr "Bob")] (Some "id") (VArr [VObj [("id", VNum 42)]])
              eq_refl eq_refl eq_refl eq_refl) as (_ & H & _).
  apply (H "id" [("id", VNum 42)] []); [reflexivity|discriminate|reflexivity|].
  apply list_elem_of_singleton. reflexivity.
Defined.

Lemma delete_run (env : Transport) (w : World) (r : ref) (tableName : string)
    (conditions : list (string * value)) :
  QueryExecutor.delete env r tableName conditions w
  = if connectionIsNotSet (driver w) then (Throws ConnectionIsNotSetError, w)
    else match query env r (QueryExecutor.deleteQuery tableName conditions)
                 (Some (QueryExecutor.deleteParameters conditions)) w with
         | (Returns _, w') => (Returns tt, w')
         | (Throws e, w') => (Throws e, w')
         | (Beyond, w') => (Beyond, w')
         end.
Proof.
  unfold QueryExecutor.delete. unfold_M. destruct (connectionIsNotSet (driver w)); [done|].
  by destruct (query _ _ _ _ _) as [[| |] ?].
Qed.

(** X13.  The statement delete hands to the client reads
    [DELETE FROM "table" WHERE ] followed by the conditions ["key"=$i],
    numbered from 1 in the order of the keys and joined by [ AND ]; its
    parameters are the values of the conditions in the same order.  With no
    condition the statement still ends with [ WHERE ]: delete never issues
    a statement without the keyword. *)
Theorem delete_statement (env : Transport) (w : World) (r : ref) (c : DatabaseConnection)
    (tableName : string) (conditions : list (string * value)) :
  NoDup (Js.keys conditions) ->
  connectionIsNotSet (driver w) = false ->
  heap w !! r = Some c ->
  (exists t,
     trace (snd (QueryExecutor.delete env r tableName conditions w))
     = issued w c (QueryExecutor.deleteQuery tableName conditions)
         (Some (snd <$> conditions)) ++ t)
  /\ QueryExecutor.deleteQuery tableName conditions
     = "DELETE FROM " +:+ escapeTableName tableName +:+ " WHERE "
       +:+ Js.join " AND " (parametrize conditions 0)
  /\ (forall i k v, conditions !! i = Some (k, v) ->
        parametrize conditions 0 !! i
        = Some (escapeColumnName k +:+ "=$" +:+ Js.nat_to_string (i + 1)))
  /\ (conditions = [] ->
      QueryExecutor.deleteQuery tableName conditions
      = "DELETE FROM " +:+ escapeTableName tableName +:+ " WHERE ").
Proof.
  intros Hk Hset Hr.
  assert (QueryExecutor.deleteQuery tableName conditions
          = "DELETE FROM " +:+ escapeTableName tableName +:+ " WHERE "
            +:+ Js.join " AND " (parametrize conditions 0)) as Hq.
  { unfold QueryExecutor.deleteQuery, escapeTableName. by rewrite !str_app_assoc. }
  split_and!.
  - rewrite delete_run, Hset. unfold QueryExecutor.deleteParameters.
    rewrite get_keys by done.
    rewrite (query_run env w r c) by done.
    destruct (Js.truthy _); cbn; [by eexists|].
    exists []. by rewrite app_nil_r.
  - exact Hq.
  - intros i k v Hi. by apply (parametrize_lookup conditions 0 i k v).
  - intros ->. rewrite Hq. done.
Qed.

Lemma delete_statement_witness :
  QueryExecutor.deleteQuery "users" [("id", VNum 3); ("name", VStr "Bob")]
  = "DELETE FROM " +:+ escapeTableName "users" +:+ " WHERE " +:+ escapeColumnName "id"
    +:+ "=$1 AND " +:+ escapeColumnName "name" +:+ "=$2".
Proof.
  destruct (delete_statement demo_env demo_pooled 0
              (mkDatabaseConnection 0 100 false (Some 7)) "users"
              [("id", VNum 3); ("name", VStr "Bob")]) as (_ & H & _);
    [ |reflexivity|reflexivity|rewrite H; reflexivity].
  apply NoDup_cons. split; [intros Hin%list_elem_of_singleton; discriminate|].
  apply NoDup_singleton.
Defined.

Lemma closure_unfold (env : Transport) (w : World) (r : ref) (tableName : string)
    (newEntityId parentId : value) (hasLevel : bool) (newId parent : string) :
  Js.to_string newEntityId = Some newId ->
  Js.to_string parentId = Some parent ->
  insertIntoClosureTable env r tableName newEntityId parentId hasLevel w
  = match query env r (closureInsertQuery tableName newId parent hasLevel) None w with
    | (Returns _, w1) =>
        match query env r (closureLevelQuery tableName parent) None w1 with
        | (Returns results, w2) => (closureDepth results, w2)
        | (Throws e, w2) => (Throws e, w2)
        | (Beyond, w2) => (Beyond, w2)
        end
    | (Throws e, w1) => (Throws e, w1)
    | (Beyond, w1) => (Beyond, w1)
    end.
Proof.
  intros Hn Hp. unfold insertIntoClosureTable.
  unfold mbind, M_bind, bind, lift. rewrite Hn, Hp. cbn [of_option].
  destruct (query env r _ None w) as [[a| |] w1]; try done.
Qed.

(** X14.  On a driver with neither a connection nor a pool, query, insert,
    update, delete, clearDatabase and insertIntoClosureTable fail with
    ConnectionIsNotSetError before anything is logged or handed to a
    client: the world is left as it was. *)
Theorem unset_driver_refuses_data_operations (env : Transport) (w : World) (r : ref) :
  connectionIsNotSet (driver w) = true ->
  (forall sql ps, query env r sql ps w = (Throws ConnectionIsNotSetError, w))
  /\ (forall tableName keyValues idColumnName,
        QueryExecutor.insert env r tableName keyValues idColumnName w
        = (Throws ConnectionIsNotSetError, w))
  /\ (forall tableName valuesMap conditions,
        update env r tableName valuesMap conditions w = (Throws ConnectionIsNotSetError, w))
  /\ (forall tableName conditions,
        QueryExecutor.delete env r tableName conditions w
        = (Throws ConnectionIsNotSetError, w))
  /\ QueryExecutor.clearDatabase env r w = (Throws ConnectionIsNotSetError, w)
  /\ (forall tableName newEntityId parentId hasLevel newId parent,
        Js.to_string newEntityId = Some newId ->
        Js.to_string parentId = Some parent ->
        insertIntoClosureTable env r tableName newEntityId parentId hasLevel w
        = (Throws ConnectionIsNotSetError, w)).
Proof.
  intros Hset. split_and!.
  - intros. by apply query_not_set.
  - intros. by rewrite insert_run, Hset.
  - intros. by rewrite update_run, Hset.
  - intros. by rewrite delete_run, Hset.
  - unfold QueryExecutor.clearDatabase. unfold_M. by rewrite Hset.
  - intros tableName newEntityId parentId hasLevel newId parent Hn Hp.
    rewrite (closure_unfold env w r tableName newEntityId parentId hasLevel newId parent)
      by done.
    by rewrite query_not_set.
Qed.

Lemma unset_driver_refuses_data_operations_witness :
  QueryExecutor.insert demo_env 0 "users" [("name", VStr "Bob")] None (initial None)
  = (Throws ConnectionIsNotSetError, initial None)
  /\ QueryExecutor.clearDatabase demo_env 0 (initial None)
     = (Throws ConnectionIsNotSetError, initial None).
Proof.
  destruct (unset_driver_refuses_data_operations demo_env (initial None) 0 eq_refl)
    as (_ & Hi & _ & _ & Hc & _).
  split; [apply Hi|exact Hc].
Defined.

Lemma dispatch_run (w : World) (r : ref) (c : DatabaseConnection) (sql : string)
    (ps : option (list value)) :
  connectionIsNotSet (driver w) = false ->
  heap w !! r = Some c ->
  QueryExecutor.dispatch r sql ps w
  = (Returns (issued w c sql ps), mkWorld (heap w) (driver w) (issued w c sql ps)).
Proof.
  intros Hset Hr. unfold QueryExecutor.dispatch, issued. unfold_M. rewrite Hset. simpl.
  rewrite Hr. simpl. by rewrite <- !app_assoc.
Qed.

Lemma answer_run (env : Transport) (w : World) (call : string * list Event) :
  QueryExecutor.answer env (fst call) (snd call) w
  = (Returns (settled env call),
     mkWorld (heap w) (driver w) (trace w ++ failure_log env call)).
Proof.
  destruct call as [sql call]. unfold QueryExecutor.answer, settled, failure_log. simpl.
  destruct (on_client_query env call) as [err rows]. simpl.
  destruct (Js.truthy err); unfold_M; simpl.
  - by rewrite <- app_assoc.
  - rewrite app_nil_r. by destruct w.
Qed.

(** [query] is its call followed by its callback. *)
Lemma query_two_halves (env : Transport) (w : World) (r : ref) (sql : string)
    (ps : option (list value)) :
  query env r sql ps w
  = (call ← QueryExecutor.dispatch r sql ps;
     o ← QueryExecutor.answer env sql call;
     lift o) w.
Proof.
  unfold query, QueryExecutor.dispatch, QueryExecutor.answer. unfold_M.
  destruct (connectionIsNotSet (driver w)); [done|]. simpl.
  destruct (heap w !! r) as [c|]; simpl; [|done].
  destruct (on_client_query env _) as [err rows].
  by destruct (Js.truthy err).
Qed.

Lemma dispatch_all_run (w : World) (r : ref) (c : DatabaseConnection) (rows : list value)
    (qs : list string) :
  connectionIsNotSet (driver w) = false ->
  heap w !! r = Some c ->
  Forall2 (fun row sql => QueryExecutor.dropQuery row = Returns sql) rows qs ->
  QueryExecutor.dispatch_all r rows w
  = (Returns (drop_calls (trace w) (connection c) qs),
     mkWorld (heap w) (driver w)
       (trace w ++ (qs ≫= fun sql => [LogQuery sql; ClientQuery (connection c) sql None]))).
Proof.
  intros Hset Hr Hrows. revert w Hset Hr.
  induction Hrows as [|row sql rows qs Hrow _ IH]; intros w Hset Hr.
  - cbn. unfold_M. rewrite app_nil_r. by destruct w.
  - cbn [QueryExecutor.dispatch_all]. unfold mbind, M_bind, bind at 1, lift. rewrite Hrow.
    unfold bind at 1. rewrite (dispatch_run w r c) by done.
    unfold bind at 1. rewrite IH by done. cbn [heap driver trace].
    unfold mret, M_ret, ret. cbn [drop_calls]. unfold issued.
    rewrite bind_cons, <- app_assoc. done.
Qed.

Lemma answer_all_run (env : Transport) (w : World) (calls : list (string * list Event)) :
  QueryExecutor.answer_all env calls w
  = (Returns (settled env <$> calls),
     mkWorld (heap w) (driver w) (trace w ++ (calls ≫= failure_log env))).
Proof.
  revert w. induction calls as [|[sql call] calls IH]; intros w.
  - cbn. unfold_M. rewrite app_nil_r. by destruct w.
  - cbn [QueryExecutor.answer_all]. unfold mbind, M_bind, bind at 1.
    pose proof (answer_run env w (sql, call)) as E. cbn [fst snd] in E. rewrite E.
    unfold bind at 1. rewrite IH. cbn [heap driver trace].
    unfold mret, M_ret, ret. rewrite fmap_cons, bind_cons, <- app_assoc. done.
Qed.

Lemma promise_all_fulfilled (env : Transport) (calls : list (string * list Event)) :
  Forall (fun call => Js.truthy (fst (on_client_query env (snd call))) = false) calls ->
  (exists vs, QueryExecutor.promise_all (settled env <$> calls) = Returns vs)
  /\ calls ≫= failure_log env = [].
Proof.
  induction 1 as [|call calls Hcall _ [[vs IH1] IH2]]; [by eauto|].
  rewrite fmap_cons, bind_cons. unfold settled at 1, failure_log at 1. rewrite Hcall.
  cbn. rewrite IH1, IH2. by eauto.
Qed.

Lemma promise_all_rejected (l : list (outcome value)) (e : error) :
  QueryExecutor.promise_all l = Throws e -> Throws e ∈ l.
Proof.
  induction l as [|[v|e'|] l IH]; cbn; [done| | |done].
  - destruct (QueryExecutor.promise_all l); cbn; try done.
    intros [= ->]. right. by apply IH.
  - intros [= ->]. left.
Qed.

Lemma clearDatabase_run (env : Transport) (w : World) (r : ref) (c : DatabaseConnection) :
  connectionIsNotSet (driver w) = false ->
  heap w !! r = Some c ->
  QueryExecutor.clearDatabase env r w
  = let select := QueryExecutor.selectDropsQuery in
    let err := fst (reply env w c select None) in
    let w1 := mkWorld (heap w) (driver w) (issued w c select None) in
    if Js.truthy err
    then (Throws (TransportError err),
          mkWorld (heap w) (driver w)
            (issued w c select None ++ [LogFailedQuery select; LogQueryError err]))
    else match snd (reply env w c select None) with
         | VArr rows =>
             (calls ← QueryExecutor.dispatch_all r rows;
              settled ← QueryExecutor.answer_all env calls;
              lift (QueryExecutor.promise_all settled) ;;
              ret tt) w1
         | _ => (Throws TypeError, w1)
         end.
Proof.
  intros Hset Hr. cbv zeta. unfold QueryExecutor.clearDatabase.
  unfold mbind at 1 2, M_bind at 1 2, bind at 1 2, get_driver. rewrite Hset.
  rewrite (query_run env w r c) by done.
  destruct (Js.truthy _); [done|]. by destruct (snd (reply env w c _ None)).
Qed.

(** X15.  clearDatabase first asks the catalog for the drop statements.
    If that query fails, clearDatabase is rejected with its error and no
    drop statement is issued; if the answer is no array, it is rejected
    with a TypeError.  Otherwise it hands the client the text under
    [query] of every row, in the order of the rows and with no parameter,
    all of them whether or not some fail; it returns when every statement
    succeeded, and is otherwise rejected with the error of a statement that
    failed, each failure being logged. *)
Theorem clear_database_drops_every_table (env : Transport) (w : World) (r : ref)
    (c : DatabaseConnection) :
  connectionIsNotSet (driver w) = false ->
  heap w !! r = Some c ->
  let select := QueryExecutor.selectDropsQuery in
  let err := fst (reply env w c select None) in
  let answer := snd (reply env w c select None) in
  (Js.truthy err = true ->
   QueryExecutor.clearDatabase env r w
   = (Throws (TransportError err),
      mkWorld (heap w) (driver w)
        (issued w c select None ++ [LogFailedQuery select; LogQueryError err])))
  /\ (Js.truthy err = false ->
      (forall rows, answer <> VArr rows) ->
      QueryExecutor.clearDatabase env r w
      = (Throws TypeError, mkWorld (heap w) (driver w) (issued w c select None)))
  /\ (Js.truthy err = false ->
      forall (rows : list value) (qs : list string),
        answer = VArr rows ->
        Forall2 (fun row sql => QueryExecutor.dropQuery row = Returns sql) rows qs ->
        let calls := drop_calls (issued w c select None) (connection c) qs in
        QueryExecutor.clearDatabase env r w
        = (obind (QueryExecutor.promise_all (settled env <$> calls))
             (fun _ => Returns tt),
           mkWorld (heap w) (driver w)
             (issued w c select None
              ++ (qs ≫= fun sql => [LogQuery sql; ClientQuery (connection c) sql None])
              ++ (calls ≫= failure_log env)))
        /\ (Forall (fun call => Js.truthy (fst (on_client_query env (snd call))) = false)
              calls ->
            QueryExecutor.clearDatabase env r w
            = (Returns tt,
               mkWorld (heap w) (driver w)
                 (issued w c select None
                  ++ (qs ≫= fun sql =>
                              [LogQuery sql; ClientQuery (connection c) sql None]))))
        /\ (forall e, fst (QueryExecutor.clearDatabase env r w) = Throws e ->
              exists call, call ∈ calls /\ settled env call = Throws e)).
Proof.
  intros Hset Hr. cbv zeta. rewrite (clearDatabase_run env w r c Hset Hr). cbv zeta.
  split_and!.
  - by intros ->.
  - intros -> Hrows.
    destruct (snd (reply env w c _ None)) as [| | | | | | |rows|]; try done.
    by destruct (Hrows rows).
  - intros -> rows qs -> Hqs.
    set (calls := drop_calls _ _ qs).
    set (w1 := mkWorld (heap w) (driver w) (issued w c QueryExecutor.selectDropsQuery None)).
    assert ((calls ← QueryExecutor.dispatch_all r rows;
             settled ← QueryExecutor.answer_all env calls;
             lift (QueryExecutor.promise_all settled) ;; ret tt) w1
            = (obind (QueryExecutor.promise_all (settled env <$> calls))
                 (fun _ => Returns tt),
               mkWorld (heap w) (driver w)
                 (issued w c QueryExecutor.selectDropsQuery None
                  ++ (qs ≫= fun sql => [LogQuery sql; ClientQuery (connection c) sql None])
                  ++ (calls ≫= failure_log env)))) as ->.
    { unfold mbind at 1, M_bind at 1, bind at 1.
      rewrite (dispatch_all_run w1 r c rows qs) by done. cbn [heap driver trace w1].
      unfold mbind at 1, M_bind at 1, bind at 1. rewrite answer_all_run.
      cbn [heap driver trace].
      unfold mbind, M_bind, bind, lift, mret, M_ret, ret. rewrite <- app_assoc.
      fold calls. by destruct (QueryExecutor.promise_all _). }
    split_and!.
    + done.
    + intros Hall. destruct (promise_all_fulfilled env calls Hall) as [[vs ->] ->].
      by rewrite app_nil_r.
    + intros e He. cbn [fst] in He.
      assert (QueryExecutor.promise_all (settled env <$> calls) = Throws e) as Hp.
      { destruct (QueryExecutor.promise_all _); cbn in He; congruence. }
      apply promise_all_rejected, list_elem_of_fmap in Hp as (call & Hcall & Hin).
      by exists call.
Qed.

(** Two tables, the first drop statement refused: both statements are
    issued, and clearDatabase is rejected with the error of the first. *)
Lemma clear_database_drops_every_table_witness :
  QueryExecutor.clearDatabase drops_env 0 demo_pooled
  = (Throws (TransportError (VStr "locked")),
     mkWorld (heap demo_pooled) (driver demo_pooled)
       (issued demo_pooled (mkDatabaseConnection 0 100 false (Some 7))
          QueryExecutor.selectDropsQuery None
        ++ [LogQuery "DROP a"; ClientQuery 100 "DROP a" None;
            LogQuery "DROP b"; ClientQuery 100 "DROP b" None;
            LogFailedQuery "DROP a"; LogQueryError (VStr "locked")])).
Proof.
  destruct (clear_database_drops_every_table drops_env demo_pooled 0
              (mkDatabaseConnection 0 100 false (Some 7)) eq_refl eq_refl)
    as (_ & _ & H).
  destruct (H eq_refl [VObj [("query", VStr "DROP a")]; VObj [("query", VStr "DROP b")]]
              ["DROP a"; "DROP b"] eq_refl) as (E & _).
  - repeat constructor.
  - rewrite E. reflexivity.
Defined.

(** X16.  When the client refuses the insert statement of
    insertIntoClosureTable, the operation is rejected with that error and
    the statement that reads the level is never issued; when the insert
    succeeds and the level statement is refused, the operation is rejected
    with the error of the latter. *)
Theorem closure_failure_stops (env : Transport) (w : World) (r : ref)
    (c : DatabaseConnection) (tableName : string) (newEntityId parentId : value)
    (hasLevel : bool) (newId parent : string) :
  Js.to_string newEntityId = Some newId ->
  Js.to_string parentId = Some parent ->
  connectionIsNotSet (driver w) = false ->
  heap w !! r = Some c ->
  let insertion := closureInsertQuery tableName newId parent hasLevel in
  let selection := closureLevelQuery tableName parent in
  let w1 := mkWorld (heap w) (driver w) (issued w c insertion None) in
  let err1 := fst (reply env w c insertion None) in
  let err2 := fst (reply env w1 c selection None) in
  (Js.truthy err1 = true ->
   insertIntoClosureTable env r tableName newEntityId parentId hasLevel w
   = (Throws (TransportError err1),
      mkWorld (heap w) (driver w)
        (issued w c insertion None ++ [LogFailedQuery insertion; LogQueryError err1])))
  /\ (Js.truthy err1 = false -> Js.truthy err2 = true ->
      insertIntoClosureTable env r tableName newEntityId parentId hasLevel w
      = (Throws (TransportError err2),
         mkWorld (heap w) (driver w)
           (issued w1 c selection None ++ [LogFailedQuery selection; LogQueryError err2]))).
Proof.
  intros Hn Hp Hset Hr. cbv zeta.
  rewrite (closure_unfold env w r tableName newEntityId parentId hasLevel newId parent)
    by done.
  rewrite (query_run env w r c) by done. split.
  - by intros ->.
  - intros -> H2. rewrite (query_run env _ r c) by done.
    cbn [heap driver]. by rewrite H2.
Qed.

(** A client that fails every query with the error [down]. *)
Lemma closure_failure_stops_witness :
  let env := mkTransport (fun _ => VNull) (fun _ => (VNull, 100, 7))
               (fun _ => (VStr "down", VUndefined)) in
  fst (insertIntoClosureTable env 0 "category_closure" (VNum 5) (VNum 3) true demo_pooled)
  = Throws (TransportError (VStr "down"))
  /\ length (trace (snd (insertIntoClosureTable env 0 "category_closure" (VNum 5) (VNum 3)
                            true demo_pooled)))
     = length (trace demo_pooled) + 4.
Proof.
  intros env.
  destruct (closure_failure_stops env demo_pooled 0
              (mkDatabaseConnection 0 100 false (Some 7)) "category_closure"
              (VNum 5) (VNum 3) true "5" "3" eq_refl eq_refl eq_refl eq_refl) as [H _].
  rewrite (H eq_refl). split; reflexivity.
Defined.

(** ** The type marshaller, both ways *)

(** X17.  On a boolean column only the value [true] itself is persisted
    as 1; every other value, truthy ones included, is persisted as 0.  So
    persisting and hydrating gives [true] exactly for [true]; hydrating and
    persisting gives 1 exactly for the truthy values; and persisting twice
    gives 0, since 1 and 0 are not [true]. *)
Theorem boolean_marshalling (clock : Clock) (v : value) :
  preparePersistentValue v (mkColumnMetadata BOOLEAN)
  = Returns (VNum (if is_true v then 1 else 0))
  /\ round_trip clock BOOLEAN v = Returns (VBool (is_true v))
  /\ read_back clock BOOLEAN v = Returns (VNum (if Js.truthy v then 1 else 0))
  /\ obind (preparePersistentValue v (mkColumnMetadata BOOLEAN))
       (fun x => preparePersistentValue x (mkColumnMetadata BOOLEAN))
     = Returns (VNum 0).
Proof.
  split_and!.
  - by destruct v as [| |[]| | | | | |].
  - by destruct v as [| |[]| | | | | |].
  - unfold read_back. cbn. by destruct (Js.truthy v).
  - by destruct v as [| |[]| | | | | |].
Qed.

Lemma split_nonempty (s : string) : Js.split "," s <> [].
Proof.
  destruct s as [|c s]; [done|]. cbn [Js.split].
  destruct (Ascii.eqb c ","); [done|]. by destruct (Js.split "," s).
Qed.

Lemma join_split (s : string) : Js.join "," (Js.split "," s) = s.
Proof.
  induction s as [|c s IH]; [done|]. cbn [Js.split].
  pose proof (split_nonempty s) as Hne.
  destruct (Ascii.eqb_spec c ",") as [->|Hc].
  - destruct (Js.split "," s) as [|h t]; [done|].
    change (Js.join "," (EmptyString :: h :: t))
      with (EmptyString +:+ "," +:+ Js.join "," (h :: t)).
    by rewrite IH.
  - destruct (Js.split "," s) as [|h t]; [done|].
    destruct t as [|h' t].
    + cbn in *. by rewrite IH.
    + change (Js.join "," (String c h :: h' :: t))
        with (String c (h +:+ "," +:+ Js.join "," (h' :: t))).
      change (Js.join "," (h :: h' :: t)) with (h +:+ "," +:+ Js.join "," (h' :: t)) in IH.
      by rewrite IH.
Qed.

Lemma split_comma_free_parts (s : string) :
  Forall (fun t => comma_free t = true) (Js.split "," s).
Proof.
  induction s as [|c s IH]; [by repeat constructor|]. cbn [Js.split].
  destruct (Ascii.eqb c ",") eqn:Hc.
  - by constructor.
  - destruct (Js.split "," s) as [|h t]; [by repeat constructor; cbn; rewrite Hc|].
    apply Forall_cons in IH as [Hh Ht]. constructor; [|done].
    unfold comma_free in *. cbn. by rewrite Hc, Hh.
Qed.

(** X18.  On a simple-array column every stored text reads back as
    itself: hydrating it and persisting the result gives the text again.
    The hydrated array is never empty, and none of its elements holds a
    comma. *)
Theorem simple_array_text_reads_back (clock : Clock) (s : string) :
  read_back clock SIMPLE_ARRAY (VStr s) = Returns (VStr s)
  /\ exists l, prepareHydratedValue clock (VStr s) (mkColumnMetadata SIMPLE_ARRAY)
               = Returns (VArr (VStr <$> l))
               /\ l <> []
               /\ Forall (fun t => comma_free t = true) l.
Proof.
  split.
  - unfold read_back. cbn. rewrite map_String_strings. cbn. by rewrite join_split.
  - exists (Js.split "," s). split_and!; [done|apply split_nonempty|apply split_comma_free_parts].
Qed.

Lemma split_app_any (a b : string) :
  Js.split "," (a +:+ "," +:+ b) = Js.split "," a ++ Js.split "," b.
Proof.
  induction a as [|c a IH].
  - by rewrite str_app_nil_l, str_app_cons, str_app_nil_l.
  - rewrite str_app_cons. cbn [Js.split]. rewrite IH.
    destruct (Ascii.eqb c ","); [done|].
    pose proof (split_nonempty a). by destruct (Js.split "," a).
Qed.

Lemma split_join_any (ts : list string) :
  ts <> [] -> Js.split "," (Js.join "," ts) = ts ≫= Js.split ",".
Proof.
  intros Hne. induction ts as [|t ts IH]; [done|].
  destruct ts as [|t' ts].
  - cbn. by rewrite app_nil_r.
  - change (Js.join "," (t :: t' :: ts)) with (t +:+ "," +:+ Js.join "," (t' :: ts)).
    rewrite split_app_any, IH by done. by rewrite (bind_cons _ t).
Qed.

Lemma map_String_length (l : list value) (ts : list string) :
  map_String l = Some ts -> length ts = length l.
Proof.
  revert ts. induction l as [|v l IH]; intros ts; cbn; [by intros [= <-]|].
  destruct (Js.to_string v) as [s|]; cbn; [|done].
  destruct (map_String l) as [t|]; cbn; [|done].
  intros [= <-]. cbn. f_equal. by apply IH.
Qed.

Lemma bind_split_length (ts : list string) :
  length ts <= length (ts ≫= Js.split ",").
Proof.
  induction ts as [|t ts IH]; [done|]. rewrite bind_cons, length_app.
  pose proof (split_nonempty t). destruct (Js.split "," t); [done|]. cbn. lia.
Qed.

(** X19.  On a simple-array column a non-empty array comes back as the
    texts of its elements ([String(i)]), each one split at its commas, in
    order; the array that comes back is never shorter than the one that
    was persisted. *)
Theorem simple_array_round_trip_law (clock : Clock) (l : list value) (ts : list string) :
  map_String l = Some ts ->
  l <> [] ->
  round_trip clock SIMPLE_ARRAY (VArr l) = Returns (VArr (VStr <$> (ts ≫= Js.split ",")))
  /\ length l <= length (ts ≫= Js.split ",").
Proof.
  intros Hts Hne. split.
  - unfold round_trip. cbn [preparePersistentValue type]. rewrite Hts. cbn.
    rewrite split_join_any; [done|]. intros ->.
    apply map_String_length in Hts. by destruct l.
  - rewrite <- (map_String_length l ts Hts). apply bind_split_length.
Qed.

Lemma simple_array_round_trip_law_witness :
  round_trip demo_clock SIMPLE_ARRAY (VArr [VStr "a,b"; VNum 7])
  = Returns (VArr [VStr "a"; VStr "b"; VStr "7"]).
Proof.
  destruct (simple_array_round_trip_law demo_clock [VStr "a,b"; VNum 7] ["a,b"; "7"]
              eq_refl) as [H _]; [discriminate|exact H].
Defined.

(** X20.  On boolean, date and datetime columns, and on columns of the
    types the marshaller leaves alone, hydration is idempotent: a hydrated
    value is hydrated to itself. *)
Theorem hydration_idempotent (clock : Clock) (t : ColumnType) (x v : value) :
  t = BOOLEAN \/ t = DATE \/ t = DATETIME \/ (exists name, t = OTHER name) ->
  prepareHydratedValue clock x (mkColumnMetadata t) = Returns v ->
  prepareHydratedValue clock v (mkColumnMetadata t) = Returns v.
Proof.
  intros [->|[->|[->|[name ->]]]]; cbn.
  - intros [= <-]. by destruct (Js.truthy x).
  - destruct x; try done.
    + destruct (Moment.parse_day s) as [[[y mo] d]|]; cbn; [|done]. unfold toDate.
      destruct (local_time clock y mo d 0 0 0) as [[[y' mo'] d'] [[h' mi'] s']].
      by intros [= <-].
    + by intros [= <-].
  - destruct x; try done.
    + destruct (Moment.parse_datetime s) as [[[[y mo] d] [[h mi] sec]]|]; cbn; [|done].
      unfold toDate.
      destruct (local_time clock y mo d h mi sec) as [[[y' mo'] d'] [[h' mi'] s']].
      by intros [= <-].
    + by intros [= <-].
  - done.
Qed.

Lemma hydration_idempotent_witness :
  prepareHydratedValue demo_clock (VDate 2024 2 29 0 0 0 0) (mkColumnMetadata DATE)
  = Returns (VDate 2024 2 29 0 0 0 0).
Proof.
  apply (hydration_idempotent demo_clock DATE (VStr "2024-02-29")).
  - right. left. reflexivity.
  - reflexivity.
Defined.

(** X21.  On date, datetime and time columns the text that the formatter
    writes for a civil time reads back as itself, when that civil time
    exists in the time zone of the host: hydrating the text and persisting
    the [Date] gives the text again.  For a date column the civil time is
    midnight of the day; for a time column it is the time of day on the
    day the clock shows. *)
Theorem stored_dates_read_back (clock : Clock) (y mo d h mi sec : nat) :
  Moment.valid_day y mo d = true ->
  Moment.valid_time h mi sec = true ->
  (exists_locally clock y mo d 0 0 0 ->
   read_back clock DATE (VStr (Moment.format_day y mo d))
   = Returns (VStr (Moment.format_day y mo d)))
  /\ (exists_locally clock y mo d h mi sec ->
      read_back clock DATETIME
        (VStr (Moment.format_day y mo d +:+ " " +:+ Moment.format_time h mi sec))
      = Returns (VStr (Moment.format_day y mo d +:+ " " +:+ Moment.format_time h mi sec)))
  /\ (exists_locally clock (this_year clock) (this_month clock) (this_day clock) h mi sec ->
      Moment.valid_day (this_year clock) (this_month clock) (this_day clock) = true ->
      read_back clock TIME (VStr (Moment.format_time h mi sec))
      = Returns (VStr (Moment.format_time h mi sec))).
Proof.
  intros Hday Htime. unfold read_back, exists_locally.
  cbn [prepareHydratedValue type].
  rewrite parse_day_format, parse_time_format, parse_datetime_format by done.
  cbn [mbind option_bind of_option obind]. unfold toDate. split_and!.
  - intros ->. cbn [preparePersistentValue type]. unfold Moment.valid. by rewrite Hday.
  - intros ->. cbn [preparePersistentValue type]. unfold Moment.valid.
    by rewrite Hday, Htime.
  - intros -> Htoday. cbn [preparePersistentValue type]. unfold Moment.valid.
    by rewrite Htoday, Htime.
Qed.

Lemma stored_dates_read_back_witness :
  read_back demo_clock DATETIME (VStr "2024-02-29 13:05:09")
  = Returns (VStr "2024-02-29 13:05:09")
  /\ read_back demo_clock DATE (VStr "2024-02-29") = Returns (VStr "2024-02-29").
Proof.
  destruct (stored_dates_read_back demo_clock 2024 2 29 13 5 9 eq_refl eq_refl)
    as (Hd & Hdt & _).
  split; [apply Hdt|apply Hd]; reflexivity.
Defined.

(** ** The parameter rewriter, further *)

Section rewriter_more.
Import Rewriter.

Lemma keys_literal (parameters : list (string * value)) :
  Forall (fun k => identifier k = true) (Js.keys parameters) ->
  forallb Js.regex_literal (Js.keys parameters) = true.
Proof.
  intros Hks. apply forallb_forall. intros k Hk%list_elem_of_In.
  apply identifier_literal. by eapply (proj1 (Forall_forall _ _) Hks).
Qed.

Lemma escape_unfold (parameters : list (string * value)) (sql : string) :
  parameters <> [] ->
  Forall (fun k => identifier k = true) (Js.keys parameters) ->
  escapeQueryWithParameters sql (Some parameters)
  = Returns (replace_all parameters sql 0 []).
Proof.
  intros Hne Hks. unfold escapeQueryWithParameters.
  destruct (decide (length (Js.keys parameters) = 0)) as [Hlen|_].
  { unfold Js.keys in Hlen. rewrite length_map in Hlen. by destruct parameters. }
  by rewrite keys_literal.
Qed.

(** The rewriting of a text around one bound token, from any list of
    arguments built so far. *)
Lemma replace_all_token (parameters : list (string * value)) (pre name post : string)
    (built : list value) :
  Forall (fun k => identifier k = true) (Js.keys parameters) ->
  name ∈ Js.keys parameters ->
  head_is_word post = false ->
  replace_all parameters (pre +:+ String ":" name +:+ post) 0 built
  = (let '(o1, b1) := replace_all parameters pre 0 built in
     let '(rep, b2) := replacer parameters (String ":" name) b1 in
     let '(o2, b3) := replace_all parameters post 0 b2 in
     (o1 +:+ rep +:+ o2, b3)).
Proof.
  intros Hks Hin Hpost.
  rewrite replace_all_app by (done || lia).
  destruct (replace_all parameters pre 0 built) as [o1 b1].
  rewrite str_app_cons. cbn [replace_all]. rewrite <- str_app_cons.
  rewrite first_match_token by done.
  destruct (replacer parameters (String ":" name) b1) as [rep b2].
  cbn [String.length].
  replace (S (String.length name) - 1) with (String.length name) by lia.
  rewrite replace_all_skip.
  by destruct (replace_all parameters post 0 b2) as [o2 b3].
Qed.

Lemma replacer_scalar (parameters : list (string * value)) (name : string) (v : value)
    (built : list value) :
  Js.get parameters name = v -> scalar v = true ->
  replacer parameters (String ":" name) built
  = (placeholder (length built + 1), built ++ [v]).
Proof.
  intros Hget Hv. unfold replacer. cbn [Js.substr1]. rewrite Hget.
  destruct v; try done; by rewrite length_app.
Qed.

Lemma colon_free_app (s t : string) :
  colon_free (s +:+ t) = colon_free s && colon_free t.
Proof.
  unfold colon_free. induction s as [|c s IH]; [done|].
  rewrite str_app_cons. cbn [Js.all_chars]. by rewrite IH, andb_assoc.
Qed.

Lemma identifier_colon_free (k : string) : identifier k = true -> colon_free k = true.
Proof.
  unfold identifier, colon_free. intros [_ Hw]%andb_prop.
  induction k as [|c k IH]; [done|]. cbn [Js.all_chars] in *.
  apply andb_prop in Hw as [Hc Hw]. by rewrite (word_not_colon c Hc), IH.
Qed.

(** A token whose name is bound to nothing is no match. *)
Lemma first_match_unbound (ks : list string) (name post : string) :
  Forall (fun k => identifier k = true) ks ->
  identifier name = true ->
  name ∉ ks ->
  head_is_word post = false ->
  first_match ks (String ":" name +:+ post) = None.
Proof.
  intros Hks Hname Hnot Hpost. induction Hks as [|k ks Hk _ IH]; [done|].
  apply not_elem_of_cons in Hnot as [Hne Hnot]. cbn [first_match].
  destruct (match_key k (String ":" name +:+ post)) eqn:Hm.
  - apply match_key_token in Hm; [|done..]. congruence.
  - by apply IH.
Qed.

Lemma head_is_word_token (mid rest : string) :
  head_is_word mid = false -> head_is_word (mid +:+ String ":" rest) = false.
Proof. intros Hmid. by destruct mid. Qed.

End rewriter_more.

(** X22.  The rewriter leaves alone what no parameter names: a text with
    no colon comes back unchanged with no arguments, and so does a text
    whose only token has a name that is not a key of the parameters, even
    when a key is a prefix of that name (with the key [id], the token
    [:ids] stays). *)
Theorem text_without_bound_token_unchanged (parameters : list (string * value)) :
  Forall (fun k => Rewriter.identifier k = true) (Js.keys parameters) ->
  (forall sql, colon_free sql = true ->
     escapeQueryWithParameters sql (Some parameters) = Returns (sql, []))
  /\ (forall pre name post,
        colon_free pre = true -> colon_free post = true ->
        Rewriter.identifier name = true ->
        name ∉ Js.keys parameters ->
        Rewriter.head_is_word post = false ->
        escapeQueryWithParameters (pre +:+ String ":" name +:+ post) (Some parameters)
        = Returns (pre +:+ String ":" name +:+ post, [])).
Proof.
  intros Hks. destruct parameters as [|kv parameters].
  { split; by intros. }
  split.
  - intros sql Hsql. rewrite escape_unfold by done. by rewrite replace_all_plain.
  - intros pre name post Hpre Hpo Hname Hnot Hpost.
    rewrite escape_unfold by done.
    rewrite replace_all_app by (done || lia).
    rewrite replace_all_plain by done.
    rewrite str_app_cons. cbn [Rewriter.replace_all]. rewrite <- str_app_cons.
    rewrite first_match_unbound by done.
    rewrite replace_all_plain; [done|].
    fold (colon_free (name +:+ post)).
    by rewrite colon_free_app, identifier_colon_free, Hpo.
Qed.

Lemma text_without_bound_token_unchanged_witness :
  escapeQueryWithParameters "SELECT * FROM t WHERE a = :ids" (Some [("id", VNum 1)])
  = Returns ("SELECT * FROM t WHERE a = :ids", []).
Proof.
  destruct (text_without_bound_token_unchanged [("id", VNum 1)]) as [_ H].
  - repeat constructor.
  - apply (H "SELECT * FROM t WHERE a = " "ids" EmptyString); try reflexivity.
    intros Hin%list_elem_of_singleton. discriminate.
Defined.

(** X23.  Placeholders are numbered, and arguments listed, by the place
    of the tokens in the text: a token bound to a value that is no array
    becomes one placeholder; of two tokens the first becomes [$1] and the
    second [$2] whatever the order of the keys in the parameters, and a
    name that occurs twice gets two placeholders and its value twice among
    the arguments. *)
Theorem tokens_numbered_by_occurrence (parameters : list (string * value))
    (pre mid post name1 name2 : string) :
  Forall (fun k => Rewriter.identifier k = true) (Js.keys parameters) ->
  name1 ∈ Js.keys parameters ->
  name2 ∈ Js.keys parameters ->
  scalar (Js.get parameters name1) = true ->
  scalar (Js.get parameters name2) = true ->
  colon_free pre = true -> colon_free mid = true -> colon_free post = true ->
  Rewriter.head_is_word mid = false ->
  Rewriter.head_is_word post = false ->
  escapeQueryWithParameters (pre +:+ String ":" name1 +:+ post) (Some parameters)
  = Returns (pre +:+ "$1" +:+ post, [Js.get parameters name1])
  /\ escapeQueryWithParameters
       (pre +:+ String ":" name1 +:+ mid +:+ String ":" name2 +:+ post) (Some parameters)
     = Returns (pre +:+ "$1" +:+ mid +:+ "$2" +:+ post,
                [Js.get parameters name1; Js.get parameters name2]).
Proof.
  intros Hks H1 H2 Hv1 Hv2 Hpre Hmid Hpo Hwm Hwp.
  assert (parameters <> []) as Hne by (intros ->; by apply elem_of_nil in H1).
  rewrite !escape_unfold by done. split.
  - rewrite replace_all_token by done. rewrite replace_all_plain by done.
    rewrite (replacer_scalar parameters name1 (Js.get parameters name1)) by done.
    rewrite replace_all_plain by done. reflexivity.
  - rewrite replace_all_token by (done || by apply head_is_word_token).
    rewrite replace_all_plain by done.
    rewrite (replacer_scalar parameters name1 (Js.get parameters name1)) by done.
    rewrite replace_all_token by done. rewrite replace_all_plain by done.
    rewrite (replacer_scalar parameters name2 (Js.get parameters name2)) by done.
    rewrite replace_all_plain by done. reflexivity.
Qed.

Lemma tokens_numbered_by_occurrence_witness :
  escapeQueryWithParameters "a = :x OR b = :x" (Some [("x", VNum 5)])
  = Returns ("a = $1 OR b = $2", [VNum 5; VNum 5]).
Proof.
  destruct (tokens_numbered_by_occurrence [("x", VNum 5)] "a = " " OR b = " EmptyString
              "x" "x") as [_ H];
    [ | | |reflexivity|reflexivity|reflexivity|reflexivity|reflexivity|reflexivity
    |reflexivity|exact H].
  - repeat constructor.
  - apply list_elem_of_singleton. reflexivity.
  - apply list_elem_of_singleton. reflexivity.
Defined.

(** ** The trace: every statement is logged *)

Lemma logged_snoc (t : list Event) (e : Event) :
  is_statement e = false -> logged t -> logged (t ++ [e]).
Proof.
  intros He Ht i c sql ps Hi.
  destruct (decide (i < length t)) as [Hlt|Hge].
  - rewrite lookup_app_l in Hi by done. destruct (Ht i c sql ps Hi) as (j & -> & Hj).
    exists j. split; [done|]. rewrite lookup_app_l by lia. done.
  - rewrite lookup_app_r in Hi by lia.
    destruct (i - length t) as [|n]; [|done]. cbn in Hi. injection Hi as ->. done.
Qed.

Lemma logged_statement (t : list Event) (c : handle) (sql : string)
    (ps : option (list value)) :
  logged t -> logged (t ++ [LogQuery sql; ClientQuery c sql ps]).
Proof.
  intros Ht i c' sql' ps' Hi.
  destruct (decide (i < length t)) as [Hlt|Hge].
  - rewrite lookup_app_l in Hi by done. destruct (Ht i c' sql' ps' Hi) as (j & -> & Hj).
    exists j. split; [done|]. rewrite lookup_app_l by lia. done.
  - rewrite lookup_app_r in Hi by lia.
    destruct (i - length t) as [|[|n]] eqn:E; [done| |done]. cbn in Hi.
    injection Hi as <- <- <-. exists (length t). split; [lia|].
    by rewrite list_lookup_middle.
Qed.

Lemma keeps_bind {A B} (m : M A) (k : A -> M B) :
  keeps_logged m -> (forall a, keeps_logged (k a)) -> keeps_logged (m ≫= k).
Proof.
  intros Hm Hk w Hw. unfold mbind, M_bind, bind. specialize (Hm w Hw).
  destruct (m w) as [[a| |] w1]; cbn in *; [by apply Hk|done|done].
Qed.

Lemma keeps_still {A} (m : M A) :
  (forall w, trace (snd (m w)) = trace w) -> keeps_logged m.
Proof. intros Hm w Hw. by rewrite Hm. Qed.

Lemma keeps_emit (e : Event) : is_statement e = false -> keeps_logged (emit e).
Proof. intros He w Hw. by apply logged_snoc. Qed.

Lemma keeps_query (env : Transport) (r : ref) (sql : string) (ps : option (list value)) :
  keeps_logged (query env r sql ps).
Proof.
  intros w Hw. destruct (connectionIsNotSet (driver w)) eqn:Hset.
  { by rewrite query_not_set. }
  destruct (heap w !! r) as [c|] eqn:Hr.
  - rewrite (query_run env w r c) by done. unfold issued.
    destruct (Js.truthy _); cbn.
    + set (t1 := trace w ++ [LogQuery sql; ClientQuery (connection c) sql ps]).
      change (logged (t1 ++ [LogFailedQuery sql] ++ [LogQueryError (reply env w c sql ps).1])).
      rewrite app_assoc. apply logged_snoc; [done|]. apply logged_snoc; [done|].
      by apply logged_statement.
    + by apply logged_statement.
  - unfold query. unfold_M. rewrite Hset. cbn. rewrite Hr. cbn. by apply logged_snoc.
Qed.

Lemma keeps_dispatch (r : ref) (sql : string) (ps : option (list value)) :
  keeps_logged (QueryExecutor.dispatch r sql ps).
Proof.
  intros w Hw. destruct (connectionIsNotSet (driver w)) eqn:Hset.
  { unfold QueryExecutor.dispatch. unfold_M. by rewrite Hset. }
  destruct (heap w !! r) as [c|] eqn:Hr.
  - rewrite (dispatch_run w r c) by done. by apply logged_statement.
  - unfold QueryExecutor.dispatch. unfold_M. rewrite Hset. cbn. rewrite Hr. cbn.
    by apply logged_snoc.
Qed.

Lemma keeps_answer (env : Transport) (sql : string) (call : list Event) :
  keeps_logged (QueryExecutor.answer env sql call).
Proof.
  intros w Hw. pose proof (answer_run env w (sql, call)) as E. cbn [fst snd] in E.
  rewrite E. cbn [snd trace]. unfold failure_log. cbn [fst snd].
  destruct (Js.truthy _); [|by rewrite app_nil_r].
  change (logged (trace w ++ [LogFailedQuery sql]
                  ++ [LogQueryError (on_client_query env call).1])).
  rewrite app_assoc. apply logged_snoc; [done|]. by apply logged_snoc.
Qed.

Ltac keeps :=
  repeat first
    [ apply keeps_query | apply keeps_dispatch | apply keeps_answer
    | apply keeps_emit; reflexivity
    | apply keeps_bind; [|intros ?]
    | apply keeps_still; intros ?; reflexivity
    | match goal with
      | |- keeps_logged (if ?b then _ else _) => destruct b
      | |- keeps_logged (match ?x with _ => _ end) => destruct x
      end ].

Lemma keeps_run_tx (env : Transport) (op : TxOp) (r : ref) : keeps_logged (run_tx env op r).
Proof.
  destruct op; cbn; unfold beginTransaction, commitTransaction, rollbackTransaction,
    set_isTransactionActive; keeps.
Qed.

Lemma keeps_forEach {A} (l : list A) (f : A -> M unit) :
  (forall x, keeps_logged (f x)) -> keeps_logged (forEach l f).
Proof.
  intros Hf. induction l as [|x l IH]; cbn [forEach]; keeps; [apply Hf|exact IH].
Qed.

Lemma keeps_dispatch_all (r : ref) (rows : list value) :
  keeps_logged (QueryExecutor.dispatch_all r rows).
Proof.
  induction rows as [|q rows IH]; cbn [QueryExecutor.dispatch_all]; keeps; exact IH.
Qed.

Lemma keeps_answer_all (env : Transport) (calls : list (string * list Event)) :
  keeps_logged (QueryExecutor.answer_all env calls).
Proof.
  induction calls as [|[sql call] calls IH]; cbn [QueryExecutor.answer_all]; keeps;
    exact IH.
Qed.

Lemma keeps_perform (env : Transport) (w : World) (o : Operation) :
  logged (trace w) -> logged (trace (perform env w o)).
Proof.
  revert w. change (forall w, logged (trace w) -> logged (trace (perform env w o))).
  destruct o; cbn [perform].
  - change (keeps_logged (connect env)). unfold connect. keeps.
  - change (keeps_logged disconnect). unfold disconnect. keeps.
    all: try (apply keeps_forEach; intros ?; keeps).
  - change (keeps_logged (retrieveDatabaseConnection env)).
    unfold retrieveDatabaseConnection. keeps.
  - change (keeps_logged (releaseDatabaseConnection dbConnection)).
    unfold releaseDatabaseConnection. keeps.
  - change (keeps_logged (QueryExecutor.clearDatabase env dbConnection)).
    unfold QueryExecutor.clearDatabase. keeps.
    all: try apply keeps_dispatch_all; try apply keeps_answer_all.
  - apply keeps_run_tx.
  - apply keeps_query.
  - change (keeps_logged (QueryExecutor.insert env dbConnection tableName keyValues
                            idColumnName)).
    unfold QueryExecutor.insert. keeps.
  - change (keeps_logged (update env dbConnection tableName valuesMap conditions)).
    unfold update. keeps.
  - change (keeps_logged (QueryExecutor.delete env dbConnection tableName conditions)).
    unfold QueryExecutor.delete. keeps.
  - change (keeps_logged (insertIntoClosureTable env dbConnection tableName newEntityId
                            parentId hasLevel)).
    unfold insertIntoClosureTable. keeps.
Qed.

(** X24.  Whatever operations are performed on a driver, with whatever
    arguments and whatever the collaborators answer, every statement that
    was handed to a client was logged just before with the same text. *)
Theorem statements_are_logged (env : Transport) (usePool : option bool)
    (os : list Operation) :
  logged (trace (perform_all env os (initial usePool))).
Proof.
  assert (logged (trace (initial usePool))) as H0.
  { intros i c sql ps Hi. done. }
  unfold perform_all. revert H0. generalize (initial usePool).
  induction os as [|o os IH]; intros w Hw; [done|].
  cbn [fold_left]. apply IH. by apply keeps_perform.
Qed.

(** ** The connection manager: the life of a pool and of its objects *)

(** X26.  A release does not take the object away from its holder: on a
    pooled driver, a query on an object that was just released is still
    logged and handed to the client of that object, and settles as the
    client says. *)
Theorem released_object_still_queries (env : Transport) (w : World) (r : ref)
    (c : DatabaseConnection) (p : handle) (f : callback) (sql : string)
    (ps : option (list value)) :
  pool (driver w) = Some p ->
  heap w !! r = Some c ->
  releaseCallback c = Some f ->
  let call := trace w ++ [Release f; LogQuery sql; ClientQuery (connection c) sql ps] in
  let err := fst (on_client_query env call) in
  fst (query env r sql ps (snd (releaseDatabaseConnection r w)))
  = (if Js.truthy err then Throws (TransportError err)
     else Returns (snd (on_client_query env call)))
  /\ exists t, trace (snd (query env r sql ps (snd (releaseDatabaseConnection r w))))
               = call ++ t.
Proof.
  intros Hp Hr Hf. cbv zeta. rewrite (release_active w r c p f Hp Hr Hf). cbn [snd].
  rewrite (query_run env _ r c).
  - unfold reply, issued. cbn [trace heap driver]. rewrite <- !app_assoc. cbn [app].
    destruct (Js.truthy _); cbn [fst snd trace].
    + split; [done|]. eexists. rewrite <- !app_assoc. cbn [app]. reflexivity.
    + split; [done|]. exists []. by rewrite app_nil_r.
  - unfold connectionIsNotSet. cbn. rewrite Hp. by destruct (databaseConnection (driver w)).
  - done.
Qed.

Lemma released_object_still_queries_witness :
  fst (query demo_env 0 "SELECT 1" None demo_released) = Returns (VArr [])
  /\ exists t, trace (snd (query demo_env 0 "SELECT 1" None demo_released))
               = (trace demo_pooled
                  ++ [Release 7; LogQuery "SELECT 1"; ClientQuery 100 "SELECT 1" None])
                 ++ t.
Proof.
  apply (released_object_still_queries demo_env demo_pooled 0
           (mkDatabaseConnection 0 100 false (Some 7)) 0 7 "SELECT 1" None
           eq_refl eq_refl eq_refl).
Defined.

(** X27.  connect on a driver that already has a pool makes a new pool and
    forgets the former one without ending it; the records tracked so far
    stay tracked.  A disconnect then invokes their release functions and
    ends the new pool only: the former pool is never ended. *)
Theorem second_connect_abandons_pool (env : Transport) (w : World) (p : handle) :
  usePool (driver w) <> Some false ->
  pool (driver w) = Some p ->
  databaseConnection (driver w) = None ->
  Forall (fun r => is_Some (heap w !! r)) (databaseConnectionPool (driver w)) ->
  p <> length (trace w) ->
  let p' := length (trace w) in
  let closing := [NewPool p']
                 ++ (Release <$> callbacks_of (heap w) (databaseConnectionPool (driver w)))
                 ++ [PoolEnd p'] in
  connect env w
  = (Returns tt,
     mkWorld (heap w)
       (mkPostgresDriver (usePool (driver w)) None (Some p')
          (databaseConnectionPool (driver w)))
       (trace w ++ [NewPool p']))
  /\ disconnect (snd (connect env w))
     = (Returns tt,
        mkWorld (heap w) (mkPostgresDriver (usePool (driver w)) None None [])
          (trace w ++ closing))
  /\ PoolEnd p ∉ closing.
Proof.
  intros Hup Hp Hdc Hv Hne. cbv zeta.
  assert (connect env w
          = (Returns tt,
             mkWorld (heap w)
               (mkPostgresDriver (usePool (driver w)) None (Some (length (trace w)))
                  (databaseConnectionPool (driver w)))
               (trace w ++ [NewPool (length (trace w))]))) as E.
  { destruct w as [h [up dc pl dl] t]. cbn in *. subst dc.
    unfold connect. unfold_M. cbn. by destruct up as [[]|]. }
  split_and!.
  - exact E.
  - rewrite E. cbn [snd].
    rewrite (disconnect_pooled _ (length (trace w))) by done.
    cbn [heap driver trace usePool databaseConnectionPool]. by rewrite <- app_assoc.
  - intros [Hin|[Hin|Hin]%elem_of_app]%elem_of_cons.
    + discriminate.
    + apply list_elem_of_fmap in Hin as (x & Hx & _). discriminate.
    + apply list_elem_of_singleton in Hin. congruence.
Qed.

Lemma second_connect_abandons_pool_witness :
  disconnect (snd (connect demo_env demo_pooled))
  = (Returns tt,
     mkWorld (heap demo_pooled) (mkPostgresDriver None None None [])
       (trace demo_pooled ++ [NewPool 3; Release 7; Release 8; PoolEnd 3])).
Proof.
  destruct (second_connect_abandons_pool demo_env demo_pooled 0) as (_ & H & _);
    [discriminate|reflexivity|reflexivity| |discriminate|rewrite H; reflexivity].
  repeat constructor; by eexists.
Defined.
